(** * Pattern match vectors and common utilities
    (jaro_winkler/details/common.hpp, cython/cpp_common.hpp)

    A shallow embedding of [ceildiv], [BitvectorHashmap],
    [PatternMatchVector] and [BlockPatternMatchVector], of [result_cutoff],
    [mismatch] and [remove_common_prefix], and of [PYTHON_VERSION] and
    [vector_slice] of the binding layer, with the properties of the
    character-to-mask mapping and of the utilities.

    Conventions of the embedding.
    - A character code (template parameter [CharT]) is a [Z]; the binding
      layer instantiates [CharT] with [uint8_t], [uint16_t], [uint32_t] and
      [uint64_t], so a character is a [Z] in [[0, 2^64)] and the cast
      [(uint64_t)key] is the identity on it.
    - [uint64_t] masks are [Z] with the wrap-around of [<<=] written out.
    - [int64_t] values ([i], [perturb], [pos], [block]) are [Z]; the
      conversion of a [uint64_t] to [int64_t] is two's complement.
    - [int] values (in [vector_slice]) are [Z] too: a result outside 32
      bits is undefined, a conversion is modulo [2^32].
    - [double] is the primitive binary64 float.
    - [std::array] and [std::vector] are lists, indexed with stdpp's [!!]
      and updated with [<[_:=_]>]; an index outside the container is
      undefined behaviour in C++ and is reported as [Undefined].
    - A range [[first, last)] is the list of its elements.
    - Every operation returns an [outcome]: the value, undefined behaviour,
      a loop that never exits, or a failed [assert]; a call that can throw
      returns a [completion] inside it. *)

From Stdlib Require Import ZArith Lia Bool.
From Stdlib Require Floats.
From stdpp Require Import base tactics numbers option list strings.

Local Open Scope Z_scope.

(** ** Outcomes *)

Inductive outcome (A : Type) : Type :=
| Ok (a : A)
| Undefined
| Diverges
| AssertFail.

Arguments Ok {A} a.
Arguments Undefined {A}.
Arguments Diverges {A}.
Arguments AssertFail {A}.

Definition bind {A B : Type} (c : outcome A) (f : A -> outcome B) : outcome B :=
  match c with
  | Ok a => f a
  | Undefined => Undefined
  | Diverges => Diverges
  | AssertFail => AssertFail
  end.

Notation "'let*' x ':=' c1 'in' c2" := (bind c1 (fun x => c2))
  (at level 10, x name, c1 at level 100, c2 at level 200).

(** A container access [v[i]] with a signed index. *)
Definition at_index {A : Type} (v : list A) (i : Z) : outcome A :=
  if i <? 0 then Undefined
  else match v !! Z.to_nat i with
       | Some a => Ok a
       | None => Undefined
       end.

(** ** Machine integers *)

(** [int64_t perturb = key] for a [uint64_t key]. *)
Definition to_int64 (k : Z) : Z :=
  if k <? 2 ^ 63 then k else k - 2 ^ 64.

Definition fits_int64 (z : Z) : bool :=
  (- 2 ^ 63 <=? z) && (z <? 2 ^ 63).

(** [1ull << pos]: a shift count outside [[0, 64)] is undefined. *)
Definition shl1 (pos : Z) : outcome Z :=
  if (0 <=? pos) && (pos <? 64) then Ok (Z.shiftl 1 pos) else Undefined.

(** [mask <<= 1] on a [uint64_t]. *)
Definition shl_u64 (mask : Z) : Z := (mask * 2) mod 2 ^ 64.

(** [ceildiv(a, divisor)] at [T = int64_t]: [/] and [%] truncate. *)
Definition ceildiv (a divisor : Z) : Z :=
  Z.quot a divisor + (if Z.rem a divisor =? 0 then 0 else 1).

(** The range test [key >= 0 && key <= 255] of all three routers. *)
Definition is_ascii (key : Z) : bool := (0 <=? key) && (key <=? 255).

(** ** BitvectorHashmap *)

Record MapElem : Type := mkElem { key : Z; value : Z }.

Module BitvectorHashmap.

(** [std::array<MapElem, 128> m_map], value-initialised. *)
Definition new : list MapElem := replicate 128 (mkElem 0 0).

(** [!m_map[i].value || m_map[i].key == key] *)
Definition stops (e : MapElem) (k : Z) : bool :=
  (value e =? 0) || (key e =? k).

(** The body of [while (true)], run at most [fuel] times.  [i * 5 +
    perturb + 1] is signed arithmetic, [%] truncates toward zero, and
    [>>=] on a negative [int64_t] is an arithmetic shift. *)
Fixpoint probe (fuel : nat) (m : list MapElem) (k i perturb : Z) : outcome Z :=
  match fuel with
  | O => Diverges
  | S fuel' =>
      let sum := i * 5 + perturb + 1 in
      if fits_int64 sum then
        let i' := Z.rem sum 128 in
        let* e := at_index m i' in
        if stops e k then Ok i'
        else probe fuel' m k i' (Z.shiftr perturb 5)
      else Undefined
  end.

Definition lookup_fuel (fuel : nat) (m : list MapElem) (k : Z) : outcome Z :=
  let i := k mod 128 in
  let* e := at_index m i in
  if stops e k then Ok i
  else probe fuel m k i (to_int64 k).

(** After 13 shifts by 5 a 64-bit [perturb] is constant, and the slot
    index then moves with period 128: a loop that has not exited after
    [13 + 128] probes never exits ([lookup_fuel_exact] below). *)
Definition probe_budget : nat := 13 + 128.

Definition lookup (m : list MapElem) (k : Z) : outcome Z :=
  lookup_fuel probe_budget m k.

Definition insert_mask (m : list MapElem) (k mask : Z) : outcome (list MapElem) :=
  let* i := lookup m k in
  let* e := at_index m i in
  Ok (<[Z.to_nat i := mkElem k (Z.lor (value e) mask)]> m).

Definition insert (m : list MapElem) (k pos : Z) : outcome (list MapElem) :=
  let* mask := shl1 pos in
  insert_mask m k mask.

Definition get (m : list MapElem) (k : Z) : outcome Z :=
  let* i := lookup m k in
  let* e := at_index m i in
  Ok (value e).

End BitvectorHashmap.

(** ** PatternMatchVector *)

Module PatternMatchVector.

Record t : Type := mk {
  m_map : list MapElem;
  m_extendedAscii : list Z
}.

Definition new : t := mk BitvectorHashmap.new (replicate 256 0).

(** [insert(first, last)]: the [for] loop, where [mask] starts at 1 and
    is shifted after every element. *)
Fixpoint insert_loop (first : list Z) (mask : Z) (s : t) : outcome t :=
  match first with
  | [] => Ok s
  | k :: rest =>
      let* s' :=
        (if is_ascii k then
           let* v := at_index (m_extendedAscii s) k in
           Ok (mk (m_map s) (<[Z.to_nat k := Z.lor v mask]> (m_extendedAscii s)))
         else
           let* m' := BitvectorHashmap.insert_mask (m_map s) k mask in
           Ok (mk m' (m_extendedAscii s))) in
      insert_loop rest (shl_u64 mask) s'
  end.

Definition insert_range (first : list Z) (s : t) : outcome t :=
  insert_loop first 1 s.

(** [insert(key, pos)] *)
Definition insert (s : t) (k pos : Z) : outcome t :=
  let* mask := shl1 pos in
  if is_ascii k then
    let* v := at_index (m_extendedAscii s) k in
    Ok (mk (m_map s) (<[Z.to_nat k := Z.lor v mask]> (m_extendedAscii s)))
  else
    let* m' := BitvectorHashmap.insert_mask (m_map s) k mask in
    Ok (mk m' (m_extendedAscii s)).

Definition get (s : t) (k : Z) : outcome Z :=
  if is_ascii k then at_index (m_extendedAscii s) k
  else BitvectorHashmap.get (m_map s) k.

(** [PatternMatchVector(first, last)] *)
Definition make (first : list Z) : outcome t := insert_range first new.

End PatternMatchVector.

(** ** BlockPatternMatchVector *)

(** [std::vector::resize(n)] with value-initialised new elements. *)
Definition resize {A : Type} (n : Z) (d : A) (v : list A) : list A :=
  take (Z.to_nat n) v ++ replicate (Z.to_nat n - length v)%nat d.

Module BlockPatternMatchVector.

Record t : Type := mk {
  m_map : list (list MapElem);
  m_extendedAscii : list Z;
  m_block_count : Z
}.

Definition new : t := mk [] [] 0.

Definition insert (s : t) (block k pos : Z) : outcome t :=
  let* mask := shl1 pos in
  if block <? m_block_count s then
    if is_ascii k then
      let idx := k * m_block_count s + block in
      let* v := at_index (m_extendedAscii s) idx in
      Ok (mk (m_map s)
             (<[Z.to_nat idx := Z.lor v mask]> (m_extendedAscii s))
             (m_block_count s))
    else
      let* m := at_index (m_map s) block in
      let* m' := BitvectorHashmap.insert_mask m k mask in
      Ok (mk (<[Z.to_nat block := m']> (m_map s))
             (m_extendedAscii s)
             (m_block_count s))
  else AssertFail.

(** The [for] loop of [insert(first, last)], from position [i] on. *)
Fixpoint insert_loop (first : list Z) (i : Z) (s : t) : outcome t :=
  match first with
  | [] => Ok s
  | k :: rest =>
      let block := Z.quot i 64 in
      let pos := Z.rem i 64 in
      let* s' := insert s block k pos in
      insert_loop rest (i + 1) s'
  end.

Definition insert_range (first : list Z) (s : t) : outcome t :=
  let len := Z.of_nat (length first) in
  let block_count := ceildiv len 64 in
  insert_loop first 0
    (mk (resize block_count BitvectorHashmap.new (m_map s))
        (resize (block_count * 256) 0 (m_extendedAscii s))
        block_count).

Definition get (s : t) (block k : Z) : outcome Z :=
  if block <? m_block_count s then
    if is_ascii k then
      at_index (m_extendedAscii s) (k * m_block_count s + block)
    else
      let* m := at_index (m_map s) block in
      BitvectorHashmap.get m k
  else AssertFail.

(** [BlockPatternMatchVector(first, last)] *)
Definition make (first : list Z) : outcome t := insert_range first new.

End BlockPatternMatchVector.

Module BH := BitvectorHashmap.
Module PMV := PatternMatchVector.
Module BPMV := BlockPatternMatchVector.

(** ** result_cutoff (common.hpp) *)

(** [(result >= score_cutoff) ? result : 0] on [double]. *)
Definition result_cutoff (result score_cutoff : PrimFloat.float) : PrimFloat.float :=
  if PrimFloat.leb score_cutoff result then result else PrimFloat.zero.

(** ** Common prefix of two ranges (common.hpp) *)

(** A range [[first, last)] is the list of its elements and an iterator
    into it is the rest of the range from the iterator on; both element
    types are unsigned, so [*first1 == *first2] compares the values. *)
Fixpoint mismatch (r1 r2 : list Z) : list Z * list Z :=
  match r1, r2 with
  | x :: r1', y :: r2' => if x =? y then mismatch r1' r2' else (r1, r2)
  | _, _ => (r1, r2)
  end.

(** [std::distance(first, it)] for an iterator [it] into the range [r]. *)
Definition distance (r it : list Z) : Z :=
  Z.of_nat (length r) - Z.of_nat (length it).

(** [first += n]: an iterator moved outside [[first, last]] is undefined. *)
Definition advance (r : list Z) (n : Z) : outcome (list Z) :=
  if (0 <=? n) && (n <=? Z.of_nat (length r)) then Ok (drop (Z.to_nat n) r)
  else Undefined.

(** [remove_common_prefix(first1, last1, first2, last2)]: the value
    returned and the two iterators it moves. *)
Definition remove_common_prefix (r1 r2 : list Z) : outcome (Z * (list Z * list Z)) :=
  let prefix := distance r1 (mismatch r1 r2).1 in
  let* r1' := advance r1 prefix in
  let* r2' := advance r2 prefix in
  Ok (prefix, (r1', r2')).

(** ** PYTHON_VERSION (cpp_common.hpp) *)

(** [((major << 24) | (minor << 16) | (micro << 8))]; the macro is used
    in [#if], where the arithmetic is that of [intmax_t]. *)
Definition PYTHON_VERSION (major minor micro : Z) : Z :=
  Z.lor (Z.lor (Z.shiftl major 24) (Z.shiftl minor 16)) (Z.shiftl micro 8).

(** ** vector_slice (cpp_common.hpp) *)

(** A call either returns or throws. *)
Inductive thrown : Type :=
| invalid_argument (what : string)
| length_error.

Inductive completion (A : Type) : Type :=
| Returns (a : A)
| Throws (e : thrown).

Arguments Returns {A} a.
Arguments Throws {A} e.

(** [int] is 32 bits wide and [size_t] 64: an [int] result outside the
    type is undefined, a conversion to either type is modulo its size. *)
Definition fits_int (z : Z) : bool := (- 2 ^ 31 <=? z) && (z <? 2 ^ 31).

Definition int_op (z : Z) : outcome Z := if fits_int z then Ok z else Undefined.

Definition to_int (z : Z) : Z :=
  let r := z mod 2 ^ 32 in if r <? 2 ^ 31 then r else r - 2 ^ 32.

Definition to_size_t (z : Z) : Z := z mod 2 ^ 64.

(** [i / step] on [int]. *)
Definition int_quot (a b : Z) : outcome Z :=
  if b =? 0 then Undefined else int_op (Z.quot a b).

Section VectorSlice.

Context {T : Type}.

(** [for (int i = ...; i > stop; i += step) new_vec.push_back(vec[i]);] *)
Fixpoint slice_down (fuel : nat) (vec : list T) (i stop step : Z)
    (new_vec : list T) : outcome (list T) :=
  if i >? stop then
    match fuel with
    | O => Diverges
    | S fuel' =>
        let* x := at_index vec i in
        let* i' := int_op (i + step) in
        slice_down fuel' vec i' stop step (new_vec ++ [x])
    end
  else Ok new_vec.

(** [for (int i = ...; i < stop; i += step) new_vec.push_back(vec[i]);] *)
Fixpoint slice_up (fuel : nat) (vec : list T) (i stop step : Z)
    (new_vec : list T) : outcome (list T) :=
  if i <? stop then
    match fuel with
    | O => Diverges
    | S fuel' =>
        let* x := at_index vec i in
        let* i' := int_op (i + step) in
        slice_up fuel' vec i' stop step (new_vec ++ [x])
    end
  else Ok new_vec.

(** [start += vec.size()] when negative, [start = vec.size()] when
    beyond the size; the same statements are run on [stop]. *)
Definition clamp (size z : Z) : Z :=
  if z <? 0 then to_int (to_size_t (to_size_t z + size))
  else if to_size_t z >? size then to_int size
  else z.

(** Every pass of a loop reads [vec[i]] at a new index, so a loop still
    running after [vec.size() + 1] passes has left the vector. *)
Definition slice_budget (vec : list T) : nat := S (length vec).

(** [new_vec.reserve(count)] converts [count] to [size_t]: a negative
    [count] is above [max_size()] and throws; otherwise the contents of
    [new_vec] are as before. *)
Definition vector_slice (vec : list T) (start stop step : Z)
    : outcome (completion (list T)) :=
  let size := Z.of_nat (length vec) in
  if step =? 0 then Ok (Throws (invalid_argument "slice step cannot be zero"))
  else
    let start := clamp size start in
    let stop := clamp size stop in
    if start >? stop then
      let stop := Z.max stop (-1) in
      if negb (start =? stop) && (0 <=? start) && (step <? 0) then
        let* d := int_op (stop - start) in
        let* d1 := int_op (d + 1) in
        let* quo := int_quot d1 step in
        let* count := int_op (1 + quo) in
        if count <? 0 then Ok (Throws length_error)
        else
          let* i := int_op (start - 1) in
          let* new_vec := slice_down (slice_budget vec) vec i stop step [] in
          Ok (Returns new_vec)
      else Ok (Returns [])
    else if start <? stop then
      let start := Z.max start 0 in
      if negb (start =? stop) && (0 <=? stop) && (0 <? step) then
        let* d := int_op (stop - start) in
        let* d1 := int_op (d - 1) in
        let* quo := int_quot d1 step in
        let* count := int_op (1 + quo) in
        if count <? 0 then Ok (Throws length_error)
        else
          let* new_vec := slice_up (slice_budget vec) vec start stop step [] in
          Ok (Returns new_vec)
      else Ok (Returns [])
    else Ok (Returns []).

End VectorSlice.

(** ** Definitions used to state the properties *)

(** One pass of the loop body on the pair [(i, perturb)]. *)
Definition step (ip : Z * Z) : Z * Z :=
  (Z.rem (ip.1 * 5 + ip.2 + 1) 128, Z.shiftr ip.2 5).

Fixpoint steps (n : nat) (ip : Z * Z) : Z * Z :=
  match n with
  | O => ip
  | S n' => steps n' (step ip)
  end.

(** The slots the first [n] passes of the loop look at. *)
Fixpoint orbit (n : nat) (ip : Z * Z) : list Z :=
  match n with
  | O => []
  | S n' => (step ip).1 :: orbit n' (step ip)
  end.

(** The two facts about the sequence that are checked by evaluation:
    after [n] passes with a constant [perturb] the index is back at [i],
    and the first [n] passes from [(i, 0)] look at every slot. *)
Definition period_check (n : nat) (i : Z) : bool :=
  ((steps n (i, 0)).1 =? i) && ((steps n (i, 0)).2 =? 0) &&
  ((steps n (i, -1)).1 =? i) && ((steps n (i, -1)).2 =? -1).

Definition covers (l : list Z) : bool :=
  forallb (fun x => existsb (Z.eqb x) l) (map Z.of_nat (seq 0 128)).

Definition orbit_check (n : nat) (i : Z) : bool := covers (orbit n (i, 0)).

(** Keys on which the signed arithmetic of the probe is exact: [perturb]
    is not negative and [i * 5 + perturb + 1] cannot overflow. *)
Definition probe_safe (k : Z) : Prop := 0 <= k /\ k + 636 < 2 ^ 63.

Definition is_u64 (k : Z) : Prop := 0 <= k < 2 ^ 64.

(** Slots in use: a zero [value] marks an empty slot. *)
Definition used (e : MapElem) : bool := negb (value e =? 0).

Definition occupied (m : list MapElem) : nat := length (filter used m).

(** ** Abstract view: a map from character codes to masks *)

(** [upd A k mask] is [A] after [A[k] |= mask]. *)
Definition upd (A : Z -> Z) (k mask : Z) : Z -> Z :=
  fun q => if q =? k then Z.lor (A q) mask else A q.

(** The table [m] represents [A]: it has 128 slots, every slot in use is
    the one [lookup] returns for its key and holds that key's mask, and
    every key with a non-zero mask has a slot. *)
Record table_models (m : list MapElem) (A : Z -> Z) : Prop := {
  tm_length : length m = 128%nat;
  tm_slot : forall (j : nat) (e : MapElem),
      m !! j = Some e -> value e <> 0 ->
      BH.lookup m (key e) = Ok (Z.of_nat j) /\ value e = A (key e);
  tm_key : forall q, A q <> 0 ->
      exists (j : nat) (e : MapElem), m !! j = Some e /\ key e = q /\ value e <> 0
}.

(** The masks of the characters outside [[0, 255]]. *)
Definition wide_part (A : Z -> Z) : Z -> Z :=
  fun q => if is_ascii q then 0 else A q.

Record pmv_models (s : PMV.t) (A : Z -> Z) : Prop := {
  pm_table : table_models (PMV.m_map s) (wide_part A);
  pm_length : length (PMV.m_extendedAscii s) = 256%nat;
  pm_ascii : forall q, is_ascii q = true ->
      PMV.m_extendedAscii s !! Z.to_nat q = Some (A q)
}.

(** The statement [if (key >= 0 && key <= 255) m_extendedAscii[key] |= mask;
    else m_map.insert_mask(key, mask);] that both [insert] overloads of
    [PatternMatchVector] run ([insert_loop_cons], [insert_or_mask]). *)
Definition or_mask (s : PMV.t) (k mask : Z) : outcome PMV.t :=
  if is_ascii k then
    let* v := at_index (PMV.m_extendedAscii s) k in
    Ok (PMV.mk (PMV.m_map s) (<[Z.to_nat k := Z.lor v mask]> (PMV.m_extendedAscii s)))
  else
    let* m' := BH.insert_mask (PMV.m_map s) k mask in
    Ok (PMV.mk m' (PMV.m_extendedAscii s)).

(** A run of such statements, and a run of [insert(key, pos)] calls. *)
Fixpoint apply_masks (ops : list (Z * Z)) (s : PMV.t) : outcome PMV.t :=
  match ops with
  | [] => Ok s
  | op :: rest =>
      let* s' := or_mask s op.1 op.2 in
      apply_masks rest s'
  end.

Fixpoint insert_each (ops : list (Z * Z)) (s : PMV.t) : outcome PMV.t :=
  match ops with
  | [] => Ok s
  | op :: rest =>
      let* s' := PMV.insert s op.1 op.2 in
      insert_each rest s'
  end.

Definition upd_all (ops : list (Z * Z)) (A : Z -> Z) : Z -> Z :=
  fold_left (fun B op => upd B op.1 op.2) ops A.

(** The mask a run of [(key, mask)] statements is expected to leave for
    [q]: the OR of the masks given with [q]. *)
Definition mask_of (ops : list (Z * Z)) (q : Z) : Z :=
  upd_all ops (fun _ => 0) q.

Definition wide (k : Z) : bool := negb (is_ascii k).

(** The number of distinct characters of [ks] outside [[0, 255]]. *)
Definition distinct_wide (ks : list Z) : nat :=
  length (remove_dups (filter wide ks)).

(** The masks the loop of [insert(first, last)] uses: [mask], then
    [mask <<= 1] after every element. *)
Fixpoint masks_from (mask : Z) (n : nat) : list Z :=
  match n with
  | O => []
  | S n' => mask :: masks_from (shl_u64 mask) n'
  end.

(** The statements run by [insert(first, last)]. *)
Definition range_ops (first : list Z) : list (Z * Z) :=
  zip first (masks_from 1 (length first)).

(** The calls [insert(first[i], i)], one per position. *)
Definition position_ops (first : list Z) : list (Z * Z) :=
  zip first (Z.of_nat <$> seq 0 (length first)).

(** The two ways to put characters into a vector: [insert(first, last)]
    and [insert(key, pos)]; a vector is built by a list of them. *)
Inductive action : Type :=
| InsertRange (first : list Z)
| Insert (k pos : Z).

Definition run_action (a : action) (s : PMV.t) : outcome PMV.t :=
  match a with
  | InsertRange first => PMV.insert_range first s
  | Insert k pos => PMV.insert s k pos
  end.

Fixpoint run (l : list action) (s : PMV.t) : outcome PMV.t :=
  match l with
  | [] => Ok s
  | a :: rest => let* s' := run_action a s in run rest s'
  end.

(** The characters an action inserts. *)
Definition action_keys (a : action) : list Z :=
  match a with
  | InsertRange first => first
  | Insert k _ => [k]
  end.

Fixpoint keys_of (l : list action) : list Z :=
  match l with
  | [] => []
  | a :: rest => action_keys a ++ keys_of rest
  end.

(** [insert(key, pos)] requires a position in [[0, 64)]. *)
Definition valid_action (a : action) : Prop :=
  match a with
  | InsertRange _ => True
  | Insert _ pos => 0 <= pos < 64
  end.

(** The [(key, mask)] statements an action runs. *)
Definition action_ops (a : action) : list (Z * Z) :=
  match a with
  | InsertRange first => range_ops first
  | Insert k pos => [(k, 2 ^ pos)]
  end.

Fixpoint ops_of (l : list action) : list (Z * Z) :=
  match l with
  | [] => []
  | a :: rest => action_ops a ++ ops_of rest
  end.

(** ** Abstract view of the blocked vector *)

(** A call [insert(block, key, pos)]. *)
Record call : Type := mkCall { c_block : Z; c_key : Z; c_pos : Z }.

(** The calls the loop of [insert(first, last)] makes from position [i]. *)
Fixpoint block_calls (first : list Z) (i : Z) : list call :=
  match first with
  | [] => []
  | k :: rest => mkCall (Z.quot i 64) k (Z.rem i 64) :: block_calls rest (i + 1)
  end.

Fixpoint insert_calls (calls : list call) (s : BPMV.t) : outcome BPMV.t :=
  match calls with
  | [] => Ok s
  | c :: rest =>
      let* s' := BPMV.insert s (c_block c) (c_key c) (c_pos c) in
      insert_calls rest s'
  end.

(** [updb A b k mask] is [A] after [A[b][k] |= mask]. *)
Definition updb (A : Z -> Z -> Z) (b k mask : Z) : Z -> Z -> Z :=
  fun b' => if b' =? b then upd (A b') k mask else A b'.

Definition updb_all (calls : list call) (A : Z -> Z -> Z) : Z -> Z -> Z :=
  fold_left (fun B c => updb B (c_block c) (c_key c) (2 ^ c_pos c)) calls A.

(** The blocked vector [s] has [n] blocks and represents [A]: block [b]
    has its own hashmap for the wide characters and column [b] of the
    direct table [m_extendedAscii[key * n + b]]. *)
Record bpmv_models (s : BPMV.t) (n : nat) (A : Z -> Z -> Z) : Prop := {
  bm_count : BPMV.m_block_count s = Z.of_nat n;
  bm_maps : forall b : nat, (b < n)%nat ->
      exists m, BPMV.m_map s !! b = Some m /\
                table_models m (wide_part (A (Z.of_nat b)));
  bm_length : length (BPMV.m_extendedAscii s) = (256 * n)%nat;
  bm_ascii : forall (b : nat) (q : Z), (b < n)%nat -> is_ascii q = true ->
      BPMV.m_extendedAscii s !! Z.to_nat (q * Z.of_nat n + Z.of_nat b) =
      Some (A (Z.of_nat b) q)
}.

(** The bulk insertion as the specification words it: the block count is
    the ceiling of [length / 64], the maps and the [256 * block_count]
    table start zeroed, and position [i] is inserted in block [i / 64] at
    bit [i mod 64]. *)
Definition spec_block_count (len : nat) : nat := Nat.div (len + 63) 64.

Definition spec_calls (first : list Z) : list call :=
  imap (fun i k => mkCall (Z.of_nat (i / 64)) k (Z.of_nat (i mod 64))) first.

Definition spec_insert_range (first : list Z) : outcome BPMV.t :=
  let n := spec_block_count (length first) in
  insert_calls (spec_calls first)
    (BPMV.mk (replicate n BH.new) (replicate (256 * n) 0) (Z.of_nat n)).

(** A 130-character pattern: the letters A .. Z, five times over. *)
Definition alphabet5 : list Z := map (fun i => 65 + Z.of_nat (i mod 26)) (seq 0 130).

(** A one-block vector, as built from the pattern "A". *)
Definition one_block : BPMV.t := BPMV.mk [BH.new] (<[65%nat := 1]> (replicate 256 0)) 1.

(** ** Concrete inputs *)

(** The smallest [uint64_t] character whose conversion to [int64_t] is
    negative, and U+1F600. *)
Definition high_key : Z := 2 ^ 63.
Definition emoji : Z := 128512.

(** The 128 characters 256 .. 383, each inserted at position 0. *)
Definition full_run : list action := map (fun n => Insert (Z.of_nat n) 0) (seq 256 128).

(** The 127 characters 256 .. 382, each inserted at position 0. *)
Definition nearly_full_run : list action :=
  map (fun n => Insert (Z.of_nat n) 0) (seq 256 127).

(** A table with three slots in use, and a [uint64_t] key whose probe
    sequence is 82, 109, 32, 32, 32, ... *)
Definition three_slots : list MapElem :=
  <[32%nat := mkElem 288 1]>
    (<[109%nat := mkElem 365 1]> (<[82%nat := mkElem 338 1]> BH.new)).
Definition stuck_key : Z := 2 ^ 64 - 46.

(** 64 times the character 256, then [high_key]. *)
Definition over_long : list Z := replicate 64 256 ++ [high_key].

(** ** Runs on the hashmap *)

(** A run of [insert(key, pos)] calls on a [BitvectorHashmap]. *)
Fixpoint bh_insert_each (ops : list (Z * Z)) (m : list MapElem)
    : outcome (list MapElem) :=
  match ops with
  | [] => Ok m
  | op :: rest =>
      let* m' := BH.insert m op.1 op.2 in
      bh_insert_each rest m'
  end.

(** The [(key, mask)] pairs of a list of [(key, pos)] pairs. *)
Definition bit_ops (ops : list (Z * Z)) : list (Z * Z) :=
  map (fun op => (op.1, 2 ^ op.2)) ops.

(** ** Home slots *)

(** Every slot in use is the home slot [key % 128] of its key, and the
    key is one of [K]. *)
Definition home_table (m : list MapElem) (K : list Z) : Prop :=
  length m = 128%nat /\
  forall (j : nat) (e : MapElem), m !! j = Some e -> value e <> 0 ->
    key e mod 128 = Z.of_nat j /\ key e ∈ K.

(** No two different wide characters of [ks] share a home slot. *)
Definition home_slots_apart (ks : list Z) : Prop :=
  forall k k', k ∈ ks -> k' ∈ ks -> wide k = true -> wide k' = true ->
               k mod 128 = k' mod 128 -> k = k'.

(** A vector whose hashmap is a home table of [K] and whose direct table
    has its 256 cells. *)

Definition home_vector (s : PMV.t) (K : list Z) : Prop :=
  home_table (PMV.m_map s) K /\ length (PMV.m_extendedAscii s) = 256%nat.

(** [q] shares its home slot with no other wide character of [K]. *)
Definition alone_at_home (K : list Z) (q : Z) : Prop :=
  forall k, k ∈ K -> wide k = true -> k mod 128 = q mod 128 -> k = q.

(** ** Indices of a slice *)

(** The clamped index of [start] or [stop], when no conversion wraps. *)
Definition slice_index (size z : Z) : Z :=
  if z <? 0 then z + size else Z.min z size.

(** * Properties *)

(** ** Container access *)

Lemma at_index_Ok {A : Type} (v : list A) (i : Z) (a : A) :
  at_index v i = Ok a <-> 0 <= i /\ v !! Z.to_nat i = Some a.
Proof.
  unfold at_index. destruct (Z.ltb_spec i 0).
  - split; [discriminate | lia].
  - destruct (v !! Z.to_nat i) eqn:E; split; intros H'.
    + inversion H'; subst. auto.
    + destruct H' as [_ H']. congruence.
    + discriminate.
    + destruct H' as [_ H']. discriminate.
Qed.

Lemma at_index_nat {A : Type} (v : list A) (j : nat) (a : A) :
  v !! j = Some a -> at_index v (Z.of_nat j) = Ok a.
Proof.
  intros H. apply at_index_Ok. rewrite Nat2Z.id. split; [lia | exact H].
Qed.

Lemma at_index_total {A : Type} (v : list A) (i : Z) :
  0 <= i < Z.of_nat (length v) -> exists a, at_index v i = Ok a.
Proof.
  intros H. destruct (lookup_lt_is_Some_2 v (Z.to_nat i)) as [a Ha]; [lia |].
  exists a. apply at_index_Ok. split; [lia | exact Ha].
Qed.

Lemma at_index_cases {A : Type} (v : list A) (i : Z) :
  (exists a, at_index v i = Ok a) \/ at_index v i = Undefined.
Proof.
  unfold at_index. destruct (i <? 0); [right; reflexivity |].
  destruct (v !! Z.to_nat i); [left; eauto | right; reflexivity].
Qed.

(** ** The probe loop *)

Section Probe.

Variable k : Z.

Lemma probe_S (n : nat) (m : list MapElem) (i p : Z) :
  BH.probe (S n) m k i p =
  if fits_int64 (i * 5 + p + 1) then
    let* e := at_index m (step (i, p)).1 in
    if BH.stops e k then Ok (step (i, p)).1
    else BH.probe n m k (step (i, p)).1 (step (i, p)).2
  else Undefined.
Proof. reflexivity. Qed.

(** A returned slot is inside the array and satisfies the exit test. *)
Lemma probe_Ok_inv (n : nat) (m : list MapElem) (i p j : Z) :
  BH.probe n m k i p = Ok j ->
  0 <= j < 128 /\ exists e, m !! Z.to_nat j = Some e /\ BH.stops e k = true.
Proof.
  revert i p. induction n as [|n IH]; intros i p; [discriminate |].
  rewrite probe_S. destruct (fits_int64 _); [| discriminate].
  cbn [step fst snd].
  destruct (at_index_cases m (Z.rem (i * 5 + p + 1) 128)) as [[e He] | He];
    rewrite He; cbn [bind]; [| discriminate].
  destruct (BH.stops e k) eqn:Hs.
  - intros [= <-]. apply at_index_Ok in He as [H0 He]. split; [| eauto].
    split; [exact H0 |].
    pose proof (Z.rem_bound_abs (i * 5 + p + 1) 128). lia.
  - apply IH.
Qed.

(** The loop reads the table only through the exit test: two tables on
    which the test agrees slot by slot are probed alike. *)
Lemma probe_ext (n : nat) (m m' : list MapElem) (i p : Z) :
  (forall j : nat, (fun e => BH.stops e k) <$> (m !! j) =
                   (fun e => BH.stops e k) <$> (m' !! j)) ->
  BH.probe n m k i p = BH.probe n m' k i p.
Proof.
  intros Hext. revert i p. induction n as [|n IH]; intros i p; [reflexivity |].
  rewrite !probe_S. destruct (fits_int64 _); [| reflexivity].
  set (i' := (step (i, p)).1). unfold at_index.
  destruct (i' <? 0); [reflexivity |].
  specialize (Hext (Z.to_nat i')).
  destruct (m !! Z.to_nat i') as [e|], (m' !! Z.to_nat i') as [e'|];
    cbn in Hext; try discriminate; cbn [bind]; [| reflexivity].
  injection Hext as ->. destruct (BH.stops e' k); [reflexivity | apply IH].
Qed.

(** Overwriting a slot other than the returned one, by an element that
    does not newly satisfy the exit test, leaves the result alone. *)
Lemma probe_insert_other (n : nat) (m : list MapElem) (i p j : Z)
      (x : nat) (e' : MapElem) :
  BH.probe n m k i p = Ok j ->
  j <> Z.of_nat x ->
  (forall e, m !! x = Some e -> BH.stops e k = false -> BH.stops e' k = false) ->
  BH.probe n (<[x := e']> m) k i p = Ok j.
Proof.
  intros Hp Hne Hx. revert i p Hp. induction n as [|n IH]; intros i p; [discriminate |].
  rewrite !probe_S. destruct (fits_int64 _); [| discriminate].
  set (i' := (step (i, p)).1).
  destruct (at_index_cases m i') as [[e He] | He]; rewrite He; cbn [bind];
    [| discriminate].
  apply at_index_Ok in He as [H0 He].
  destruct (decide (Z.to_nat i' = x)) as [<- | Hix].
  - assert (Hlt : (Z.to_nat i' < length m)%nat) by (eapply lookup_lt_Some; eauto).
    assert (He' : at_index (<[Z.to_nat i' := e']> m) i' = Ok e').
    { apply at_index_Ok. split; [exact H0 |]. apply list_lookup_insert_eq, Hlt. }
    rewrite He'. cbn [bind].
    destruct (BH.stops e k) eqn:Hs.
    + intros [= <-]. exfalso. apply Hne. lia.
    + rewrite (Hx e He Hs). apply IH.
  - assert (He' : at_index (<[x := e']> m) i' = Ok e).
    { apply at_index_Ok. split; [exact H0 |].
      rewrite list_lookup_insert_ne by congruence. exact He. }
    rewrite He'. cbn [bind]. destruct (BH.stops e k); [auto | apply IH].
Qed.

(** Running [a + b] passes is running [a] and, if the loop has not
    exited, [b] more from the state reached. *)
Lemma probe_split (a b : nat) (m : list MapElem) (i p : Z) :
  BH.probe (a + b) m k i p =
  match BH.probe a m k i p with
  | Diverges => BH.probe b m k (steps a (i, p)).1 (steps a (i, p)).2
  | r => r
  end.
Proof.
  revert i p. induction a as [|a IH]; intros i p; [reflexivity |].
  cbn [Nat.add steps]. rewrite !probe_S.
  destruct (fits_int64 _); [| reflexivity].
  destruct (at_index_cases m (step (i, p)).1) as [[e He] | He]; rewrite He;
    cbn [bind]; [| reflexivity].
  destruct (BH.stops e k); [reflexivity |].
  rewrite IH. destruct (step (i, p)) as [i' p']. reflexivity.
Qed.

End Probe.

(** ** The probe sequence *)

Lemma steps_perturb (n : nat) (i p : Z) :
  (steps n (i, p)).2 = Z.shiftr p (5 * Z.of_nat n).
Proof.
  revert i p. induction n as [|n IH]; intros i p.
  - cbn. rewrite Z.shiftr_0_r. reflexivity.
  - cbn [steps]. unfold step at 1. cbn [fst snd]. rewrite IH.
    rewrite Z.shiftr_shiftr by lia. f_equal. lia.
Qed.

Lemma shiftr_65_int64 (p : Z) :
  - 2 ^ 63 <= p < 2 ^ 63 -> Z.shiftr p 65 = 0 \/ Z.shiftr p 65 = -1.
Proof.
  intros H. rewrite Z.shiftr_div_pow2 by lia.
  assert (-1 <= p / 2 ^ 65 < 1); [| lia].
  split.
  - apply Z.div_le_lower_bound; lia.
  - apply Z.div_lt_upper_bound; lia.
Qed.

Lemma to_int64_range (k : Z) : is_u64 k -> - 2 ^ 63 <= to_int64 k < 2 ^ 63.
Proof. unfold is_u64, to_int64. intros H. destruct (Z.ltb_spec k (2 ^ 63)); lia. Qed.

Lemma to_int64_safe (k : Z) : probe_safe k -> to_int64 k = k.
Proof. unfold probe_safe, to_int64. intros H. destruct (Z.ltb_spec k (2 ^ 63)); lia. Qed.

Lemma slots_checked (P : Z -> bool) :
  forallb P (map Z.of_nat (seq 0 128)) = true ->
  forall i, 0 <= i < 128 -> P i = true.
Proof.
  intros H i Hi. rewrite forallb_forall in H. apply H.
  apply in_map_iff. exists (Z.to_nat i). split; [lia |].
  apply in_seq. lia.
Qed.

(** Once [perturb] is constant (0, or -1 for a negative start) the slot
    index is back where it was after 128 passes. *)
Lemma period_check_spec (n : nat) (i p : Z) :
  period_check n i = true -> p = 0 \/ p = -1 -> steps n (i, p) = (i, p).
Proof.
  unfold period_check. intros H Hp. revert H.
  destruct Hp as [-> | ->];
    generalize (steps n (i, 0)), (steps n (i, -1));
    intros [a b] [c d]; cbn [fst snd];
    destruct (Z.eqb_spec a i), (Z.eqb_spec b 0), (Z.eqb_spec c i),
             (Z.eqb_spec d (-1)); cbn [andb]; try discriminate; congruence.
Qed.

Lemma period_check_all :
  forallb (period_check 128) (map Z.of_nat (seq 0 128)) = true.
Proof. vm_compute. reflexivity. Qed.

Lemma steps_period (i p : Z) :
  0 <= i < 128 -> p = 0 \/ p = -1 -> steps 128 (i, p) = (i, p).
Proof.
  intros Hi Hp.
  exact (period_check_spec 128 i p
           (slots_checked (period_check 128) period_check_all i Hi) Hp).
Qed.

(** With [perturb = 0] the index runs through all 128 slots. *)
Lemma orbit_check_spec (n : nat) (i x : Z) :
  orbit_check n i = true -> 0 <= x < 128 -> In x (orbit n (i, 0)).
Proof.
  unfold orbit_check, covers. generalize (orbit n (i, 0)). intros l H Hx.
  pose proof (slots_checked (fun x => existsb (Z.eqb x) l) H x Hx) as H'.
  cbv beta in H'. apply existsb_exists in H' as [y [Hy Hxy]].
  apply Z.eqb_eq in Hxy. subst y. exact Hy.
Qed.

Lemma orbit_check_all :
  forallb (orbit_check 128) (map Z.of_nat (seq 0 128)) = true.
Proof. vm_compute. reflexivity. Qed.

Lemma orbit_full (i x : Z) :
  0 <= i < 128 -> 0 <= x < 128 -> In x (orbit 128 (i, 0)).
Proof.
  intros Hi Hx.
  exact (orbit_check_spec 128 i x
           (slots_checked (orbit_check 128) orbit_check_all i Hi) Hx).
Qed.

(** ** A loop that has not exited within the budget never exits *)

Section Budget.

Variables (k : Z) (m : list MapElem).

Lemma probe_diverges_orbit (n : nat) (i p x : Z) :
  BH.probe n m k i p = Diverges ->
  In x (orbit n (i, p)) ->
  exists e, m !! Z.to_nat x = Some e /\ BH.stops e k = false.
Proof.
  revert i p. induction n as [|n IH]; intros i p Hd Hx; [destruct Hx |].
  rewrite probe_S in Hd. destruct (fits_int64 _); [| discriminate].
  destruct (at_index_cases m (step (i, p)).1) as [[e He] | He];
    rewrite He in Hd; cbn [bind] in Hd; [| discriminate].
  destruct (BH.stops e k) eqn:Hs; [discriminate |].
  cbn [orbit] in Hx. destruct Hx as [<- | Hx].
  - apply at_index_Ok in He as [_ He]. eauto.
  - apply (IH (step (i, p)).1 (step (i, p)).2); [exact Hd |].
    destruct (step (i, p)); exact Hx.
Qed.

Lemma probe_diverges_index (n : nat) (i p : Z) :
  BH.probe n m k i p = Diverges ->
  0 <= i < 128 -> 0 <= (steps n (i, p)).1 < 128.
Proof.
  revert i p. induction n as [|n IH]; intros i p Hd Hi; [exact Hi |].
  rewrite probe_S in Hd. destruct (fits_int64 _); [| discriminate].
  destruct (at_index_cases m (step (i, p)).1) as [[e He] | He];
    rewrite He in Hd; cbn [bind] in Hd; [| discriminate].
  destruct (BH.stops e k); [discriminate |].
  cbn [steps]. destruct (step (i, p)) as [i' p'] eqn:Est.
  apply IH; [exact Hd |]. apply at_index_Ok in He as [H0 _].
  cbn [fst] in *. split; [exact H0 |].
  injection Est as <- _.
  pose proof (Z.rem_bound_abs (i * 5 + p + 1) 128). cbn [fst snd] in *. lia.
Qed.

Lemma probe_periodic (N : nat) (i p : Z) :
  (0 < N)%nat ->
  steps N (i, p) = (i, p) ->
  BH.probe N m k i p = Diverges ->
  forall n, BH.probe n m k i p = Diverges.
Proof.
  intros HN Hper Hd n. induction (lt_wf n) as [n _ IH].
  destruct (le_lt_dec N n) as [Hle | Hlt].
  - replace n with (N + (n - N))%nat by lia.
    rewrite probe_split, Hd, Hper. apply IH. lia.
  - replace N with (n + (N - n))%nat in Hd by lia.
    rewrite probe_split in Hd.
    destruct (BH.probe n m k i p); congruence.
Qed.

(** On a probe-safe key nothing overflows and every index is in range. *)
Lemma probe_safe_defined (n : nat) (i p : Z) :
  length m = 128%nat -> 0 <= i < 128 -> 0 <= p -> p + 636 < 2 ^ 63 ->
  BH.probe n m k i p = Diverges \/ exists j, BH.probe n m k i p = Ok j.
Proof.
  intros Hlen. revert i p. induction n as [|n IH]; intros i p Hi Hp0 Hp;
    [left; reflexivity |].
  rewrite probe_S.
  assert (Hfit : fits_int64 (i * 5 + p + 1) = true).
  { unfold fits_int64. apply andb_true_iff. split; [apply Z.leb_le | apply Z.ltb_lt]; lia. }
  rewrite Hfit. cbn [step fst snd].
  pose proof (Z.rem_bound_pos (i * 5 + p + 1) 128 ltac:(lia) ltac:(lia)) as Hr.
  destruct (at_index_total m (Z.rem (i * 5 + p + 1) 128)) as [e He]; [lia |].
  rewrite He. cbn [bind]. destruct (BH.stops e k); [right; eauto |].
  apply IH; [exact Hr | apply Z.shiftr_nonneg; exact Hp0 |].
  rewrite Z.shiftr_div_pow2 by lia.
  assert (p / 2 ^ 5 <= p) by (apply Z.div_le_upper_bound; lia). lia.
Qed.

(** The two results below are first shown for any split [a + N] of the
    budget: [a] passes bring [perturb] to a constant, after which the
    index has period [N]. *)
Section Split.

Variables a N : nat.
Hypothesis HN : (0 < N)%nat.
Hypothesis Ha : 65 <= 5 * Z.of_nat a.
Hypothesis Hperiod : forall i p,
  0 <= i < 128 -> p = 0 \/ p = -1 -> steps N (i, p) = (i, p).
Hypothesis Hfull : forall i x,
  0 <= i < 128 -> 0 <= x < 128 -> In x (orbit N (i, 0)).

Lemma perturb_settles (i p : Z) :
  - 2 ^ 63 <= p < 2 ^ 63 ->
  (steps a (i, p)).2 = 0 \/ (steps a (i, p)).2 = -1.
Proof.
  intros Hp. rewrite steps_perturb.
  replace (5 * Z.of_nat a) with (65 + (5 * Z.of_nat a - 65)) by lia.
  rewrite <- Z.shiftr_shiftr by lia.
  destruct (shiftr_65_int64 p Hp) as [-> | ->].
  - left. apply Z.shiftr_0_l.
  - right. rewrite Z.shiftr_div_pow2 by lia.
    symmetry. apply (Z.div_unique_pos _ _ _ (2 ^ (5 * Z.of_nat a - 65) - 1)).
    + assert (0 < 2 ^ (5 * Z.of_nat a - 65)) by (apply Z.pow_pos_nonneg; lia). lia.
    + lia.
Qed.

Lemma perturb_settles_nonneg (i p : Z) :
  0 <= p < 2 ^ 63 -> (steps a (i, p)).2 = 0.
Proof.
  intros Hp. rewrite steps_perturb, Z.shiftr_div_pow2 by lia.
  apply Z.div_small. split; [lia |].
  assert (2 ^ 65 <= 2 ^ (5 * Z.of_nat a)) by (apply Z.pow_le_mono_r; lia). lia.
Qed.

Lemma probe_budget_exact (n : nat) (i p : Z) :
  0 <= i < 128 -> - 2 ^ 63 <= p < 2 ^ 63 -> (a + N <= n)%nat ->
  BH.probe n m k i p = BH.probe (a + N) m k i p.
Proof.
  intros Hi Hp Hn.
  replace n with (a + (N + (n - (a + N))))%nat by lia.
  generalize (n - (a + N))%nat. intros c.
  rewrite (probe_split k a (N + c)), (probe_split k a N).
  destruct (BH.probe a m k i p) eqn:Ea; try reflexivity.
  pose proof (probe_diverges_index a i p Ea Hi) as Hi'.
  pose proof (perturb_settles i p Hp) as Hp'.
  revert Hi' Hp'. generalize (steps a (i, p)).
  intros [i' p'] Hi' Hp'. cbn [fst snd] in *.
  rewrite probe_split.
  destruct (BH.probe N m k i' p') eqn:EN; try reflexivity.
  rewrite (Hperiod i' p' Hi' Hp'). cbn [fst snd].
  apply (probe_periodic N); [exact HN | apply Hperiod; assumption | exact EN].
Qed.

Lemma probe_safe_exits (i : Z) (x : nat) (e : MapElem) :
  length m = 128%nat -> probe_safe k -> 0 <= i < 128 ->
  m !! x = Some e -> BH.stops e k = true ->
  exists j, BH.probe (a + N) m k i k = Ok j.
Proof.
  intros Hlen [Hk0 Hk1] Hi Hx Hs.
  destruct (probe_safe_defined (a + N) i k Hlen Hi Hk0 Hk1)
    as [Hd | Hok]; [exfalso | exact Hok].
  rewrite probe_split in Hd.
  destruct (BH.probe a m k i k) eqn:Ea; try discriminate.
  pose proof (probe_diverges_index a _ _ Ea Hi) as Hi'.
  pose proof (perturb_settles_nonneg i k ltac:(lia)) as Hp'.
  revert Hd Hi' Hp'. generalize (steps a (i, k)).
  intros [i' p'] Hd Hi' Hp'. cbn [fst snd] in *. subst p'.
  assert (Hlt : (x < 128)%nat) by (rewrite <- Hlen; eapply lookup_lt_Some; eauto).
  destruct (probe_diverges_orbit N i' 0 (Z.of_nat x) Hd) as [e' [He' Hs']].
  { apply Hfull; lia. }
  rewrite Nat2Z.id in He'. congruence.
Qed.

End Split.

Lemma budget_split : BH.probe_budget = (13 + 128)%nat.
Proof. reflexivity. Qed.

(** [lookup] is [lookup_fuel] at any larger bound: the outcome
    [Diverges] of [lookup] stands for a loop that runs forever. *)
Lemma lookup_fuel_exact (n : nat) :
  is_u64 k -> (BH.probe_budget <= n)%nat ->
  BH.lookup_fuel n m k = BH.lookup m k.
Proof.
  intros Hk Hn. unfold BH.lookup, BH.lookup_fuel.
  destruct (at_index m (k mod 128)) as [e| | |]; cbn [bind]; try reflexivity.
  destruct (BH.stops e k); [reflexivity |].
  revert Hn. rewrite budget_split. intros Hn.
  apply (probe_budget_exact 13 128).
  - lia.
  - lia.
  - exact steps_period.
  - apply Z.mod_pos_bound. lia.
  - apply to_int64_range, Hk.
  - exact Hn.
Qed.

Lemma lookup_fuel_Ok_inv (n : nat) (j : Z) :
  BH.lookup_fuel n m k = Ok j ->
  0 <= j < 128 /\ exists e, m !! Z.to_nat j = Some e /\ BH.stops e k = true.
Proof.
  unfold BH.lookup_fuel.
  destruct (at_index_cases m (k mod 128)) as [[e He] | He]; rewrite He;
    cbn [bind]; [| discriminate].
  destruct (BH.stops e k) eqn:Hs; [| apply probe_Ok_inv].
  intros [= <-]. split; [apply Z.mod_pos_bound; lia |].
  apply at_index_Ok in He as [_ He]. eauto.
Qed.

Lemma lookup_Ok_inv (j : Z) :
  BH.lookup m k = Ok j ->
  0 <= j < 128 /\ exists e, m !! Z.to_nat j = Some e /\ BH.stops e k = true.
Proof. apply lookup_fuel_Ok_inv. Qed.

(** Termination: on a probe-safe key the loop exits as soon as some slot
    of the table is empty or holds the key. *)
Lemma lookup_safe_terminates (x : nat) (e : MapElem) :
  length m = 128%nat -> probe_safe k ->
  m !! x = Some e -> BH.stops e k = true ->
  exists j, BH.lookup m k = Ok j.
Proof.
  intros Hlen Hk Hx Hs. unfold BH.lookup, BH.lookup_fuel.
  pose proof (Z.mod_pos_bound k 128 ltac:(lia)) as Hi0.
  destruct (at_index_total m (k mod 128)) as [e0 He0]; [lia |].
  rewrite He0. cbn [bind]. destruct (BH.stops e0 k); [eauto |].
  rewrite (to_int64_safe k Hk), budget_split.
  apply (probe_safe_exits 13 128) with (x := x) (e := e);
    try assumption; try lia; exact orbit_full.
Qed.

End Budget.

Lemma lookup_fuel_ext (n : nat) (k : Z) (m m' : list MapElem) :
  (forall j : nat, (fun e => BH.stops e k) <$> (m !! j) =
                   (fun e => BH.stops e k) <$> (m' !! j)) ->
  BH.lookup_fuel n m k = BH.lookup_fuel n m' k.
Proof.
  intros Hext. unfold BH.lookup_fuel, at_index.
  destruct (k mod 128 <? 0); [reflexivity |].
  pose proof (Hext (Z.to_nat (k mod 128))) as H0.
  destruct (m !! Z.to_nat (k mod 128)) as [e|], (m' !! Z.to_nat (k mod 128)) as [e'|];
    cbn in H0; try discriminate; cbn [bind]; [| reflexivity].
  injection H0 as ->. destruct (BH.stops e' k); [reflexivity |].
  apply probe_ext, Hext.
Qed.

Lemma lookup_ext (k : Z) (m m' : list MapElem) :
  (forall j : nat, (fun e => BH.stops e k) <$> (m !! j) =
                   (fun e => BH.stops e k) <$> (m' !! j)) ->
  BH.lookup m k = BH.lookup m' k.
Proof. apply lookup_fuel_ext. Qed.

Lemma lookup_fuel_insert_other (n : nat) (k : Z) (m : list MapElem) (j : Z)
      (x : nat) (e' : MapElem) :
  BH.lookup_fuel n m k = Ok j ->
  j <> Z.of_nat x ->
  (forall e, m !! x = Some e -> BH.stops e k = false -> BH.stops e' k = false) ->
  BH.lookup_fuel n (<[x := e']> m) k = Ok j.
Proof.
  unfold BH.lookup_fuel. intros Hl Hne Hx.
  destruct (at_index_cases m (k mod 128)) as [[e He] | He]; rewrite He in Hl;
    cbn [bind] in Hl; [| discriminate].
  apply at_index_Ok in He as [H0 He].
  destruct (decide (Z.to_nat (k mod 128) = x)) as [<- | Hix].
  - assert (Hlt : (Z.to_nat (k mod 128) < length m)%nat) by (eapply lookup_lt_Some; eauto).
    assert (He' : at_index (<[Z.to_nat (k mod 128) := e']> m) (k mod 128) = Ok e').
    { apply at_index_Ok. split; [exact H0 |]. apply list_lookup_insert_eq, Hlt. }
    rewrite He'. cbn [bind]. destruct (BH.stops e k) eqn:Hs.
    + injection Hl as <-. exfalso. apply Hne. lia.
    + rewrite (Hx e He Hs). apply probe_insert_other; assumption.
  - assert (He' : at_index (<[x := e']> m) (k mod 128) = Ok e).
    { apply at_index_Ok. split; [exact H0 |].
      rewrite list_lookup_insert_ne by congruence. exact He. }
    rewrite He'. cbn [bind]. destruct (BH.stops e k); [exact Hl |].
    apply probe_insert_other; assumption.
Qed.

Lemma lookup_insert_other (k : Z) (m : list MapElem) (j : Z) (x : nat) (e' : MapElem) :
  BH.lookup m k = Ok j ->
  j <> Z.of_nat x ->
  (forall e, m !! x = Some e -> BH.stops e k = false -> BH.stops e' k = false) ->
  BH.lookup (<[x := e']> m) k = Ok j.
Proof. apply lookup_fuel_insert_other. Qed.

(** ** The hashmap represents a map from keys to masks *)

Lemma stops_true (e : MapElem) (k : Z) :
  BH.stops e k = true <-> value e = 0 \/ key e = k.
Proof. unfold BH.stops. rewrite orb_true_iff, !Z.eqb_eq. reflexivity. Qed.

Lemma stops_false (e : MapElem) (k : Z) :
  BH.stops e k = false <-> value e <> 0 /\ key e <> k.
Proof. unfold BH.stops. rewrite orb_false_iff, !Z.eqb_neq. reflexivity. Qed.

Lemma table_models_ext (m : list MapElem) (A B : Z -> Z) :
  (forall q, A q = B q) -> table_models m A -> table_models m B.
Proof.
  intros HAB [Hl Hs Hk]. split; [exact Hl | |].
  - intros j e He Hv. rewrite <- HAB. apply Hs; assumption.
  - intros q Hq. apply Hk. rewrite HAB. exact Hq.
Qed.

Lemma table_models_new : table_models BH.new (fun _ => 0).
Proof.
  split.
  - apply length_replicate.
  - intros j e He Hv. apply lookup_replicate in He as [-> _]. contradiction.
  - intros q Hq. contradiction.
Qed.

Section Table.

Variables (m : list MapElem) (A : Z -> Z).
Hypothesis HmA : table_models m A.

(** Whatever slot [lookup] returns for [k], it holds [A k]. *)
Lemma lookup_value (k j : Z) (e : MapElem) :
  BH.lookup m k = Ok j -> m !! Z.to_nat j = Some e -> value e = A k.
Proof.
  intros Hl He.
  destruct (lookup_Ok_inv k m j Hl) as [Hj [e0 [He0 Hs]]].
  assert (e0 = e) by congruence. subst e0.
  destruct (Z.eq_dec (value e) 0) as [Hv | Hv].
  - rewrite Hv. destruct (Z.eq_dec (A k) 0) as [HA | HA]; [congruence |].
    destruct (tm_key m A HmA k HA) as [j' [e' [He' [Hk' Hv']]]].
    destruct (tm_slot m A HmA j' e' He' Hv') as [Hl' _].
    rewrite Hk', Hl in Hl'. injection Hl' as ->.
    rewrite Nat2Z.id in He. congruence.
  - apply stops_true in Hs as [Hs | Hs]; [contradiction |].
    destruct (tm_slot m A HmA (Z.to_nat j) e He Hv) as [_ Hval].
    rewrite Hval, Hs. reflexivity.
Qed.

(** A key with a non-zero mask is found, whatever its bits. *)
Lemma lookup_present (k : Z) :
  A k <> 0 ->
  exists (j : nat) (e : MapElem),
    BH.lookup m k = Ok (Z.of_nat j) /\ m !! j = Some e /\
    key e = k /\ value e = A k.
Proof.
  intros HA. destruct (tm_key m A HmA k HA) as [j [e [He [Hk Hv]]]].
  destruct (tm_slot m A HmA j e He Hv) as [Hl Hval].
  exists j, e. subst k. auto.
Qed.

Lemma get_present (k : Z) : A k <> 0 -> BH.get m k = Ok (A k).
Proof.
  intros HA. destruct (lookup_present k HA) as [j [e [Hl [He [_ Hv]]]]].
  unfold BH.get. rewrite Hl. cbn [bind].
  rewrite (at_index_nat _ _ _ He). cbn [bind]. rewrite Hv. reflexivity.
Qed.

Lemma get_sound (k v : Z) : BH.get m k = Ok v -> v = A k.
Proof.
  unfold BH.get. destruct (BH.lookup m k) as [j| | |] eqn:Hl; try discriminate.
  cbn [bind].
  destruct (at_index_cases m j) as [[e He] | He]; rewrite He; cbn [bind];
    [| discriminate].
  intros [= <-]. apply at_index_Ok in He as [_ He].
  eapply lookup_value; eauto.
Qed.

Lemma get_of_lookup (k j : Z) : BH.lookup m k = Ok j -> BH.get m k = Ok (A k).
Proof.
  intros Hl. unfold BH.get. rewrite Hl. cbn [bind].
  destruct (lookup_Ok_inv k m j Hl) as [Hj [e [He _]]].
  assert (Hat : at_index m j = Ok e) by (apply at_index_Ok; split; [lia | exact He]).
  rewrite Hat. cbn [bind]. f_equal. eapply lookup_value; eauto.
Qed.

(** [insert_mask] realises [upd]. *)
Lemma insert_mask_models (k mask : Z) (m' : list MapElem) :
  BH.insert_mask m k mask = Ok m' -> table_models m' (upd A k mask).
Proof.
  unfold BH.insert_mask.
  destruct (BH.lookup m k) as [i| | |] eqn:Hl; try discriminate. cbn [bind].
  destruct (at_index_cases m i) as [[e He] | He]; rewrite He; cbn [bind];
    [| discriminate].
  intros [= <-]. apply at_index_Ok in He as [Hi0 He].
  destruct (lookup_Ok_inv k m i Hl) as [Hi [e0 [He0 Hs]]].
  assert (e0 = e) by congruence. subst e0.
  pose proof (lookup_value k i e Hl He) as Hval.
  assert (Hlt : (Z.to_nat i < length m)%nat) by (eapply lookup_lt_Some; eauto).
  set (x := Z.to_nat i) in *.
  set (e' := mkElem k (Z.lor (value e) mask)).
  assert (Hsame : BH.lookup (<[x := e']> m) k = Ok i).
  { rewrite <- Hl. symmetry. apply lookup_ext. intros j.
    destruct (decide (j = x)) as [-> | Hjx].
    - rewrite list_lookup_insert_eq by exact Hlt. rewrite He. cbn.
      f_equal. rewrite Hs. symmetry. apply stops_true. right. reflexivity.
    - rewrite list_lookup_insert_ne by congruence. reflexivity. }
  split.
  - rewrite length_insert. apply (tm_length m A HmA).
  - intros j ej Hej Hvj. destruct (decide (j = x)) as [-> | Hjx].
    + rewrite list_lookup_insert_eq in Hej by exact Hlt.
      injection Hej as <-. subst e'. cbn [key value]. split.
      * rewrite Hsame. f_equal. subst x. lia.
      * unfold upd. rewrite Z.eqb_refl, Hval. reflexivity.
    + rewrite list_lookup_insert_ne in Hej by congruence.
      destruct (tm_slot m A HmA j ej Hej Hvj) as [Hlj Hvalj].
      assert (Hkj : key ej <> k).
      { intros Heq. rewrite Heq, Hl in Hlj. injection Hlj as ->.
        apply Hjx. subst x. lia. }
      split.
      * apply lookup_insert_other; [exact Hlj | subst x; lia |].
        intros e1 He1 Hs1. assert (e1 = e) by congruence. subst e1.
        apply stops_false in Hs1 as [Hv1 Hk1]. apply stops_false.
        unfold e'. cbn [key value]. split; [| congruence].
        rewrite Z.lor_eq_0_iff. tauto.
      * unfold upd. destruct (Z.eqb_spec (key ej) k); [contradiction | exact Hvalj].
  - intros q Hq. unfold upd in Hq. destruct (Z.eqb_spec q k) as [Heq | Hqk].
    + subst q. exists x, e'. split; [apply list_lookup_insert_eq, Hlt |].
      split; [reflexivity |]. unfold e'. cbn [value]. rewrite Hval. exact Hq.
    + destruct (tm_key m A HmA q Hq) as [j [ej [Hej [Hkj Hvj]]]].
      exists j, ej. split; [| auto].
      rewrite list_lookup_insert_ne; [exact Hej |].
      intros <-. assert (ej = e) by congruence. subst ej.
      apply stops_true in Hs as [Hs | Hs]; congruence.
Qed.

(** [insert_mask] succeeds exactly when [lookup] returns. *)
Lemma insert_mask_total (k mask j : Z) :
  BH.lookup m k = Ok j -> exists m', BH.insert_mask m k mask = Ok m'.
Proof.
  intros Hl. unfold BH.insert_mask. rewrite Hl. cbn [bind].
  destruct (lookup_Ok_inv k m j Hl) as [Hj [e [He _]]].
  assert (Hat : at_index m j = Ok e) by (apply at_index_Ok; split; [lia | exact He]).
  rewrite Hat. cbn [bind]. eauto.
Qed.

End Table.

(** ** Counting the slots in use *)

Lemma filter_short {A : Type} (P : A -> bool) (l : list A) :
  (length (filter P l) < length l)%nat ->
  exists (x : nat) (a : A), l !! x = Some a /\ P a = false.
Proof.
  induction l as [|a l IH]; cbn [length]; [lia |].
  destruct (P a) eqn:Pa.
  - rewrite filter_cons_True by (rewrite Pa; exact I). cbn [length]. intros H.
    destruct IH as [x [b [Hx Hb]]]; [lia |]. exists (S x), b. auto.
  - intros _. exists 0%nat, a. auto.
Qed.

Lemma NoDup_remove_one (K : list Z) (q : Z) :
  NoDup K -> q ∈ K ->
  exists K', NoDup K' /\ length K = S (length K') /\
             forall r, r ∈ K -> r <> q -> r ∈ K'.
Proof.
  intros HK Hq. apply list_elem_of_split in Hq as [K1 [K2 ->]].
  exists (K1 ++ K2). apply NoDup_app in HK as [H1 [H12 H2]].
  apply NoDup_cons in H2 as [Hq2 H2].
  split; [| split].
  - apply NoDup_app. split; [exact H1 |]. split; [| exact H2].
    intros r Hr1 Hr2. apply (H12 r Hr1). right. exact Hr2.
  - rewrite !length_app. cbn [length]. lia.
  - intros r Hr Hne. apply elem_of_app in Hr as [Hr | Hr];
      [apply elem_of_app; left; exact Hr |].
    apply elem_of_cons in Hr as [Hr | Hr]; [contradiction |].
    apply elem_of_app. right. exact Hr.
Qed.

Lemma used_count_bound (l : list MapElem) (K : list Z) :
  (forall (i j : nat) ei ej, l !! i = Some ei -> l !! j = Some ej ->
     used ei = true -> used ej = true -> key ei = key ej -> i = j) ->
  (forall (i : nat) e, l !! i = Some e -> used e = true -> key e ∈ K) ->
  NoDup K ->
  (length (filter used l) <= length K)%nat.
Proof.
  revert K. induction l as [|e l IH]; intros K Hinj Hin HK; [cbn; lia |].
  assert (Hinj' : forall (i j : nat) ei ej, l !! i = Some ei -> l !! j = Some ej ->
     used ei = true -> used ej = true -> key ei = key ej -> i = j).
  { intros i j ei ej Hi Hj Ui Uj Hk.
    assert (S i = S j) by (eapply Hinj; eauto). lia. }
  destruct (used e) eqn:Ue.
  - rewrite filter_cons_True by (rewrite Ue; exact I). cbn [length].
    destruct (NoDup_remove_one K (key e) HK) as [K' [HK' [Hlen Hsub]]].
    { apply (Hin 0%nat e); auto. }
    rewrite Hlen. apply le_n_S. apply IH; [exact Hinj' | | exact HK'].
    intros i ei Hi Ui. apply Hsub; [apply (Hin (S i) ei); auto |].
    intros Hk. assert (S i = 0%nat) by (eapply Hinj; eauto). lia.
  - rewrite filter_cons_False by (rewrite Ue; exact id).
    apply IH; [exact Hinj' | | exact HK].
    intros i ei Hi Ui. apply (Hin (S i) ei); auto.
Qed.

Lemma used_true (e : MapElem) : used e = true <-> value e <> 0.
Proof. unfold used. rewrite negb_true_iff, Z.eqb_neq. reflexivity. Qed.

Lemma used_false (e : MapElem) : used e = false <-> value e = 0.
Proof. unfold used. rewrite negb_false_iff, Z.eqb_eq. reflexivity. Qed.

(** A table that represents [A] uses at most one slot per key of [A]. *)
Lemma occupied_bound (m : list MapElem) (A : Z -> Z) (K : list Z) :
  table_models m A -> NoDup K -> (forall q, A q <> 0 -> q ∈ K) ->
  (occupied m <= length K)%nat.
Proof.
  intros HmA HK Hin. unfold occupied. apply used_count_bound; [| | exact HK].
  - intros i j ei ej Hi Hj Ui Uj Hk.
    apply used_true in Ui, Uj.
    destruct (tm_slot m A HmA i ei Hi Ui) as [Hli _].
    destruct (tm_slot m A HmA j ej Hj Uj) as [Hlj _].
    rewrite Hk, Hlj in Hli. injection Hli. lia.
  - intros i e Hi Ui. apply used_true in Ui. apply Hin.
    destruct (tm_slot m A HmA i e Hi Ui) as [_ Hv]. congruence.
Qed.

Lemma free_slot (m : list MapElem) :
  length m = 128%nat -> (occupied m < 128)%nat ->
  exists (x : nat) (e : MapElem), m !! x = Some e /\ value e = 0.
Proof.
  intros Hlen Hocc. unfold occupied in Hocc.
  destruct (filter_short used m) as [x [e [Hx He]]]; [lia |].
  exists x, e. split; [exact Hx | apply used_false, He].
Qed.

(** With a free slot, [lookup] returns on every probe-safe key. *)
Lemma lookup_room (m : list MapElem) (k : Z) :
  length m = 128%nat -> (occupied m < 128)%nat -> probe_safe k ->
  exists j, BH.lookup m k = Ok j.
Proof.
  intros Hlen Hocc Hk. destruct (free_slot m Hlen Hocc) as [x [e [Hx He]]].
  apply (lookup_safe_terminates k m x e Hlen Hk Hx).
  apply stops_true. left. exact He.
Qed.

(** ** PatternMatchVector represents a map from characters to masks *)

Lemma is_ascii_range (k : Z) : is_ascii k = true <-> 0 <= k <= 255.
Proof. unfold is_ascii. rewrite andb_true_iff, !Z.leb_le. reflexivity. Qed.

Lemma ascii_probe_safe (k : Z) : is_ascii k = true -> probe_safe k.
Proof. rewrite is_ascii_range. unfold probe_safe. lia. Qed.

(** Every [uint8_t], [uint16_t] and [uint32_t] character is probe-safe. *)
Lemma u32_probe_safe (k : Z) : 0 <= k < 2 ^ 32 -> probe_safe k.
Proof. intros H. unfold probe_safe. lia. Qed.

Lemma wide_part_upd (A : Z -> Z) (k mask q : Z) :
  wide_part (upd A k mask) q =
  if is_ascii k then wide_part A q else upd (wide_part A) k mask q.
Proof.
  unfold wide_part, upd. destruct (Z.eqb_spec q k) as [-> | Hne].
  - destruct (is_ascii k); reflexivity.
  - destruct (is_ascii k), (is_ascii q); reflexivity.
Qed.

Lemma pmv_models_new : pmv_models PMV.new (fun _ => 0).
Proof.
  split.
  - apply (table_models_ext BH.new (fun _ => 0)); [| apply table_models_new].
    intros q. unfold wide_part. destruct (is_ascii q); reflexivity.
  - apply length_replicate.
  - intros q Hq. apply is_ascii_range in Hq. cbn [PMV.new PMV.m_extendedAscii].
    apply lookup_replicate. split; [reflexivity | lia].
Qed.

Section Vector.

Variables (s : PMV.t) (A : Z -> Z).
Hypothesis HsA : pmv_models s A.

Lemma pmv_ascii_at (q : Z) :
  is_ascii q = true -> at_index (PMV.m_extendedAscii s) q = Ok (A q).
Proof.
  intros Hq. apply at_index_Ok. split; [apply is_ascii_range in Hq; lia |].
  apply (pm_ascii s A HsA q Hq).
Qed.

Lemma insert_mask_models_pmv (k mask : Z) (s' : PMV.t) :
  or_mask s k mask = Ok s' -> pmv_models s' (upd A k mask).
Proof.
  unfold or_mask. destruct (is_ascii k) eqn:Hk.
  - rewrite (pmv_ascii_at k Hk). cbn [bind]. intros [= <-].
    pose proof Hk as Hr. apply is_ascii_range in Hr.
    split; cbn [PMV.m_map PMV.m_extendedAscii].
    + apply (table_models_ext _ (wide_part A)); [| apply (pm_table s A HsA)].
      intros q. rewrite wide_part_upd, Hk. reflexivity.
    + rewrite length_insert. apply (pm_length s A HsA).
    + intros q Hq. pose proof Hq as Hqr. apply is_ascii_range in Hqr.
      unfold upd. destruct (Z.eqb_spec q k) as [-> | Hne].
      * apply list_lookup_insert_eq. rewrite (pm_length s A HsA). lia.
      * rewrite list_lookup_insert_ne by lia. apply (pm_ascii s A HsA q Hq).
  - destruct (BH.insert_mask (PMV.m_map s) k mask) as [m'| | |] eqn:Hi;
      try discriminate.
    cbn [bind]. intros [= <-]. split; cbn [PMV.m_map PMV.m_extendedAscii].
    + apply (table_models_ext _ (upd (wide_part A) k mask)).
      * intros q. rewrite wide_part_upd, Hk. reflexivity.
      * eapply insert_mask_models; [apply (pm_table s A HsA) | exact Hi].
    + apply (pm_length s A HsA).
    + intros q Hq. unfold upd. destruct (Z.eqb_spec q k) as [-> | Hne];
        [congruence |]. apply (pm_ascii s A HsA q Hq).
Qed.

Lemma get_sound_pmv (q v : Z) : PMV.get s q = Ok v -> v = A q.
Proof.
  unfold PMV.get. destruct (is_ascii q) eqn:Hq.
  - rewrite (pmv_ascii_at q Hq). congruence.
  - intros H. apply (get_sound _ _ (pm_table s A HsA)) in H.
    unfold wide_part in H. rewrite Hq in H. exact H.
Qed.

(** [get] returns when the character is in the direct table, has a
    non-zero mask, or is probe-safe and the hashmap has a free slot. *)
Lemma get_total_pmv (q : Z) :
  is_ascii q = true \/ A q <> 0 \/
  (probe_safe q /\ (occupied (PMV.m_map s) < 128)%nat) ->
  PMV.get s q = Ok (A q).
Proof.
  intros H. unfold PMV.get. destruct (is_ascii q) eqn:Hq;
    [apply pmv_ascii_at, Hq |].
  assert (HA : A q = wide_part A q) by (unfold wide_part; rewrite Hq; reflexivity).
  rewrite HA.
  destruct H as [H | [H | [Hsafe Hocc]]]; [discriminate | |].
  - apply (get_present _ _ (pm_table s A HsA)). congruence.
  - destruct (lookup_room (PMV.m_map s) q) as [j Hj];
      [apply (tm_length _ _ (pm_table s A HsA)) | exact Hocc | exact Hsafe |].
    apply (get_of_lookup _ _ (pm_table s A HsA) q j Hj).
Qed.

Lemma insert_mask_total_pmv (k mask : Z) :
  is_ascii k = true \/ A k <> 0 \/
  (probe_safe k /\ (occupied (PMV.m_map s) < 128)%nat) ->
  exists s', or_mask s k mask = Ok s'.
Proof.
  intros H. unfold or_mask. destruct (is_ascii k) eqn:Hk.
  - rewrite (pmv_ascii_at k Hk). cbn [bind]. eauto.
  - assert (Hl : exists j, BH.lookup (PMV.m_map s) k = Ok j).
    { destruct H as [H | [H | [Hsafe Hocc]]]; [discriminate | |].
      - destruct (lookup_present _ (wide_part A) (pm_table s A HsA) k)
          as [j [e [Hl _]]]; [unfold wide_part; rewrite Hk; exact H | eauto].
      - apply lookup_room;
          [apply (tm_length _ _ (pm_table s A HsA)) | exact Hocc | exact Hsafe]. }
    destruct Hl as [j Hl].
    destruct (insert_mask_total (PMV.m_map s) k mask j Hl) as [m' Hm'].
    rewrite Hm'. cbn [bind]. eauto.
Qed.

(** The hashmap has one slot in use per wide character with a mask. *)
Lemma occupied_pmv (K : list Z) :
  NoDup K -> (forall q, wide q = true -> A q <> 0 -> q ∈ K) ->
  (occupied (PMV.m_map s) <= length K)%nat.
Proof.
  intros HK Hin. apply (occupied_bound _ (wide_part A)); [apply (pm_table s A HsA) | exact HK |].
  intros q. unfold wide_part, wide in *. specialize (Hin q).
  destruct (is_ascii q); [congruence | auto].
Qed.

End Vector.

(** ** Runs of insertions *)

Lemma upd_all_cons (op : Z * Z) (ops : list (Z * Z)) (A : Z -> Z) :
  upd_all (op :: ops) A = upd_all ops (upd A op.1 op.2).
Proof. reflexivity. Qed.

Lemma upd_all_app (ops1 ops2 : list (Z * Z)) (A : Z -> Z) :
  upd_all (ops1 ++ ops2) A = upd_all ops2 (upd_all ops1 A).
Proof. apply fold_left_app. Qed.

Lemma upd_other (A : Z -> Z) (k mask q : Z) : q <> k -> upd A k mask q = A q.
Proof. intros H. unfold upd. destruct (Z.eqb_spec q k); [contradiction | reflexivity]. Qed.

Lemma upd_same (A : Z -> Z) (k mask : Z) : upd A k mask k = Z.lor (A k) mask.
Proof. unfold upd. rewrite Z.eqb_refl. reflexivity. Qed.

(** Masks only grow. *)
Lemma upd_all_mono (ops : list (Z * Z)) (A : Z -> Z) (q : Z) :
  A q <> 0 -> upd_all ops A q <> 0.
Proof.
  revert A. induction ops as [|op ops IH]; intros A H; [exact H |].
  rewrite upd_all_cons. apply IH. unfold upd. destruct (q =? op.1); [| exact H].
  rewrite Z.lor_eq_0_iff. tauto.
Qed.

Lemma upd_all_absent (ops : list (Z * Z)) (A : Z -> Z) (q : Z) :
  q ∉ ops.*1 -> upd_all ops A q = A q.
Proof.
  revert A. induction ops as [|op ops IH]; intros A H; [reflexivity |].
  rewrite upd_all_cons. rewrite fmap_cons in H. apply not_elem_of_cons in H as [H1 H2].
  rewrite IH by exact H2. apply upd_other, H1.
Qed.

Lemma upd_all_zero_mask (ops : list (Z * Z)) (A : Z -> Z) (q : Z) :
  (forall op, op ∈ ops -> op.2 = 0) -> upd_all ops A q = A q.
Proof.
  revert A. induction ops as [|op ops IH]; intros A H; [reflexivity |].
  rewrite upd_all_cons. rewrite IH by (intros op' Hop; apply H; right; exact Hop).
  unfold upd. rewrite (H op) by left. rewrite Z.lor_0_r. destruct (q =? op.1); reflexivity.
Qed.

Lemma upd_all_testbit (ops : list (Z * Z)) (A : Z -> Z) (q b : Z) :
  Z.testbit (upd_all ops A q) b = true <->
  Z.testbit (A q) b = true \/
  exists op, op ∈ ops /\ op.1 = q /\ Z.testbit op.2 b = true.
Proof.
  revert A. induction ops as [|op ops IH]; intros A.
  - cbn. split; [auto |]. intros [H | [op [Hop _]]]; [exact H |].
    apply elem_of_nil in Hop. contradiction.
  - rewrite upd_all_cons, IH. unfold upd. split.
    + intros [H | [op' [Hop' H]]].
      * destruct (Z.eqb_spec q op.1) as [Hq | Hq]; [| auto].
        rewrite Z.lor_spec, orb_true_iff in H. destruct H as [H | H]; [auto |].
        right. exists op. split; [left | auto].
      * right. exists op'. split; [right; exact Hop' | exact H].
    + intros [H | [op' [Hop' [Hk Hb]]]].
      * left. destruct (q =? op.1); [| exact H].
        rewrite Z.lor_spec, H. reflexivity.
      * apply elem_of_cons in Hop' as [-> | Hop'].
        -- left. rewrite Hk, Z.eqb_refl, Z.lor_spec, Hb. apply orb_true_r.
        -- right. exists op'. auto.
Qed.

Lemma mask_of_key (ops : list (Z * Z)) (q : Z) :
  mask_of ops q <> 0 -> q ∈ ops.*1.
Proof.
  intros H. destruct (decide (q ∈ ops.*1)) as [Hin | Hout]; [exact Hin |].
  exfalso. apply H. unfold mask_of. rewrite upd_all_absent by exact Hout. reflexivity.
Qed.

Lemma apply_masks_app (ops1 ops2 : list (Z * Z)) (s : PMV.t) :
  apply_masks (ops1 ++ ops2) s =
  let* s' := apply_masks ops1 s in apply_masks ops2 s'.
Proof.
  revert s. induction ops1 as [|op ops1 IH]; intros s; [reflexivity |].
  cbn [app apply_masks]. destruct (or_mask s op.1 op.2); cbn [bind];
    [apply IH | reflexivity..].
Qed.

Lemma apply_masks_models (ops : list (Z * Z)) (s s' : PMV.t) (A : Z -> Z) :
  pmv_models s A -> apply_masks ops s = Ok s' -> pmv_models s' (upd_all ops A).
Proof.
  revert s A. induction ops as [|op ops IH]; intros s A HsA.
  - intros [= <-]. exact HsA.
  - cbn [apply_masks]. destruct (or_mask s op.1 op.2) as [s1| | |] eqn:H1;
      try discriminate.
    cbn [bind]. rewrite upd_all_cons. apply IH.
    eapply insert_mask_models_pmv; eauto.
Qed.

(** A run over probe-safe characters returns when the wide characters
    that end with a mask number fewer than the 128 slots. *)
Lemma apply_masks_total (ops : list (Z * Z)) (s : PMV.t) (A : Z -> Z) (K : list Z) :
  pmv_models s A ->
  (forall op, op ∈ ops -> probe_safe op.1) ->
  NoDup K -> (length K < 128)%nat ->
  (forall q, wide q = true -> upd_all ops A q <> 0 -> q ∈ K) ->
  exists s', apply_masks ops s = Ok s'.
Proof.
  revert s A. induction ops as [|op ops IH]; intros s A HsA Hsup HK Hlen Hin;
    [cbn; eauto |].
  cbn [apply_masks].
  destruct (insert_mask_total_pmv s A HsA op.1 op.2) as [s1 H1].
  { right. right. split; [apply Hsup; left |].
    apply Nat.le_lt_trans with (length K); [| exact Hlen].
    apply (occupied_pmv s A HsA K HK). intros q Hq HA. apply Hin; [exact Hq |].
    apply upd_all_mono. exact HA. }
  rewrite H1. cbn [bind].
  apply (IH s1 (upd A op.1 op.2)); try assumption.
  - eapply insert_mask_models_pmv; eauto.
  - intros op' Hop'. apply Hsup. right. exact Hop'.
Qed.

Lemma wide_keys_cover (ops : list (Z * Z)) (q : Z) :
  wide q = true -> mask_of ops q <> 0 ->
  q ∈ remove_dups (filter wide ops.*1).
Proof.
  intros Hq HA. apply elem_of_remove_dups, list_elem_of_filter.
  split; [rewrite Hq; exact I | apply mask_of_key, HA].
Qed.

(** Building from the empty vector: the run returns a vector that holds
    exactly the expected masks and still has a free slot. *)
Lemma build_spec (ops : list (Z * Z)) :
  (forall op, op ∈ ops -> probe_safe op.1) ->
  (distinct_wide ops.*1 < 128)%nat ->
  exists s, apply_masks ops PMV.new = Ok s /\
            pmv_models s (mask_of ops) /\
            (occupied (PMV.m_map s) < 128)%nat.
Proof.
  intros Hsup Hd.
  destruct (apply_masks_total ops PMV.new (fun _ => 0)
              (remove_dups (filter wide ops.*1)) pmv_models_new Hsup) as [s Hs].
  - apply NoDup_remove_dups.
  - exact Hd.
  - intros q. apply wide_keys_cover.
  - exists s. split; [exact Hs |].
    pose proof (apply_masks_models ops _ _ _ pmv_models_new Hs) as Hm.
    split; [exact Hm |].
    apply Nat.le_lt_trans with (distinct_wide ops.*1); [| exact Hd].
    apply (occupied_pmv s _ Hm); [apply NoDup_remove_dups |].
    intros q. apply wide_keys_cover.
Qed.

Lemma build_get (ops : list (Z * Z)) (s : PMV.t) (q : Z) :
  apply_masks ops PMV.new = Ok s ->
  (occupied (PMV.m_map s) < 128)%nat ->
  probe_safe q ->
  PMV.get s q = Ok (mask_of ops q).
Proof.
  intros Hs Hocc Hq.
  pose proof (apply_masks_models ops _ _ _ pmv_models_new Hs) as Hm.
  apply (get_total_pmv s _ Hm). right. right. auto.
Qed.

(** A run may also fill the table: with up to 128 distinct wide
    characters every insertion still finds its key or a free slot. *)
Lemma apply_masks_full (ops : list (Z * Z)) (s : PMV.t) (A : Z -> Z) (K : list Z) :
  pmv_models s A ->
  (forall op, op ∈ ops -> probe_safe op.1) ->
  NoDup K -> (length K <= 128)%nat ->
  (forall q, wide q = true -> A q <> 0 -> q ∈ K) ->
  (forall op, op ∈ ops -> wide op.1 = true -> op.1 ∈ K) ->
  exists s', apply_masks ops s = Ok s'.
Proof.
  revert s A. induction ops as [|op ops IH]; intros s A HsA Hsafe HK Hlen HA Hops;
    [cbn; eauto |].
  cbn [apply_masks].
  destruct (insert_mask_total_pmv s A HsA op.1 op.2) as [s1 H1].
  { destruct (is_ascii op.1) eqn:Hasc; [left; reflexivity |]. right.
    destruct (Z.eq_dec (A op.1) 0) as [H0 | H0]; [right | left; exact H0].
    split; [apply Hsafe; left |].
    destruct (NoDup_remove_one K op.1 HK) as [K' [HK' [HlenK' Hsub]]].
    { apply Hops; [left | unfold wide; rewrite Hasc; reflexivity]. }
    apply Nat.le_lt_trans with (length K'); [| lia].
    apply (occupied_pmv s A HsA K' HK'). intros q Hq HAq.
    apply Hsub; [apply HA; assumption | congruence]. }
  rewrite H1. cbn [bind].
  apply (IH s1 (upd A op.1 op.2)); try assumption.
  - eapply insert_mask_models_pmv; eauto.
  - intros op' Hop'. apply Hsafe. right. exact Hop'.
  - intros q Hq HAq. destruct (Z.eq_dec q op.1) as [-> | Hne].
    + apply Hops; [left | exact Hq].
    + rewrite upd_other in HAq by exact Hne. apply HA; assumption.
  - intros op' Hop'. apply Hops. right. exact Hop'.
Qed.

(** ** The two [insert] overloads as runs of [(key, mask)] statements *)

Lemma shl1_pow (pos : Z) : 0 <= pos < 64 -> shl1 pos = Ok (2 ^ pos).
Proof.
  intros H. unfold shl1.
  replace ((0 <=? pos) && (pos <? 64)) with true
    by (symmetry; apply andb_true_iff; split; [apply Z.leb_le | apply Z.ltb_lt]; lia).
  rewrite Z.shiftl_1_l. reflexivity.
Qed.

Lemma insert_or_mask (s : PMV.t) (k pos : Z) :
  PMV.insert s k pos = let* mask := shl1 pos in or_mask s k mask.
Proof. reflexivity. Qed.

Lemma insert_loop_cons (k : Z) (rest : list Z) (mask : Z) (s : PMV.t) :
  PMV.insert_loop (k :: rest) mask s =
  let* s' := or_mask s k mask in PMV.insert_loop rest (shl_u64 mask) s'.
Proof. reflexivity. Qed.

Lemma insert_as_mask (s : PMV.t) (k pos : Z) :
  0 <= pos < 64 -> PMV.insert s k pos = or_mask s k (2 ^ pos).
Proof. intros H. rewrite insert_or_mask, shl1_pow by exact H. reflexivity. Qed.

Lemma shl_u64_pow (j : Z) : 0 <= j -> j + 1 < 64 -> shl_u64 (2 ^ j) = 2 ^ (j + 1).
Proof.
  intros H0 H1. unfold shl_u64.
  assert (E : 2 ^ (j + 1) = 2 ^ j * 2) by (rewrite Z.pow_add_r by lia; reflexivity).
  assert (0 < 2 ^ j) by (apply Z.pow_pos_nonneg; lia).
  assert (2 ^ (j + 1) < 2 ^ 64) by (apply Z.pow_lt_mono_r; lia).
  rewrite E. apply Z.mod_small. lia.
Qed.

Lemma insert_loop_apply (first : list Z) (mask : Z) (s : PMV.t) :
  PMV.insert_loop first mask s =
  apply_masks (zip first (masks_from mask (length first))) s.
Proof.
  revert mask s. induction first as [|k rest IH]; intros mask s; [reflexivity |].
  rewrite insert_loop_cons.
  cbn [length masks_from zip zip_with apply_masks fst snd].
  destruct (or_mask s k mask); cbn [bind]; [apply IH | reflexivity..].
Qed.

Lemma insert_range_apply (first : list Z) (s : PMV.t) :
  PMV.insert_range first s = apply_masks (range_ops first) s.
Proof. apply insert_loop_apply. Qed.

Lemma zip_masks_keys (first : list Z) (mask : Z) :
  (zip first (masks_from mask (length first))).*1 = first.
Proof.
  revert mask. induction first as [|k rest IH]; intros mask; [reflexivity |].
  cbn [length masks_from zip zip_with fmap list_fmap fst]. f_equal. apply IH.
Qed.

Lemma range_ops_keys (first : list Z) : (range_ops first).*1 = first.
Proof. apply zip_masks_keys. Qed.

(** Bulk insertion of at most 64 characters makes the same calls as
    [insert(first[i], i)] position by position. *)
Lemma insert_loop_positions (first : list Z) (j : nat) (s : PMV.t) :
  (j + length first <= 64)%nat ->
  PMV.insert_loop first (2 ^ Z.of_nat j) s =
  insert_each (zip first (Z.of_nat <$> seq j (length first))) s.
Proof.
  revert j s. induction first as [|k rest IH]; intros j s Hlen; [reflexivity |].
  cbn [length] in Hlen.
  rewrite insert_loop_cons.
  cbn [length seq fmap list_fmap zip zip_with insert_each fst snd].
  rewrite insert_as_mask by lia.
  destruct (or_mask s k (2 ^ Z.of_nat j)) as [s'| | |]; cbn [bind];
    try reflexivity.
  destruct rest as [|k' rest']; [reflexivity |].
  cbn [length] in Hlen.
  rewrite shl_u64_pow by lia.
  replace (Z.of_nat j + 1) with (Z.of_nat (S j)) by lia.
  apply IH. cbn [length]. lia.
Qed.

Lemma insert_range_positions (first : list Z) (s : PMV.t) :
  (length first <= 64)%nat ->
  PMV.insert_range first s = insert_each (position_ops first) s.
Proof. intros H. apply (insert_loop_positions first 0 s). lia. Qed.

Lemma range_ops_member (first : list Z) (j i : nat) (k : Z) :
  (j + i < 64)%nat -> first !! i = Some k ->
  (k, 2 ^ Z.of_nat (j + i)) ∈
    zip first (masks_from (2 ^ Z.of_nat j) (length first)).
Proof.
  revert j i. induction first as [|k0 rest IH]; intros j i Hlt Hk; [discriminate |].
  cbn [length masks_from zip zip_with]. destruct i as [|i].
  - injection Hk as ->. rewrite Nat.add_0_r. left.
  - right. cbn in Hk. rewrite shl_u64_pow by lia.
    replace (Z.of_nat j + 1) with (Z.of_nat (S j)) by lia.
    replace (j + S i)%nat with (S j + i)%nat by lia.
    apply IH; [lia | exact Hk].
Qed.

Lemma distinct_wide_le (ks : list Z) : (distinct_wide ks <= length ks)%nat.
Proof.
  unfold distinct_wide.
  apply Nat.le_trans with (length (filter wide ks)); [| apply length_filter].
  apply submseteq_length, NoDup_submseteq; [apply NoDup_remove_dups |].
  intros x. apply elem_of_remove_dups.
Qed.

(** ** Inserting the same pair again *)

Lemma lookup_after_insert (m : list MapElem) (k i v : Z) :
  BH.lookup m k = Ok i ->
  BH.lookup (<[Z.to_nat i := mkElem k v]> m) k = Ok i.
Proof.
  intros Hl. destruct (lookup_Ok_inv k m i Hl) as [Hi [e [He Hs]]].
  rewrite <- Hl. symmetry. apply lookup_ext. intros j.
  destruct (decide (j = Z.to_nat i)) as [-> | Hj].
  - rewrite list_lookup_insert_eq by (eapply lookup_lt_Some; eauto).
    rewrite He. cbn. f_equal. rewrite Hs. symmetry. apply stops_true. right. reflexivity.
  - rewrite list_lookup_insert_ne by congruence. reflexivity.
Qed.

Lemma insert_mask_idem (m m' : list MapElem) (k mask : Z) :
  BH.insert_mask m k mask = Ok m' -> BH.insert_mask m' k mask = Ok m'.
Proof.
  unfold BH.insert_mask.
  destruct (BH.lookup m k) as [i| | |] eqn:Hl; try discriminate. cbn [bind].
  destruct (at_index_cases m i) as [[e He] | He]; rewrite He; cbn [bind];
    [| discriminate].
  intros [= <-]. apply at_index_Ok in He as [Hi He].
  rewrite (lookup_after_insert m k i _ Hl). cbn [bind].
  assert (Hat : at_index (<[Z.to_nat i := mkElem k (Z.lor (value e) mask)]> m) i =
                Ok (mkElem k (Z.lor (value e) mask))).
  { apply at_index_Ok. split; [exact Hi |].
    apply list_lookup_insert_eq. eapply lookup_lt_Some; eauto. }
  rewrite Hat. cbn [bind value]. f_equal.
  rewrite list_insert_insert_eq, <- Z.lor_assoc, Z.lor_diag. reflexivity.
Qed.

Lemma insert_mask_idem_pmv (s s' : PMV.t) (k mask : Z) :
  or_mask s k mask = Ok s' -> or_mask s' k mask = Ok s'.
Proof.
  unfold or_mask. destruct (is_ascii k).
  - destruct (at_index_cases (PMV.m_extendedAscii s) k) as [[v Hv] | Hv];
      rewrite Hv; cbn [bind]; [| discriminate].
    intros [= <-]. cbn [PMV.m_map PMV.m_extendedAscii].
    apply at_index_Ok in Hv as [Hk Hv].
    assert (Hat : at_index (<[Z.to_nat k := Z.lor v mask]> (PMV.m_extendedAscii s)) k =
                  Ok (Z.lor v mask)).
    { apply at_index_Ok. split; [exact Hk |].
      apply list_lookup_insert_eq. eapply lookup_lt_Some; eauto. }
    rewrite Hat. cbn [bind]. f_equal. f_equal.
    rewrite list_insert_insert_eq, <- Z.lor_assoc, Z.lor_diag. reflexivity.
  - destruct (BH.insert_mask (PMV.m_map s) k mask) as [m'| | |] eqn:Hi;
      try discriminate.
    cbn [bind]. intros [= <-]. cbn [PMV.m_map PMV.m_extendedAscii].
    rewrite (insert_mask_idem _ _ _ _ Hi). reflexivity.
Qed.

Lemma insert_twice (s : PMV.t) (k pos : Z) :
  (let* s1 := PMV.insert s k pos in PMV.insert s1 k pos) = PMV.insert s k pos.
Proof.
  rewrite !insert_or_mask.
  destruct (shl1 pos) as [mask| | |] eqn:Hsh; cbn [bind]; try reflexivity.
  destruct (or_mask s k mask) as [s1| | |] eqn:H1; cbn [bind]; try reflexivity.
  rewrite insert_or_mask, Hsh. cbn [bind].
  apply (insert_mask_idem_pmv s s1 k mask H1).
Qed.

(** C8 (idempotent OR).  For every vector, character and position,
    calling [insert(key, pos)] twice gives, for every query character, the
    same [get] result as calling it once; indeed the second call leaves
    the vector as the first one made it. *)
Theorem C8_insert_twice_same_get (s : PMV.t) (k pos q : Z) :
  (let* s1 := PMV.insert s k pos in
   let* s2 := PMV.insert s1 k pos in PMV.get s2 q) =
  (let* s1 := PMV.insert s k pos in PMV.get s1 q)
  /\ (let* s1 := PMV.insert s k pos in PMV.insert s1 k pos) = PMV.insert s k pos.
Proof.
  split; [| apply insert_twice].
  pose proof (insert_twice s k pos) as H.
  destruct (PMV.insert s k pos) as [s1| | |]; cbn [bind] in *; try reflexivity.
  rewrite H. reflexivity.
Qed.

Example insert_twice_collision :
  (let* s0 := PMV.insert PMV.new 300 3 in
   let* s1 := PMV.insert s0 428 7 in
   let* s2 := PMV.insert s1 428 7 in PMV.get s2 428) = Ok 128.
Proof. vm_compute. reflexivity. Qed.

(** ** Vectors built by lists of actions *)

Lemma run_action_apply (a : action) (s : PMV.t) :
  valid_action a -> run_action a s = apply_masks (action_ops a) s.
Proof.
  destruct a as [first | k pos]; cbn [valid_action run_action action_ops]; intros H.
  - apply insert_range_apply.
  - rewrite insert_as_mask by exact H. cbn [apply_masks fst snd].
    destruct (or_mask s k (2 ^ pos)); reflexivity.
Qed.

Lemma run_apply (l : list action) (s : PMV.t) :
  Forall valid_action l -> run l s = apply_masks (ops_of l) s.
Proof.
  intros H. revert s. induction H as [|a l Ha _ IH]; intros s; [reflexivity |].
  cbn [run ops_of]. rewrite apply_masks_app, (run_action_apply a s Ha).
  destruct (apply_masks (action_ops a) s); cbn [bind]; [apply IH | reflexivity..].
Qed.

Lemma ops_of_keys (l : list action) : (ops_of l).*1 = keys_of l.
Proof.
  induction l as [|a l IH]; [reflexivity |].
  cbn [ops_of keys_of]. rewrite fmap_app, IH. f_equal.
  destruct a as [first | k pos]; [apply range_ops_keys | reflexivity].
Qed.

Lemma ops_of_app (l1 l2 : list action) : ops_of (l1 ++ l2) = ops_of l1 ++ ops_of l2.
Proof.
  induction l1 as [|a l1 IH]; [reflexivity |].
  cbn [app ops_of]. rewrite IH, app_assoc. reflexivity.
Qed.

Lemma keys_of_app (l1 l2 : list action) : keys_of (l1 ++ l2) = keys_of l1 ++ keys_of l2.
Proof.
  induction l1 as [|a l1 IH]; [reflexivity |].
  cbn [app keys_of]. rewrite IH, app_assoc. reflexivity.
Qed.

Lemma distinct_wide_app (l l' : list Z) :
  (distinct_wide l <= distinct_wide (l ++ l'))%nat.
Proof.
  unfold distinct_wide.
  apply submseteq_length, NoDup_submseteq; [apply NoDup_remove_dups |].
  intros x. rewrite !elem_of_remove_dups, !list_elem_of_filter, elem_of_app. tauto.
Qed.

(** A list of valid actions over probe-safe characters, at most 128 of
    them wide and distinct, returns a vector that represents the OR of
    the masks inserted for each character. *)
Lemma run_total (l : list action) :
  Forall valid_action l ->
  Forall probe_safe (keys_of l) ->
  (distinct_wide (keys_of l) <= 128)%nat ->
  exists s, run l PMV.new = Ok s /\ pmv_models s (mask_of (ops_of l)).
Proof.
  intros Hl Hkeys Hd. rewrite Forall_forall in Hkeys.
  destruct (apply_masks_full (ops_of l) PMV.new (fun _ => 0)
              (remove_dups (filter wide (keys_of l))) pmv_models_new) as [s Hs].
  - intros op Hop. apply Hkeys. rewrite <- ops_of_keys.
    apply list_elem_of_fmap. exists op. auto.
  - apply NoDup_remove_dups.
  - exact Hd.
  - intros q _ H. contradiction.
  - intros op Hop Hw. apply elem_of_remove_dups, list_elem_of_filter.
    split; [rewrite Hw; exact I |]. rewrite <- ops_of_keys.
    apply list_elem_of_fmap. exists op. auto.
  - exists s. split; [rewrite run_apply by exact Hl; exact Hs |].
    apply (apply_masks_models _ _ _ _ pmv_models_new Hs).
Qed.

(** In such a vector [get] returns the mask of a probe-safe character
    that is in the direct table or has a mask, and of any probe-safe
    character when fewer than 128 distinct wide characters were inserted. *)
Lemma run_get (l : list action) (s : PMV.t) (q : Z) :
  pmv_models s (mask_of (ops_of l)) ->
  probe_safe q ->
  is_ascii q = true \/ mask_of (ops_of l) q <> 0 \/
  (distinct_wide (keys_of l) < 128)%nat ->
  PMV.get s q = Ok (mask_of (ops_of l) q).
Proof.
  intros Hm Hq H. apply (get_total_pmv s _ Hm).
  destruct H as [H | [H | H]]; [left; exact H | right; left; exact H | right; right].
  split; [exact Hq |].
  apply Nat.le_lt_trans with (distinct_wide (keys_of l)); [| exact H].
  apply (occupied_pmv s _ Hm); [apply NoDup_remove_dups |].
  intros r Hr HA. rewrite <- ops_of_keys. apply wide_keys_cover; assumption.
Qed.

Lemma run_app (l1 l2 : list action) (s : PMV.t) :
  run (l1 ++ l2) s = let* s1 := run l1 s in run l2 s1.
Proof.
  revert s. induction l1 as [|a l1 IH]; intros s; [reflexivity |].
  cbn [app run]. destruct (run_action a s); cbn [bind]; [apply IH | reflexivity..].
Qed.

Lemma lookup_diverges_forever (m : list MapElem) (k : Z) :
  is_u64 k -> BH.lookup m k = Diverges ->
  forall n, BH.lookup_fuel n m k = Diverges.
Proof.
  intros Hk Hd n. destruct (le_lt_dec BH.probe_budget n) as [Hle | Hlt].
  - rewrite lookup_fuel_exact by assumption. exact Hd.
  - unfold BH.lookup in Hd. revert Hd. generalize BH.probe_budget Hlt. clear Hlt.
    intros N Hlt. unfold BH.lookup_fuel.
    destruct (at_index m (k mod 128)) as [e| | |]; cbn [bind]; try discriminate;
      [| auto].
    destruct (BH.stops e k); [discriminate |].
    replace N with (n + (N - n))%nat by lia. rewrite probe_split.
    destruct (BH.probe n m k (k mod 128) (to_int64 k)); congruence.
Qed.

Lemma insert_run_keys (lo len : nat) (q : Z) :
  In q (keys_of (map (fun n => Insert (Z.of_nat n) 0) (seq lo len))) ->
  Z.of_nat lo <= q < Z.of_nat (lo + len).
Proof.
  revert lo. induction len as [|len IH]; intros lo; cbn; [tauto |].
  intros [<- | H]; [lia |]. apply IH in H. lia.
Qed.

Lemma insert_run_valid (lo len : nat) :
  Forall valid_action (map (fun n => Insert (Z.of_nat n) 0) (seq lo len)).
Proof.
  apply Forall_forall. intros a Ha. apply list_elem_of_In, in_map_iff in Ha.
  destruct Ha as [n [<- _]]. cbn. lia.
Qed.

(** ** Zero default (C2) *)

(** C2, counterexample.  The 128 characters 256 .. 383 are distinct and
    wide; after inserting them the lookup of 384, which was never
    inserted, finds all 128 slots in use by other keys and never returns. *)
Lemma C2_full_table_counterexample :
  Forall valid_action full_run /\
  Forall is_u64 (keys_of full_run) /\
  distinct_wide (keys_of full_run) = 128%nat /\
  ~ In 384 (keys_of full_run) /\
  exists s, run full_run PMV.new = Ok s /\
            PMV.get s 384 = Diverges /\
            forall n, BH.lookup_fuel n (PMV.m_map s) 384 = Diverges.
Proof.
  split; [apply insert_run_valid |].
  split; [| split; [| split]].
  - apply Forall_forall. intros q Hq. apply list_elem_of_In, insert_run_keys in Hq.
    unfold is_u64. lia.
  - vm_compute. reflexivity.
  - intros H. apply insert_run_keys in H. lia.
  - eexists. split; [vm_compute; reflexivity |].
    split; [vm_compute; reflexivity |].
    apply lookup_diverges_forever; [unfold is_u64; lia |].
    vm_compute. reflexivity.
Qed.

(** C2, amended.  For every vector built from the empty one by valid
    [insert] calls of either kind over probe-safe characters, and every
    probe-safe character that was never inserted, the build returns and
    [get] then returns 0: for a character in [[0, 255]] when at most 128
    distinct wide characters were inserted, and for a wide character when
    at most 127 were. *)
Theorem C2_zero_default (l : list action) (q : Z) :
  Forall valid_action l ->
  Forall probe_safe (keys_of l) ->
  probe_safe q ->
  (distinct_wide (keys_of l) <= 127)%nat \/
  ((distinct_wide (keys_of l) <= 128)%nat /\ is_ascii q = true) ->
  ~ In q (keys_of l) ->
  exists s, run l PMV.new = Ok s /\ PMV.get s q = Ok 0.
Proof.
  intros Hl Hkeys Hq Hd Hout.
  destruct (run_total l Hl Hkeys) as [s [Hs Hm]]; [lia |].
  exists s. split; [exact Hs |].
  rewrite (run_get l s q Hm Hq).
  - f_equal. unfold mask_of. apply upd_all_absent. rewrite ops_of_keys.
    rewrite list_elem_of_In. exact Hout.
  - destruct Hd as [Hd | [_ Hd]]; [right; right; lia | left; exact Hd].
Qed.

(** C2 at a bulk insertion of "A", U+012C, "B", U+01AC followed by a
    second insertion of U+012C, queried at 1000 and at "Z"; and at the
    vector holding the 128 characters 256 .. 383, queried at "Z". *)
Lemma C2_zero_default_witness :
  (exists s, run [InsertRange [65; 300; 66; 428]; Insert 300 5] PMV.new = Ok s /\
             PMV.get s 1000 = Ok 0) /\
  (exists s, run [InsertRange [65; 300; 66; 428]; Insert 300 5] PMV.new = Ok s /\
             PMV.get s 90 = Ok 0) /\
  (exists s, run full_run PMV.new = Ok s /\ PMV.get s 90 = Ok 0).
Proof.
  split; [| split].
  - apply (C2_zero_default [InsertRange [65; 300; 66; 428]; Insert 300 5] 1000).
    + repeat constructor; cbn; lia.
    + repeat constructor; unfold probe_safe; lia.
    + unfold probe_safe. lia.
    + left. apply Nat.leb_le. vm_compute. reflexivity.
    + cbn. lia.
  - apply (C2_zero_default [InsertRange [65; 300; 66; 428]; Insert 300 5] 90).
    + repeat constructor; cbn; lia.
    + repeat constructor; unfold probe_safe; lia.
    + unfold probe_safe. lia.
    + left. apply Nat.leb_le. vm_compute. reflexivity.
    + cbn. lia.
  - apply (C2_zero_default full_run 90).
    + apply insert_run_valid.
    + apply Forall_forall. intros r Hr.
      apply list_elem_of_In, insert_run_keys in Hr. unfold probe_safe. lia.
    + unfold probe_safe. lia.
    + right. split; [apply Nat.leb_le; vm_compute; reflexivity | reflexivity].
    + intros H. apply insert_run_keys in H. lia.
Defined.

(** ** Frame property (C9) *)

(** C9, counterexample.  With the 127 characters 256 .. 382 in the vector,
    384 is absent and [get] returns 0 for it; inserting 383 makes 128
    distinct wide characters and takes the last free slot, after which the
    lookup of 384 never returns. *)
Lemma C9_last_slot_counterexample :
  Forall valid_action nearly_full_run /\
  Forall is_u64 (keys_of nearly_full_run ++ [383]) /\
  distinct_wide (keys_of nearly_full_run ++ [383]) = 128%nat /\
  384 <> 383 /\
  exists s s', run nearly_full_run PMV.new = Ok s /\
               PMV.insert s 383 0 = Ok s' /\
               PMV.get s 384 = Ok 0 /\
               PMV.get s' 384 = Diverges /\
               forall n, BH.lookup_fuel n (PMV.m_map s') 384 = Diverges.
Proof.
  split; [apply insert_run_valid |].
  split; [| split; [| split]].
  - apply Forall_app. split.
    + apply Forall_forall. intros q Hq. apply list_elem_of_In, insert_run_keys in Hq.
      unfold is_u64. lia.
    + repeat constructor; lia.
  - vm_compute. reflexivity.
  - lia.
  - eexists. eexists. split; [vm_compute; reflexivity |].
    split; [vm_compute; reflexivity |].
    split; [vm_compute; reflexivity |].
    split; [vm_compute; reflexivity |].
    apply lookup_diverges_forever; [unfold is_u64; lia |].
    vm_compute. reflexivity.
Qed.

(** C9, amended.  In every vector built from the empty one by valid
    [insert] calls of either kind over probe-safe characters,
    [insert(k, pos)] of a probe-safe character leaves [get(q)] as it was
    for every probe-safe [q] other than [k]: for a [q] in the direct table
    and for a [q] that has a mask in the vector when at most 128 distinct
    wide characters are in it after the call, and for any [q] (an absent
    wide one too) when at most 127 are. *)
Theorem C9_insert_frame (l : list action) (k pos q : Z) :
  Forall valid_action l ->
  Forall probe_safe (keys_of l) ->
  probe_safe k -> 0 <= pos < 64 ->
  probe_safe q -> q <> k ->
  (distinct_wide (keys_of l ++ [k]) <= 127)%nat \/
  ((distinct_wide (keys_of l ++ [k]) <= 128)%nat /\
   (is_ascii q = true \/ mask_of (ops_of l) q <> 0)) ->
  exists s s' v, run l PMV.new = Ok s /\
                 PMV.insert s k pos = Ok s' /\
                 PMV.get s q = Ok v /\
                 PMV.get s' q = Ok v.
Proof.
  intros Hl Hkeys Hk Hpos Hq Hne Hd.
  pose proof (distinct_wide_app (keys_of l) [k]) as Hmono.
  assert (Hkeys1 : keys_of (l ++ [Insert k pos]) = keys_of l ++ [k]).
  { rewrite keys_of_app. reflexivity. }
  assert (Hmask : mask_of (ops_of (l ++ [Insert k pos])) q = mask_of (ops_of l) q).
  { unfold mask_of. rewrite ops_of_app, upd_all_app.
    cbn [ops_of action_ops app upd_all fold_left fst snd]. apply upd_other, Hne. }
  destruct (run_total l Hl Hkeys) as [s [Hs Hm]]; [lia |].
  destruct (run_total (l ++ [Insert k pos])) as [s' [Hs' Hm']].
  { apply Forall_app. split; [exact Hl |]. apply Forall_singleton. exact Hpos. }
  { rewrite Hkeys1. apply Forall_app. split; [exact Hkeys |].
    apply Forall_singleton. exact Hk. }
  { rewrite Hkeys1. lia. }
  assert (Hstep : PMV.insert s k pos = Ok s').
  { rewrite run_app, Hs in Hs'. cbn [bind run run_action] in Hs'.
    destruct (PMV.insert s k pos); cbn [bind] in Hs'; congruence. }
  exists s, s', (mask_of (ops_of l) q).
  split; [exact Hs |]. split; [exact Hstep |]. split.
  - apply (run_get l s q Hm Hq).
    destruct Hd as [Hd | [_ [Hd | Hd]]];
      [right; right; lia | left; exact Hd | right; left; exact Hd].
  - rewrite <- Hmask. apply (run_get _ s' q Hm' Hq).
    rewrite Hmask, Hkeys1.
    destruct Hd as [Hd | [_ [Hd | Hd]]];
      [right; right; lia | left; exact Hd | right; left; exact Hd].
Qed.

(** C9 at a vector holding "A", U+012C, "B"; inserting U+01AC, which
    collides with U+012C in slot 44, changes neither [get(U+012C)] nor
    [get(U+022C)], which is absent and collides too; and at the vector
    holding the 127 characters 256 .. 382, where inserting 383 fills the
    table and [get(300)], a character of the vector, and [get("Z")],
    which is absent and in the direct table, are as before. *)
Lemma C9_insert_frame_witness :
  (exists s s' v, run [InsertRange [65; 300; 66]] PMV.new = Ok s /\
                  PMV.insert s 428 7 = Ok s' /\
                  PMV.get s 300 = Ok v /\ PMV.get s' 300 = Ok v) /\
  (exists s s' v, run [InsertRange [65; 300; 66]] PMV.new = Ok s /\
                  PMV.insert s 428 7 = Ok s' /\
                  PMV.get s 556 = Ok v /\ PMV.get s' 556 = Ok v) /\
  (exists s s' v, run nearly_full_run PMV.new = Ok s /\
                  PMV.insert s 383 0 = Ok s' /\
                  PMV.get s 300 = Ok v /\ PMV.get s' 300 = Ok v) /\
  (exists s s' v, run nearly_full_run PMV.new = Ok s /\
                  PMV.insert s 383 0 = Ok s' /\
                  PMV.get s 90 = Ok v /\ PMV.get s' 90 = Ok v).
Proof.
  split; [| split; [| split]].
  - apply (C9_insert_frame [InsertRange [65; 300; 66]] 428 7 300).
    + repeat constructor.
    + repeat constructor; unfold probe_safe; lia.
    + unfold probe_safe. lia.
    + lia.
    + unfold probe_safe. lia.
    + lia.
    + left. apply Nat.leb_le. vm_compute. reflexivity.
  - apply (C9_insert_frame [InsertRange [65; 300; 66]] 428 7 556).
    + repeat constructor.
    + repeat constructor; unfold probe_safe; lia.
    + unfold probe_safe. lia.
    + lia.
    + unfold probe_safe. lia.
    + lia.
    + left. apply Nat.leb_le. vm_compute. reflexivity.
  - apply (C9_insert_frame nearly_full_run 383 0 300).
    + apply insert_run_valid.
    + apply Forall_forall. intros r Hr.
      apply list_elem_of_In, insert_run_keys in Hr. unfold probe_safe. lia.
    + unfold probe_safe. lia.
    + lia.
    + unfold probe_safe. lia.
    + lia.
    + right. split; [apply Nat.leb_le; vm_compute; reflexivity |].
      right. vm_compute. discriminate.
  - apply (C9_insert_frame nearly_full_run 383 0 90).
    + apply insert_run_valid.
    + apply Forall_forall. intros r Hr.
      apply list_elem_of_In, insert_run_keys in Hr. unfold probe_safe. lia.
    + unfold probe_safe. lia.
    + lia.
    + unfold probe_safe. lia.
    + lia.
    + right. split; [apply Nat.leb_le; vm_compute; reflexivity |].
      left. reflexivity.
Defined.

(** ** Round trip (C1) *)

(** On probe-safe characters the round trip holds: a pattern of at most 64
    of them is inserted, and [get(p[i])] then has bit [i] set. *)
Lemma round_trip_probe_safe (first : list Z) :
  (length first <= 64)%nat ->
  Forall probe_safe first ->
  exists s, PMV.make first = Ok s /\
            forall (i : nat) (k : Z), first !! i = Some k ->
              exists v, PMV.get s k = Ok v /\ Z.testbit v (Z.of_nat i) = true.
Proof.
  intros Hlen Hsup. rewrite Forall_forall in Hsup.
  unfold PMV.make. rewrite insert_range_apply.
  destruct (build_spec (range_ops first)) as [s [Hs [Hm Hocc]]].
  - intros op Hop. apply Hsup. rewrite <- (range_ops_keys first).
    apply list_elem_of_fmap. exists op. auto.
  - rewrite range_ops_keys. pose proof (distinct_wide_le first). lia.
  - exists s. split; [exact Hs |]. intros i k Hk.
    exists (mask_of (range_ops first) k). split.
    + apply build_get; [exact Hs | exact Hocc |].
      apply Hsup. eapply list_elem_of_lookup_2; eauto.
    + apply upd_all_testbit. right. exists (k, 2 ^ Z.of_nat i).
      split; [| split; [reflexivity |]].
      * apply (range_ops_member first 0 i k); [| exact Hk].
        apply lookup_lt_Some in Hk. lia.
      * cbn [snd]. apply Z.pow2_bits_true. lia.
Qed.

(** The pattern "GUMBO": [get('G')] is [0b00001], [get('M')] is
    [0b00100], and [get('Z')] is 0. *)
Example gumbo :
  exists s, PMV.make [71; 85; 77; 66; 79] = Ok s /\
            PMV.get s 71 = Ok 1 /\ PMV.get s 77 = Ok 4 /\ PMV.get s 90 = Ok 0.
Proof. eexists. repeat split; vm_compute; reflexivity. Qed.

(** C1.  The round trip fails on a [uint64_t] pattern: the characters
    [2^63] and [2^63 + 128] both start at slot 0, and the first probe for
    the second computes [(0 * 5 + (-2^63 + 128) + 1) % 128 = -127], an
    index outside the array.  On the pattern 338, 365, 288, [2^64 - 46]
    nothing is undefined, and the insertion of the last character never
    returns (see C5).  (All of C1, C3, C5, C6 and C10 fail through the
    signed [perturb] of [lookup].) *)
Theorem C1_round_trip_high_bit_pattern :
  is_u64 high_key /\ is_u64 (high_key + 128) /\ is_u64 stuck_key /\
  (exists s, PMV.make [high_key] = Ok s) /\
  PMV.make [high_key; high_key + 128] = Undefined /\
  PMV.make [338; 365; 288; stuck_key] = Diverges.
Proof.
  split; [unfold is_u64, high_key; lia |].
  split; [unfold is_u64, high_key; lia |].
  split; [unfold is_u64, stuck_key; lia |].
  split; [eexists; vm_compute; reflexivity |].
  split; vm_compute; reflexivity.
Qed.

(** ** Collisions (C3) *)

Lemma occupied_new : occupied BH.new = 0%nat.
Proof. vm_compute. reflexivity. Qed.

(** On probe-safe keys two colliding insertions are kept apart. *)
Lemma collision_probe_safe (k1 k2 p1 p2 : Z) :
  probe_safe k1 -> probe_safe k2 -> k1 <> k2 ->
  0 <= p1 < 64 -> 0 <= p2 < 64 ->
  exists m, (let* m1 := BH.insert BH.new k1 p1 in BH.insert m1 k2 p2) = Ok m /\
            BH.get m k1 = Ok (2 ^ p1) /\ BH.get m k2 = Ok (2 ^ p2).
Proof.
  intros Hk1 Hk2 Hne Hp1 Hp2. unfold BH.insert. rewrite !shl1_pow by assumption.
  cbn [bind].
  destruct (lookup_room BH.new k1) as [j1 Hj1];
    [apply length_replicate | rewrite occupied_new; lia | exact Hk1 |].
  destruct (insert_mask_total BH.new k1 (2 ^ p1) j1 Hj1) as [m1 Hm1].
  rewrite Hm1. cbn [bind].
  pose proof (insert_mask_models _ _ table_models_new _ _ _ Hm1) as HM1.
  destruct (lookup_room m1 k2) as [j2 Hj2];
    [apply (tm_length _ _ HM1) | | exact Hk2 |].
  { apply Nat.le_lt_trans with (length [k1]); [| cbn; lia].
    apply (occupied_bound m1 _ [k1] HM1); [apply NoDup_singleton |].
    intros q Hq. apply list_elem_of_singleton.
    destruct (Z.eq_dec q k1) as [-> | Hqk]; [reflexivity |].
    rewrite upd_other in Hq by exact Hqk. contradiction. }
  destruct (insert_mask_total m1 k2 (2 ^ p2) j2 Hj2) as [m2 Hm2].
  rewrite Hm2. exists m2. split; [reflexivity |].
  pose proof (insert_mask_models _ _ HM1 _ _ _ Hm2) as HM2.
  assert (Hpow : forall p, 0 <= p -> 2 ^ p <> 0).
  { intros p Hp. apply Z.pow_nonzero; lia. }
  split.
  - rewrite (get_present _ _ HM2).
    + rewrite upd_other by exact Hne. rewrite upd_same. reflexivity.
    + rewrite upd_other by exact Hne. rewrite upd_same. cbn. apply Hpow. lia.
  - rewrite (get_present _ _ HM2).
    + rewrite upd_same, upd_other by congruence. reflexivity.
    + rewrite upd_same, upd_other by congruence. cbn. apply Hpow. lia.
Qed.

(** C3.  Two distinct [uint64_t] keys congruent modulo 128: the first is
    stored in slot 0; the insertion of the second leaves the array at
    index [-127] instead of finding a second slot. *)
Theorem C3_collision_high_bit_keys :
  high_key <> high_key + 128 /\
  high_key mod 128 = (high_key + 128) mod 128 /\
  (exists m1, BH.insert BH.new high_key 0 = Ok m1 /\
              BH.insert m1 (high_key + 128) 1 = Undefined) /\
  BH.probe 1 (<[0%nat := mkElem high_key 1]> BH.new)
           (high_key + 128) 0 (to_int64 (high_key + 128)) = Undefined /\
  Z.rem (0 * 5 + to_int64 (high_key + 128) + 1) 128 = -127.
Proof.
  split; [lia |].
  split; [vm_compute; reflexivity |].
  split; [eexists; split; vm_compute; reflexivity |].
  split; vm_compute; reflexivity.
Qed.

(** ** Termination (C5) *)

(** C5.  A table with three slots in use, reached by three insertions,
    on which the lookup of the [uint64_t] key [2^64 - 46] never returns:
    [perturb] starts at -46 and settles at -1, the slots probed are
    82, 109, 32, and from then on [(32 * 5 + -1 + 1) % 128 = 32]. *)
Theorem C5_probe_runs_forever :
  (let* m1 := BH.insert BH.new 338 0 in
   let* m2 := BH.insert m1 365 0 in BH.insert m2 288 0) = Ok three_slots /\
  occupied three_slots = 3%nat /\
  is_u64 stuck_key /\
  orbit 5 (stuck_key mod 128, to_int64 stuck_key) = [109; 32; 32; 32; 32] /\
  BH.lookup three_slots stuck_key = Diverges /\
  forall n, BH.lookup_fuel n three_slots stuck_key = Diverges.
Proof.
  split; [vm_compute; reflexivity |].
  split; [vm_compute; reflexivity |].
  split; [unfold is_u64, stuck_key; lia |].
  split; [vm_compute; reflexivity |].
  split; [vm_compute; reflexivity |].
  apply lookup_diverges_forever; [unfold is_u64, stuck_key; lia |].
  vm_compute. reflexivity.
Qed.

(** ** Routing (C6) *)

Lemma lookup_fuel_new (n : nat) (k : Z) :
  BH.lookup_fuel n BH.new k = Ok (k mod 128).
Proof.
  unfold BH.lookup_fuel.
  pose proof (Z.mod_pos_bound k 128 ltac:(lia)) as Hi.
  assert (Hat : at_index BH.new (k mod 128) = Ok (mkElem 0 0)).
  { apply at_index_Ok. split; [lia |]. apply lookup_replicate_2. lia. }
  rewrite Hat. reflexivity.
Qed.

(** A wide character inserted into an empty vector reads back its bit,
    whatever its value: the first slot tried is free. *)
Lemma wide_insert_get (k pos : Z) :
  is_ascii k = false -> 0 <= pos < 64 ->
  exists s, PMV.insert PMV.new k pos = Ok s /\ PMV.get s k = Ok (2 ^ pos).
Proof.
  intros Hk Hpos. rewrite insert_as_mask by exact Hpos.
  assert (Hl : BH.lookup BH.new k = Ok (k mod 128)) by apply lookup_fuel_new.
  destruct (insert_mask_total BH.new k (2 ^ pos) _ Hl) as [m' Hm'].
  assert (Hs : or_mask PMV.new k (2 ^ pos) =
               Ok (PMV.mk m' (PMV.m_extendedAscii PMV.new))).
  { unfold or_mask. rewrite Hk.
    change (PMV.m_map PMV.new) with BH.new. rewrite Hm'. reflexivity. }
  rewrite Hs. eexists. split; [reflexivity |].
  pose proof (insert_mask_models_pmv _ _ pmv_models_new _ _ _ Hs) as Hm.
  assert (HA : upd (fun _ => 0) k (2 ^ pos) k = 2 ^ pos) by apply upd_same.
  rewrite (get_total_pmv _ _ Hm k); [rewrite HA; reflexivity |].
  right. left. rewrite HA. apply Z.pow_nonzero; lia.
Qed.

(** C6.  The routing itself is as claimed ([insert_range_positions] and
    [wide_insert_get] above), but the last part fails: with U+1F600 in the
    vector, the wide character [2^63] was never inserted, starts at the
    same slot 0, and its lookup leaves the array instead of returning 0. *)
Theorem C6_uninserted_high_bit_key :
  is_ascii emoji = false /\ is_ascii high_key = false /\
  is_u64 high_key /\ high_key <> emoji /\
  exists s, PMV.insert PMV.new emoji 0 = Ok s /\
            PMV.get s emoji = Ok 1 /\
            PMV.get s high_key = Undefined.
Proof.
  split; [reflexivity |]. split; [reflexivity |].
  split; [unfold is_u64, high_key; lia |].
  split; [unfold high_key, emoji; lia |].
  eexists. split; [vm_compute; reflexivity |].
  split; vm_compute; reflexivity.
Qed.

(** ** Patterns longer than 64 (C10) *)

(** Once the mask has been shifted out it stays 0. *)
Lemma masks_from_zero (n : nat) : masks_from 0 n = replicate n 0.
Proof. induction n as [|n IH]; [reflexivity |]. cbn [masks_from replicate]. f_equal. exact IH. Qed.

Lemma shl_u64_top : shl_u64 (2 ^ 63) = 0.
Proof. reflexivity. Qed.

Lemma upd_all_zeros (first : list Z) (A : Z -> Z) (q : Z) :
  upd_all (zip first (masks_from 0 (length first))) A q = A q.
Proof.
  apply upd_all_zero_mask. intros op Hop.
  apply list_elem_of_lookup_1 in Hop as [i Hi].
  apply lookup_zip_with_Some in Hi as [k [mask [-> [_ Hmask]]]].
  rewrite masks_from_zero in Hmask. apply lookup_replicate in Hmask as [-> _].
  reflexivity.
Qed.

Lemma upd_all_truncate (first : list Z) (j : nat) (A : Z -> Z) (q : Z) :
  (j < 64)%nat ->
  upd_all (zip first (masks_from (2 ^ Z.of_nat j) (length first))) A q =
  upd_all (zip (take (64 - j) first)
               (masks_from (2 ^ Z.of_nat j) (length (take (64 - j) first)))) A q.
Proof.
  revert j A. induction first as [|k rest IH]; intros j A Hj.
  - rewrite take_nil. reflexivity.
  - replace (64 - j)%nat with (S (63 - j)) by lia.
    cbn [take length masks_from zip zip_with]. rewrite !upd_all_cons.
    destruct (decide (j = 63%nat)) as [-> | Hne].
    + change (2 ^ Z.of_nat 63) with (2 ^ 63). rewrite shl_u64_top.
      cbn [Nat.sub take length masks_from zip zip_with upd_all fold_left].
      apply upd_all_zeros.
    + rewrite shl_u64_pow by lia.
      replace (Z.of_nat j + 1) with (Z.of_nat (S j)) by lia.
      replace (63 - j)%nat with (64 - S j)%nat by lia.
      apply IH. lia.
Qed.

Lemma mask_of_truncate (first : list Z) (q : Z) :
  mask_of (range_ops first) q = mask_of (range_ops (take 64 first)) q.
Proof. apply (upd_all_truncate first 0). lia. Qed.

(** On probe-safe characters positions 64 and beyond add nothing. *)
Lemma over_length_probe_safe (first : list Z) :
  Forall probe_safe first ->
  exists s s64, PMV.make first = Ok s /\
                PMV.make (take 64 first) = Ok s64 /\
                forall q, probe_safe q -> PMV.get s q = PMV.get s64 q.
Proof.
  intros Hsup. rewrite Forall_forall in Hsup. unfold PMV.make.
  rewrite !insert_range_apply.
  assert (Hcover : forall q, wide q = true -> mask_of (range_ops first) q <> 0 ->
                     q ∈ remove_dups (filter wide (take 64 first))).
  { intros q Hq HA. rewrite mask_of_truncate in HA.
    apply wide_keys_cover in HA; [| exact Hq].
    rewrite range_ops_keys in HA. exact HA. }
  assert (Hshort : (length (remove_dups (filter wide (take 64 first))) < 128)%nat).
  { pose proof (distinct_wide_le (take 64 first)) as H.
    unfold distinct_wide in H. rewrite length_take in H. lia. }
  destruct (apply_masks_total (range_ops first) PMV.new (fun _ => 0)
              (remove_dups (filter wide (take 64 first))) pmv_models_new)
    as [s Hs]; [| apply NoDup_remove_dups | exact Hshort | exact Hcover |].
  { intros op Hop. apply Hsup. rewrite <- (range_ops_keys first).
    apply list_elem_of_fmap. exists op. auto. }
  destruct (build_spec (range_ops (take 64 first))) as [s64 [Hs64 [Hm64 Hocc64]]].
  { intros op Hop. apply Hsup.
    assert (H : op.1 ∈ take 64 first).
    { rewrite <- (range_ops_keys (take 64 first)).
      apply list_elem_of_fmap. exists op. auto. }
    apply list_elem_of_lookup_1 in H as [i Hi].
    apply lookup_take_Some in Hi as [Hi _].
    eapply list_elem_of_lookup_2; eauto. }
  { rewrite range_ops_keys. pose proof (distinct_wide_le (take 64 first)) as H.
    rewrite length_take in H. lia. }
  exists s, s64. split; [exact Hs |]. split; [exact Hs64 |].
  intros q Hq. rewrite (build_get _ _ q Hs64 Hocc64 Hq).
  rewrite (build_get _ _ q Hs); [f_equal; apply mask_of_truncate | | exact Hq].
  pose proof (apply_masks_models _ _ _ _ pmv_models_new Hs) as Hm.
  apply Nat.le_lt_trans with (length (remove_dups (filter wide (take 64 first))));
    [| exact Hshort].
  apply (occupied_pmv s _ Hm); [apply NoDup_remove_dups | exact Hcover].
Qed.

(** C10.  A 65-character [uint64_t] pattern: 64 times the character 256
    and then [2^63].  Its first 64 characters are inserted and [get(256)]
    returns all 64 bits; the whole pattern is not inserted, because the
    lookup for the 65th character leaves the array. *)
Theorem C10_over_length_high_bit_pattern :
  length over_long = 65%nat /\ Forall is_u64 over_long /\
  (exists s64, PMV.make (take 64 over_long) = Ok s64 /\
               PMV.get s64 256 = Ok (2 ^ 64 - 1)) /\
  PMV.make over_long = Undefined.
Proof.
  split; [reflexivity |].
  split.
  - unfold over_long. apply Forall_app. split.
    + apply Forall_replicate. unfold is_u64. lia.
    + repeat constructor; unfold high_key; lia.
  - split; [eexists; split; vm_compute; reflexivity |].
    vm_compute. reflexivity.
Qed.

(** ** BlockPatternMatchVector represents one map per block *)

Lemma shl1_Ok (pos mask : Z) : shl1 pos = Ok mask -> 0 <= pos < 64 /\ mask = 2 ^ pos.
Proof.
  unfold shl1. destruct (Z.leb_spec 0 pos), (Z.ltb_spec pos 64); cbn [andb];
    try discriminate.
  intros [= <-]. rewrite Z.shiftl_1_l. split; [lia | reflexivity].
Qed.

Lemma column_major_injective (n b b' q k : Z) :
  0 <= b < n -> 0 <= b' < n -> q * n + b' = k * n + b -> q = k /\ b' = b.
Proof.
  intros Hb Hb' H.
  assert (Hq : (q * n + b') / n = q) by (rewrite Z.div_add_l by lia; rewrite Z.div_small; lia).
  assert (Hk : (k * n + b) / n = k) by (rewrite Z.div_add_l by lia; rewrite Z.div_small; lia).
  rewrite H, Hk in Hq. subst q. split; [reflexivity | lia].
Qed.

Lemma updb_same_block (A : Z -> Z -> Z) (b k mask : Z) :
  updb A b k mask b = upd (A b) k mask.
Proof. unfold updb. rewrite Z.eqb_refl. reflexivity. Qed.

Lemma updb_other_block (A : Z -> Z -> Z) (b k mask b' : Z) :
  b' <> b -> updb A b k mask b' = A b'.
Proof. intros H. unfold updb. destruct (Z.eqb_spec b' b); [contradiction | reflexivity]. Qed.

Lemma bpmv_models_fresh (n : nat) :
  bpmv_models (BPMV.mk (replicate n BH.new) (replicate (256 * n) 0) (Z.of_nat n))
              n (fun _ _ => 0).
Proof.
  split; cbn [BPMV.m_block_count BPMV.m_map BPMV.m_extendedAscii].
  - reflexivity.
  - intros b Hb. exists BH.new. split; [apply lookup_replicate_2, Hb |].
    apply (table_models_ext BH.new (fun _ => 0)); [| apply table_models_new].
    intros q. unfold wide_part. destruct (is_ascii q); reflexivity.
  - apply length_replicate.
  - intros b q Hb Hq. apply is_ascii_range in Hq.
    apply lookup_replicate_2. nia.
Qed.

Section Blocks.

Variables (s : BPMV.t) (n : nat) (A : Z -> Z -> Z).
Hypothesis HsA : bpmv_models s n A.

Lemma block_ascii_at (b : nat) (q : Z) :
  (b < n)%nat -> is_ascii q = true ->
  at_index (BPMV.m_extendedAscii s) (q * BPMV.m_block_count s + Z.of_nat b) =
  Ok (A (Z.of_nat b) q).
Proof.
  intros Hb Hq. rewrite (bm_count s n A HsA). apply at_index_Ok.
  split; [apply is_ascii_range in Hq; nia |].
  apply (bm_ascii s n A HsA b q Hb Hq).
Qed.

Lemma block_map_at (b : nat) :
  (b < n)%nat ->
  exists m, at_index (BPMV.m_map s) (Z.of_nat b) = Ok m /\
            BPMV.m_map s !! b = Some m /\
            table_models m (wide_part (A (Z.of_nat b))).
Proof.
  intros Hb. destruct (bm_maps s n A HsA b Hb) as [m [Hm HM]].
  exists m. split; [apply at_index_nat, Hm | auto].
Qed.

(** [insert(block, key, pos)] with a block index that is not negative
    realises [updb]. *)
Lemma block_insert_models (b : nat) (k pos : Z) (s' : BPMV.t) :
  BPMV.insert s (Z.of_nat b) k pos = Ok s' ->
  bpmv_models s' n (updb A (Z.of_nat b) k (2 ^ pos)).
Proof.
  unfold BPMV.insert.
  destruct (shl1 pos) as [mask| | |] eqn:Hsh; try discriminate. cbn [bind].
  apply shl1_Ok in Hsh as [Hpos ->].
  destruct (Z.ltb_spec (Z.of_nat b) (BPMV.m_block_count s)) as [Hb | Hb];
    [| discriminate].
  rewrite (bm_count s n A HsA) in Hb. assert (Hbn : (b < n)%nat) by lia.
  destruct (is_ascii k) eqn:Hk.
  - rewrite (block_ascii_at b k Hbn Hk). cbn [bind]. intros [= <-].
    pose proof Hk as Hkr. apply is_ascii_range in Hkr.
    split; cbn [BPMV.m_block_count BPMV.m_map BPMV.m_extendedAscii].
    + apply (bm_count s n A HsA).
    + intros b' Hb'. destruct (bm_maps s n A HsA b' Hb') as [m [Hm HM]].
      exists m. split; [exact Hm |].
      apply (table_models_ext _ (wide_part (A (Z.of_nat b')))); [| exact HM].
      intros q. unfold updb. destruct (Z.of_nat b' =? Z.of_nat b); [| reflexivity].
      rewrite wide_part_upd, Hk. reflexivity.
    + rewrite length_insert. apply (bm_length s n A HsA).
    + intros b' q Hb' Hq. pose proof Hq as Hqr. apply is_ascii_range in Hqr.
      rewrite (bm_count s n A HsA).
      destruct (decide (q = k /\ b' = b)) as [[-> ->] | Hne].
      * rewrite updb_same_block, upd_same.
        apply list_lookup_insert_eq. rewrite (bm_length s n A HsA). nia.
      * rewrite list_lookup_insert_ne.
        -- rewrite (bm_ascii s n A HsA b' q Hb' Hq). f_equal. unfold updb.
           destruct (Z.eqb_spec (Z.of_nat b') (Z.of_nat b)) as [Hbb | Hbb];
             [| reflexivity].
           symmetry. apply upd_other. intros ->. apply Hne. split; [reflexivity | lia].
        -- intros Heq. apply Hne.
           destruct (column_major_injective (Z.of_nat n) (Z.of_nat b) (Z.of_nat b') q k);
             [lia | lia | nia |]. split; [assumption | lia].
  - destruct (block_map_at b Hbn) as [m [Hat [Hm HM]]]. rewrite Hat. cbn [bind].
    destruct (BH.insert_mask m k (2 ^ pos)) as [m'| | |] eqn:Hi; try discriminate.
    cbn [bind]. intros [= <-].
    split; cbn [BPMV.m_block_count BPMV.m_map BPMV.m_extendedAscii].
    + apply (bm_count s n A HsA).
    + intros b' Hb'. rewrite Nat2Z.id. destruct (decide (b' = b)) as [-> | Hne].
      * exists m'. split; [apply list_lookup_insert_eq; eapply lookup_lt_Some; eauto |].
        rewrite updb_same_block.
        apply (table_models_ext _ (upd (wide_part (A (Z.of_nat b))) k (2 ^ pos))).
        -- intros q. rewrite wide_part_upd, Hk. reflexivity.
        -- eapply insert_mask_models; eauto.
      * destruct (bm_maps s n A HsA b' Hb') as [m0 [Hm0 HM0]].
        exists m0. split; [rewrite list_lookup_insert_ne by congruence; exact Hm0 |].
        rewrite updb_other_block by lia. exact HM0.
    + apply (bm_length s n A HsA).
    + intros b' q Hb' Hq. rewrite (bm_ascii s n A HsA b' q Hb' Hq). f_equal.
      unfold updb. destruct (Z.of_nat b' =? Z.of_nat b); [| reflexivity].
      symmetry. apply upd_other. congruence.
Qed.

(** [get(block, key)] returns the mask of a character that is in the
    direct table or has one, or is probe-safe with a free slot left. *)
Lemma block_get_total (b : nat) (q : Z) :
  (b < n)%nat ->
  is_ascii q = true \/ A (Z.of_nat b) q <> 0 \/
  (probe_safe q /\ forall m, BPMV.m_map s !! b = Some m -> (occupied m < 128)%nat) ->
  BPMV.get s (Z.of_nat b) q = Ok (A (Z.of_nat b) q).
Proof.
  intros Hb H. unfold BPMV.get.
  destruct (Z.ltb_spec (Z.of_nat b) (BPMV.m_block_count s)) as [_ | Hge];
    [| rewrite (bm_count s n A HsA) in Hge; lia].
  destruct (is_ascii q) eqn:Hq; [apply block_ascii_at; assumption |].
  destruct (block_map_at b Hb) as [m [Hat [Hm HM]]]. rewrite Hat. cbn [bind].
  assert (HA : A (Z.of_nat b) q = wide_part (A (Z.of_nat b)) q)
    by (unfold wide_part; rewrite Hq; reflexivity).
  rewrite HA. destruct H as [H | [H | [Hsafe Hocc]]]; [discriminate | |].
  - apply (get_present _ _ HM). congruence.
  - destruct (lookup_room m q) as [j Hj];
      [apply (tm_length _ _ HM) | apply Hocc, Hm | exact Hsafe |].
    apply (get_of_lookup _ _ HM q j Hj).
Qed.

Lemma block_get_sound (b : nat) (q v : Z) :
  BPMV.get s (Z.of_nat b) q = Ok v -> (b < n)%nat /\ v = A (Z.of_nat b) q.
Proof.
  unfold BPMV.get.
  destruct (Z.ltb_spec (Z.of_nat b) (BPMV.m_block_count s)) as [Hb | Hb];
    [| discriminate].
  rewrite (bm_count s n A HsA) in Hb. assert (Hbn : (b < n)%nat) by lia.
  destruct (is_ascii q) eqn:Hq.
  - rewrite (bm_count s n A HsA) in *.
    pose proof (block_ascii_at b q Hbn Hq) as Hat.
    rewrite (bm_count s n A HsA) in Hat. rewrite Hat. intros [= <-]. auto.
  - destruct (block_map_at b Hbn) as [m [Hat [Hm HM]]]. rewrite Hat. cbn [bind].
    intros H. apply (get_sound _ _ HM) in H. unfold wide_part in H.
    rewrite Hq in H. auto.
Qed.

Lemma block_insert_total (b : nat) (k pos : Z) :
  (b < n)%nat -> 0 <= pos < 64 ->
  is_ascii k = true \/ A (Z.of_nat b) k <> 0 \/
  (probe_safe k /\ forall m, BPMV.m_map s !! b = Some m -> (occupied m < 128)%nat) ->
  exists s', BPMV.insert s (Z.of_nat b) k pos = Ok s'.
Proof.
  intros Hb Hpos H. unfold BPMV.insert. rewrite shl1_pow by exact Hpos. cbn [bind].
  destruct (Z.ltb_spec (Z.of_nat b) (BPMV.m_block_count s)) as [_ | Hge];
    [| rewrite (bm_count s n A HsA) in Hge; lia].
  destruct (is_ascii k) eqn:Hk.
  - rewrite (block_ascii_at b k Hb Hk). cbn [bind]. eauto.
  - destruct (block_map_at b Hb) as [m [Hat [Hm HM]]]. rewrite Hat. cbn [bind].
    assert (Hl : exists j, BH.lookup m k = Ok j).
    { destruct H as [H | [H | [Hsafe Hocc]]]; [discriminate | |].
      - destruct (lookup_present _ _ HM k) as [j [e [Hl _]]];
          [unfold wide_part; rewrite Hk; exact H | eauto].
      - apply lookup_room; [apply (tm_length _ _ HM) | apply Hocc, Hm | exact Hsafe]. }
    destruct Hl as [j Hl].
    destruct (insert_mask_total m k (2 ^ pos) j Hl) as [m' Hm'].
    rewrite Hm'. cbn [bind]. eauto.
Qed.

Lemma block_occupied (b : nat) (m : list MapElem) (K : list Z) :
  (b < n)%nat -> BPMV.m_map s !! b = Some m ->
  NoDup K -> (forall q, wide q = true -> A (Z.of_nat b) q <> 0 -> q ∈ K) ->
  (occupied m <= length K)%nat.
Proof.
  intros Hb Hm HK Hin. destruct (bm_maps s n A HsA b Hb) as [m0 [Hm0 HM]].
  assert (m0 = m) by congruence. subst m0.
  apply (occupied_bound _ _ K HM HK).
  intros q. unfold wide_part, wide in *. specialize (Hin q).
  destruct (is_ascii q); [congruence | auto].
Qed.

End Blocks.

(** ** The loop of the blocked bulk insertion *)

Lemma quot_64_nat (j : nat) : Z.quot (Z.of_nat j) 64 = Z.of_nat (j / 64).
Proof.
  rewrite Z.quot_div_nonneg by lia. rewrite (Nat2Z.inj_div j 64). reflexivity.
Qed.

Lemma rem_64_nat (j : nat) : Z.rem (Z.of_nat j) 64 = Z.of_nat (j mod 64).
Proof.
  rewrite Z.rem_mod_nonneg by lia. rewrite (Nat2Z.inj_mod j 64). reflexivity.
Qed.

Lemma ceildiv_64_nat (len : nat) :
  ceildiv (Z.of_nat len) 64 = Z.of_nat (spec_block_count len).
Proof.
  unfold ceildiv, spec_block_count.
  rewrite Z.quot_div_nonneg, Z.rem_mod_nonneg by lia.
  rewrite (Nat2Z.inj_div (len + 63) 64), Nat2Z.inj_add.
  change (Z.of_nat 63) with 63. change (Z.of_nat 64) with 64.
  pose proof (Z.div_mod (Z.of_nat len) 64 ltac:(lia)) as Hdm.
  pose proof (Z.mod_pos_bound (Z.of_nat len) 64 ltac:(lia)) as Hm.
  destruct (Z.eqb_spec (Z.of_nat len mod 64) 0) as [H0 | H0].
  - apply (Z.div_unique _ _ _ 63); lia.
  - apply (Z.div_unique _ _ _ (Z.of_nat len mod 64 - 1)); lia.
Qed.

Lemma resize_nil {X : Type} (n : nat) (d : X) : resize (Z.of_nat n) d [] = replicate n d.
Proof.
  unfold resize. rewrite take_nil, Nat2Z.id. cbn [length app]. f_equal. lia.
Qed.

Lemma insert_loop_calls (first : list Z) (i : Z) (s : BPMV.t) :
  BPMV.insert_loop first i s = insert_calls (block_calls first i) s.
Proof.
  revert i s. induction first as [|k rest IH]; intros i s; [reflexivity |].
  cbn [BPMV.insert_loop block_calls insert_calls c_block c_key c_pos].
  destruct (BPMV.insert s (Z.quot i 64) k (Z.rem i 64)); cbn [bind];
    [apply IH | reflexivity..].
Qed.

Lemma block_calls_imap (first : list Z) (j : nat) :
  block_calls first (Z.of_nat j) =
  imap (fun i k => mkCall (Z.of_nat ((j + i) / 64)) k (Z.of_nat ((j + i) mod 64)))
       first.
Proof.
  revert j. induction first as [|k rest IH]; intros j; [reflexivity |].
  cbn [block_calls]. rewrite imap_cons, Nat.add_0_r, quot_64_nat, rem_64_nat.
  f_equal. replace (Z.of_nat j + 1) with (Z.of_nat (S j)) by lia.
  rewrite IH. apply imap_ext. intros i x _. cbn.
  replace (j + S i)%nat with (S (j + i)) by lia. reflexivity.
Qed.

Lemma block_calls_spec (first : list Z) : block_calls first 0 = spec_calls first.
Proof. apply (block_calls_imap first 0). Qed.

(** The bulk insertion is the one the specification describes. *)
Lemma make_as_specified (first : list Z) :
  BPMV.make first = spec_insert_range first.
Proof.
  unfold BPMV.make, BPMV.insert_range, spec_insert_range.
  rewrite insert_loop_calls, block_calls_spec, ceildiv_64_nat.
  cbn [BPMV.new BPMV.m_map BPMV.m_extendedAscii].
  rewrite resize_nil.
  replace (Z.of_nat (spec_block_count (length first)) * 256)
    with (Z.of_nat (256 * spec_block_count (length first))) by lia.
  rewrite resize_nil. reflexivity.
Qed.

Lemma spec_calls_member (first : list Z) (c : call) :
  c ∈ spec_calls first <->
  exists t : nat, first !! t = Some (c_key c) /\
                  c_block c = Z.of_nat (t / 64) /\ c_pos c = Z.of_nat (t mod 64).
Proof.
  unfold spec_calls. rewrite list_elem_of_lookup. split.
  - intros [t Ht]. rewrite list_lookup_imap in Ht.
    destruct (first !! t) as [k|] eqn:Hk; [| discriminate].
    injection Ht as <-. exists t. auto.
  - intros [t [Hk [Hb Hp]]]. exists t. rewrite list_lookup_imap, Hk. cbn.
    f_equal. destruct c as [b k p]. cbn in *. congruence.
Qed.

Lemma updb_all_cons (c : call) (calls : list call) (A : Z -> Z -> Z) :
  updb_all (c :: calls) A = updb_all calls (updb A (c_block c) (c_key c) (2 ^ c_pos c)).
Proof. reflexivity. Qed.

Lemma updb_cases (A : Z -> Z -> Z) (b k mask b' q : Z) :
  updb A b k mask b' q =
  if (b' =? b) && (q =? k) then Z.lor (A b' q) mask else A b' q.
Proof. unfold updb, upd. destruct (b' =? b), (q =? k); reflexivity. Qed.

Lemma updb_all_mono (calls : list call) (A : Z -> Z -> Z) (b q : Z) :
  A b q <> 0 -> updb_all calls A b q <> 0.
Proof.
  revert A. induction calls as [|c calls IH]; intros A H; [exact H |].
  rewrite updb_all_cons. apply IH. rewrite updb_cases.
  destruct ((b =? c_block c) && (q =? c_key c)); [| exact H].
  rewrite Z.lor_eq_0_iff. tauto.
Qed.

Lemma updb_all_key (calls : list call) (A : Z -> Z -> Z) (b q : Z) :
  updb_all calls A b q <> 0 ->
  A b q <> 0 \/ exists c, c ∈ calls /\ c_block c = b /\ c_key c = q.
Proof.
  revert A. induction calls as [|c calls IH]; intros A H; [left; exact H |].
  rewrite updb_all_cons in H. destruct (IH _ H) as [H1 | [c' [Hc' H1]]].
  - rewrite updb_cases in H1.
    destruct (Z.eqb_spec b (c_block c)), (Z.eqb_spec q (c_key c)); cbn [andb] in H1;
      auto.
    right. exists c. split; [left | auto].
  - right. exists c'. split; [right; exact Hc' | exact H1].
Qed.

Lemma updb_all_testbit (calls : list call) (A : Z -> Z -> Z) (b q j : Z) :
  Z.testbit (updb_all calls A b q) j = true <->
  Z.testbit (A b q) j = true \/
  exists c, c ∈ calls /\ c_block c = b /\ c_key c = q /\
            Z.testbit (2 ^ c_pos c) j = true.
Proof.
  revert A. induction calls as [|c calls IH]; intros A.
  - cbn. split; [auto |]. intros [H | [c [Hc _]]]; [exact H |].
    apply elem_of_nil in Hc. contradiction.
  - rewrite updb_all_cons, IH, updb_cases. split.
    + intros [H | [c' [Hc' H]]].
      * destruct (Z.eqb_spec b (c_block c)), (Z.eqb_spec q (c_key c));
          cbn [andb] in H; auto.
        rewrite Z.lor_spec, orb_true_iff in H. destruct H as [H | H]; [auto |].
        right. exists c. split; [left | auto].
      * right. exists c'. split; [right; exact Hc' | exact H].
    + intros [H | [c' [Hc' [Hb [Hk Hbit]]]]].
      * left. destruct ((b =? c_block c) && (q =? c_key c)); [| exact H].
        rewrite Z.lor_spec, H. reflexivity.
      * apply elem_of_cons in Hc' as [-> | Hc'].
        -- left. rewrite Hb, Hk, !Z.eqb_refl. cbn [andb].
           rewrite Z.lor_spec, Hbit. apply orb_true_r.
        -- right. exists c'. auto.
Qed.

Lemma insert_calls_models (calls : list call) (s s' : BPMV.t) (n : nat)
      (A : Z -> Z -> Z) :
  bpmv_models s n A ->
  (forall c, c ∈ calls -> 0 <= c_block c) ->
  insert_calls calls s = Ok s' ->
  bpmv_models s' n (updb_all calls A).
Proof.
  revert s A. induction calls as [|c calls IH]; intros s A HsA Hnn.
  - intros [= <-]. exact HsA.
  - cbn [insert_calls].
    destruct (BPMV.insert s (c_block c) (c_key c) (c_pos c)) as [s1| | |] eqn:H1;
      try discriminate.
    cbn [bind]. rewrite updb_all_cons. apply IH.
    + assert (Hb : exists b : nat, c_block c = Z.of_nat b).
      { exists (Z.to_nat (c_block c)). pose proof (Hnn c ltac:(left)). lia. }
      destruct Hb as [b Hb]. rewrite Hb in H1 |- *.
      eapply block_insert_models; eauto.
    + intros c' Hc'. apply Hnn. right. exact Hc'.
Qed.

(** A run of calls returns when every block index is in range, the
    characters are probe-safe, and in each block the wide characters that
    end with a mask number fewer than 128. *)
Lemma insert_calls_total (calls : list call) (s : BPMV.t) (n : nat)
      (A : Z -> Z -> Z) :
  bpmv_models s n A ->
  (forall c, c ∈ calls ->
     0 <= c_block c < Z.of_nat n /\ probe_safe (c_key c) /\ 0 <= c_pos c < 64) ->
  (forall b : nat, (b < n)%nat ->
     exists K, NoDup K /\ (length K < 128)%nat /\
               forall q, wide q = true -> updb_all calls A (Z.of_nat b) q <> 0 -> q ∈ K) ->
  exists s', insert_calls calls s = Ok s'.
Proof.
  revert s A. induction calls as [|c calls IH]; intros s A HsA Hc HK;
    [cbn; eauto |].
  cbn [insert_calls].
  destruct (Hc c ltac:(left)) as [Hb [Hsup Hpos]].
  assert (Hbz : exists b : nat, c_block c = Z.of_nat b /\ (b < n)%nat).
  { exists (Z.to_nat (c_block c)). lia. }
  destruct Hbz as [b [Hbz Hbn]]. rewrite Hbz.
  destruct (block_insert_total s n A HsA b (c_key c) (c_pos c) Hbn Hpos) as [s1 H1].
  { right. right. split; [apply Hsup |].
    intros m Hm. destruct (HK _ Hbn) as [K [HKnd [HKlen HKin]]].
    apply Nat.le_lt_trans with (length K); [| exact HKlen].
    apply (block_occupied s n A HsA _ m K Hbn Hm HKnd).
    intros q Hq HA. apply HKin; [exact Hq |].
    rewrite updb_all_cons. apply updb_all_mono. rewrite updb_cases.
    destruct ((Z.of_nat b =? c_block c) && (q =? c_key c)); [| exact HA].
    rewrite Z.lor_eq_0_iff. tauto. }
  rewrite H1. cbn [bind].
  apply (IH s1 (updb A (c_block c) (c_key c) (2 ^ c_pos c))).
  - rewrite Hbz. eapply block_insert_models; eauto.
  - intros c' Hc'. apply Hc. right. exact Hc'.
  - intros b' Hbb. destruct (HK b' Hbb) as [K HKb]. exists K. exact HKb.
Qed.

(** ** Block boundaries (C4) *)

Lemma block_index_bound (t len : nat) :
  (t < len)%nat -> (t / 64 < spec_block_count len)%nat.
Proof.
  intros H. unfold spec_block_count. apply Nat.Div0.div_lt_upper_bound.
  pose proof (Nat.div_mod_eq (len + 63) 64) as Hdm.
  pose proof (Nat.mod_upper_bound (len + 63) 64 ltac:(lia)). lia.
Qed.

Lemma length_remove_dups_le (l : list Z) : (length (remove_dups l) <= length l)%nat.
Proof.
  apply submseteq_length, NoDup_submseteq; [apply NoDup_remove_dups |].
  intros x. apply elem_of_remove_dups.
Qed.

Lemma chunk_member (first : list Z) (t : nat) (q : Z) :
  first !! t = Some q -> q ∈ take 64 (drop (64 * (t / 64)) first).
Proof.
  intros Hq. apply list_elem_of_lookup. exists (t mod 64)%nat.
  pose proof (Nat.mod_upper_bound t 64 ltac:(lia)).
  rewrite lookup_take_lt by lia. rewrite lookup_drop.
  rewrite <- Nat.div_mod_eq. exact Hq.
Qed.

Lemma block_make_models (first : list Z) (s : BPMV.t) :
  BPMV.make first = Ok s ->
  bpmv_models s (spec_block_count (length first))
              (updb_all (spec_calls first) (fun _ _ => 0)).
Proof.
  rewrite make_as_specified. unfold spec_insert_range.
  apply insert_calls_models; [apply bpmv_models_fresh |].
  intros c Hc. apply spec_calls_member in Hc as [t [_ [-> _]]]. lia.
Qed.

(** The bulk insertion of probe-safe characters returns: a block is given
    at most 64 of them. *)
Lemma block_make_total (first : list Z) :
  Forall probe_safe first -> exists s, BPMV.make first = Ok s.
Proof.
  intros Hsup. rewrite Forall_forall in Hsup.
  rewrite make_as_specified. unfold spec_insert_range.
  apply (insert_calls_total _ _ _ _ (bpmv_models_fresh _)).
  - intros c Hc. apply spec_calls_member in Hc as [t [Hk [Hb Hp]]].
    pose proof (block_index_bound t (length first) (lookup_lt_Some _ _ _ Hk)).
    pose proof (Nat.mod_upper_bound t 64 ltac:(lia)).
    split; [lia |]. split; [| lia].
    apply Hsup. eapply list_elem_of_lookup_2; eauto.
  - intros b Hb. exists (remove_dups (take 64 (drop (64 * b) first))).
    split; [apply NoDup_remove_dups |]. split.
    + pose proof (length_remove_dups_le (take 64 (drop (64 * b) first))) as H.
      rewrite length_take in H. lia.
    + intros q _ HA. apply elem_of_remove_dups.
      apply updb_all_key in HA as [HA | [c [Hc [Hcb Hck]]]]; [contradiction |].
      apply spec_calls_member in Hc as [t [Hk [Hbt _]]].
      rewrite Hck in Hk. rewrite Hbt in Hcb. apply Nat2Z.inj in Hcb. subst b.
      apply chunk_member, Hk.
Qed.

Lemma block_mask_bit (first : list Z) (b q : Z) (j : nat) :
  Z.testbit (updb_all (spec_calls first) (fun _ _ => 0) b q) (Z.of_nat j) = true <->
  exists t : nat, first !! t = Some q /\ b = Z.of_nat (t / 64) /\ j = (t mod 64)%nat.
Proof.
  rewrite updb_all_testbit. split.
  - intros [H | [c [Hc [Hb [Hk Hbit]]]]]; [rewrite Z.bits_0 in H; discriminate |].
    apply spec_calls_member in Hc as [t [Hq [Hbt Hp]]].
    exists t. rewrite Hk in Hq. split; [exact Hq |]. split; [congruence |].
    rewrite Hp, Z.pow2_bits_eqb in Hbit by lia. apply Z.eqb_eq in Hbit. lia.
  - intros [t [Hq [-> ->]]]. right.
    exists (mkCall (Z.of_nat (t / 64)) q (Z.of_nat (t mod 64))).
    split; [apply spec_calls_member; exists t; auto |].
    cbn [c_block c_key c_pos]. split; [reflexivity |]. split; [reflexivity |].
    apply Z.pow2_bits_true. lia.
Qed.

Lemma block_round_trip (first : list Z) (s : BPMV.t) (i : nat) (k : Z) :
  BPMV.make first = Ok s -> first !! i = Some k ->
  exists v, BPMV.get s (Z.of_nat (i / 64)) k = Ok v /\
            Z.testbit v (Z.of_nat (i mod 64)) = true.
Proof.
  intros Hs Hk. pose proof (block_make_models first s Hs) as Hm.
  assert (Hbit : Z.testbit (updb_all (spec_calls first) (fun _ _ => 0)
                              (Z.of_nat (i / 64)) k) (Z.of_nat (i mod 64)) = true).
  { apply block_mask_bit. exists i. auto. }
  eexists. split; [| exact Hbit].
  apply (block_get_total _ _ _ Hm).
  - apply block_index_bound. eapply lookup_lt_Some; eauto.
  - right. left. intros H0. rewrite H0, Z.bits_0 in Hbit. discriminate.
Qed.

Lemma block_bit_origin (first : list Z) (s : BPMV.t) (b j : nat) (q v : Z) :
  BPMV.make first = Ok s ->
  BPMV.get s (Z.of_nat b) q = Ok v -> Z.testbit v (Z.of_nat j) = true ->
  (j < 64)%nat /\ first !! (64 * b + j)%nat = Some q.
Proof.
  intros Hs Hg Hbit. pose proof (block_make_models first s Hs) as Hm.
  destruct (block_get_sound _ _ _ Hm b q v Hg) as [_ ->].
  apply block_mask_bit in Hbit as [t [Hq [Hb ->]]].
  apply Nat2Z.inj in Hb. subst b.
  pose proof (Nat.mod_upper_bound t 64 ltac:(lia)).
  split; [lia |]. rewrite <- Nat.div_mod_eq. exact Hq.
Qed.

Lemma block_insert_count (s s' : BPMV.t) (block k pos : Z) :
  BPMV.insert s block k pos = Ok s' ->
  BPMV.m_block_count s' = BPMV.m_block_count s.
Proof.
  unfold BPMV.insert. destruct (shl1 pos) as [mask| | |]; try discriminate.
  cbn [bind]. destruct (block <? BPMV.m_block_count s); [| discriminate].
  destruct (is_ascii k).
  - destruct (at_index (BPMV.m_extendedAscii s) _) as [v| | |]; try discriminate.
    cbn [bind]. intros [= <-]. reflexivity.
  - destruct (at_index (BPMV.m_map s) block) as [m| | |]; try discriminate.
    cbn [bind]. destruct (BH.insert_mask m k mask) as [m'| | |]; try discriminate.
    cbn [bind]. intros [= <-]. reflexivity.
Qed.

Lemma block_loop_count (first : list Z) (i : Z) (s s' : BPMV.t) :
  BPMV.insert_loop first i s = Ok s' ->
  BPMV.m_block_count s' = BPMV.m_block_count s.
Proof.
  revert i s. induction first as [|k rest IH]; intros i s.
  - intros [= <-]. reflexivity.
  - cbn [BPMV.insert_loop].
    destruct (BPMV.insert s (Z.quot i 64) k (Z.rem i 64)) as [s1| | |] eqn:H1;
      try discriminate.
    cbn [bind]. intros H. rewrite (IH _ _ H). apply (block_insert_count _ _ _ _ _ H1).
Qed.

(** Whatever vector the bulk insertion starts from, it leaves the block
    count at the ceiling of [length / 64]. *)
Lemma insert_range_count (first : list Z) (s0 s : BPMV.t) :
  BPMV.insert_range first s0 = Ok s ->
  BPMV.m_block_count s = Z.of_nat ((length first + 63) / 64).
Proof.
  unfold BPMV.insert_range. intros H. rewrite (block_loop_count _ _ _ _ H).
  cbn [BPMV.m_block_count]. apply ceildiv_64_nat.
Qed.

Lemma block_calls_at (first : list Z) (i : nat) (k : Z) :
  first !! i = Some k ->
  block_calls first 0 !! i =
  Some (mkCall (Z.of_nat (i / 64)) k (Z.of_nat (i mod 64))).
Proof.
  intros Hk. rewrite block_calls_spec. unfold spec_calls.
  rewrite list_lookup_imap, Hk. reflexivity.
Qed.

(** C4 (block boundary).  The bulk insertion of the blocked vector sets
    the block count to [ceildiv(L, 64)], which is [ceil(L / 64)], and then
    calls [insert(i / 64, p[i], i mod 64)] for the positions in order:
    it is the insertion the specification describes.  This holds for
    every pattern.  On every pattern of probe-safe characters it returns,
    and whenever it returns the block count is [ceil(L / 64)],
    [get(i / 64, p[i])] has bit [i mod 64] set, and a bit [j] read in block
    [b] for [q] comes from [p[64 b + j] = q].  For a 130-character pattern
    this gives 3 blocks, position 63 in block 0 bit 63, position 64 in
    block 1 bit 0, and position 129 in block 2 bit 1. *)
Theorem C4_block_boundary (first : list Z) :
  ceildiv (Z.of_nat (length first)) 64 = Z.of_nat ((length first + 63) / 64) /\
  (forall s0, BPMV.insert_range first s0 =
     insert_calls (block_calls first 0)
       (BPMV.mk (resize (ceildiv (Z.of_nat (length first)) 64) BH.new (BPMV.m_map s0))
                (resize (ceildiv (Z.of_nat (length first)) 64 * 256) 0
                        (BPMV.m_extendedAscii s0))
                (ceildiv (Z.of_nat (length first)) 64))) /\
  (forall (i : nat) (k : Z), first !! i = Some k ->
     block_calls first 0 !! i =
     Some (mkCall (Z.of_nat (i / 64)) k (Z.of_nat (i mod 64)))) /\
  BPMV.make first = spec_insert_range first /\
  (forall s0 s, BPMV.insert_range first s0 = Ok s ->
     BPMV.m_block_count s = Z.of_nat ((length first + 63) / 64)) /\
  (Forall probe_safe first -> exists s, BPMV.make first = Ok s) /\
  (forall s, BPMV.make first = Ok s ->
     (forall (i : nat) (k : Z), first !! i = Some k ->
        exists v, BPMV.get s (Z.of_nat (i / 64)) k = Ok v /\
                  Z.testbit v (Z.of_nat (i mod 64)) = true) /\
     (forall (b j : nat) (q v : Z),
        BPMV.get s (Z.of_nat b) q = Ok v -> Z.testbit v (Z.of_nat j) = true ->
        (j < 64)%nat /\ first !! (64 * b + j)%nat = Some q)) /\
  (length first = 130%nat ->
     ceildiv (Z.of_nat (length first)) 64 = 3 /\
     (forall k, first !! 63%nat = Some k ->
        block_calls first 0 !! 63%nat = Some (mkCall 0 k 63)) /\
     (forall k, first !! 64%nat = Some k ->
        block_calls first 0 !! 64%nat = Some (mkCall 1 k 0)) /\
     (forall k, first !! 129%nat = Some k ->
        block_calls first 0 !! 129%nat = Some (mkCall 2 k 1)) /\
     forall s, BPMV.make first = Ok s ->
       BPMV.m_block_count s = 3 /\
       (forall k, first !! 63%nat = Some k ->
          exists v, BPMV.get s 0 k = Ok v /\ Z.testbit v 63 = true) /\
       (forall k, first !! 64%nat = Some k ->
          exists v, BPMV.get s 1 k = Ok v /\ Z.testbit v 0 = true) /\
       (forall k, first !! 129%nat = Some k ->
          exists v, BPMV.get s 2 k = Ok v /\ Z.testbit v 1 = true)).
Proof.
  split; [apply ceildiv_64_nat |].
  split; [intros s0; apply insert_loop_calls |].
  split; [apply block_calls_at |].
  split; [apply make_as_specified |].
  split; [apply insert_range_count |].
  split; [apply block_make_total |].
  split.
  - intros s Hs. split.
    + intros i k Hk. apply (block_round_trip first s i k Hs Hk).
    + intros b j q v Hg Hbit. apply (block_bit_origin first s b j q v Hs Hg Hbit).
  - intros Hlen. split; [rewrite Hlen; reflexivity |].
    split; [intros k Hk; apply (block_calls_at first 63 k Hk) |].
    split; [intros k Hk; apply (block_calls_at first 64 k Hk) |].
    split; [intros k Hk; apply (block_calls_at first 129 k Hk) |].
    intros s Hs. split; [| split; [| split]].
    + rewrite (bm_count _ _ _ (block_make_models first s Hs)), Hlen. reflexivity.
    + intros k Hk. apply (block_round_trip first s 63 k Hs Hk).
    + intros k Hk. apply (block_round_trip first s 64 k Hs Hk).
    + intros k Hk. apply (block_round_trip first s 129 k Hs Hk).
Qed.

Lemma alphabet5_probe_safe : Forall probe_safe alphabet5.
Proof.
  apply Forall_forall. intros k Hk. apply list_elem_of_In in Hk.
  unfold alphabet5 in Hk. apply in_map_iff in Hk as [i [<- _]].
  pose proof (Nat.mod_upper_bound i 26 ltac:(lia)).
  unfold probe_safe. lia.
Qed.

(** C4 at the 130-character pattern [alphabet5]: "L" is at position 63,
    "M" at 64 and "Z" at 129. *)
Lemma C4_block_boundary_witness :
  exists s, BPMV.make alphabet5 = Ok s /\
            BPMV.m_block_count s = 3 /\
            (exists v, BPMV.get s 0 76 = Ok v /\ Z.testbit v 63 = true) /\
            (exists v, BPMV.get s 1 77 = Ok v /\ Z.testbit v 0 = true) /\
            (exists v, BPMV.get s 2 90 = Ok v /\ Z.testbit v 1 = true).
Proof.
  destruct (C4_block_boundary alphabet5) as [_ [_ [_ [_ [_ [Htotal [_ H130]]]]]]].
  destruct (Htotal alphabet5_probe_safe) as [s Hs].
  destruct (H130 eq_refl) as [_ [_ [_ [_ Hbuilt]]]].
  destruct (Hbuilt s Hs) as [Hcount [H63 [H64 H129]]].
  exists s. split; [exact Hs |]. split; [exact Hcount |].
  split; [apply H63; reflexivity |].
  split; [apply H64; reflexivity | apply H129; reflexivity].
Defined.

(** ** Block index checks (C7) *)

(** The assertion does catch a block index at or above the block count. *)
Lemma block_index_too_large (s : BPMV.t) (block k pos : Z) :
  0 <= pos < 64 -> BPMV.m_block_count s <= block ->
  BPMV.insert s block k pos = AssertFail /\ BPMV.get s block k = AssertFail.
Proof.
  intros Hpos Hb. unfold BPMV.insert, BPMV.get. rewrite shl1_pow by exact Hpos.
  cbn [bind]. destruct (Z.ltb_spec block (BPMV.m_block_count s)); [lia | auto].
Qed.

(** C7.  The assertion [block < m_block_count] does not catch a negative
    block index.  In the one-block vector built from "A", block -1 is
    outside [[0, 1)], yet [get(-1, 5)] reads and [insert(-1, 5, 0)] writes
    the cell [5 * 1 + (-1) = 4] of the direct table, which belongs to the
    character 4: afterwards [get(0, 4)] returns 1 for a character that was
    never inserted. *)
Theorem C7_negative_block_not_caught :
  BPMV.make [65] = Ok one_block /\
  BPMV.m_block_count one_block = 1 /\
  ~ (0 <= -1 < BPMV.m_block_count one_block) /\
  BPMV.get one_block 0 4 = Ok 0 /\
  BPMV.get one_block (-1) 5 = Ok 0 /\
  exists s', BPMV.insert one_block (-1) 5 0 = Ok s' /\
             BPMV.get s' 0 4 = Ok 1.
Proof.
  split; [vm_compute; reflexivity |].
  split; [reflexivity |].
  split; [cbn; lia |].
  split; [vm_compute; reflexivity |].
  split; [vm_compute; reflexivity |].
  eexists. split; vm_compute; reflexivity.
Qed.

(** * Pattern match vectors: further properties *)

(** ** The masks of a bulk insertion, bit by bit *)

Lemma masks_from_lookup (n j i : nat) :
  (j < 64)%nat -> (i < n)%nat ->
  masks_from (2 ^ Z.of_nat j) n !! i =
  Some (if (j + i <? 64)%nat then 2 ^ Z.of_nat (j + i) else 0).
Proof.
  revert j i. induction n as [|n IH]; intros j i Hj Hi; [lia |].
  cbn [masks_from]. destruct i as [|i].
  - rewrite lookup_cons, Nat.add_0_r.
    destruct (Nat.ltb_spec j 64); [reflexivity | lia].
  - rewrite lookup_cons. destruct (decide (j = 63%nat)) as [-> | Hne].
    + change (2 ^ Z.of_nat 63) with (2 ^ 63). rewrite shl_u64_top, masks_from_zero.
      rewrite lookup_replicate_2 by lia.
      destruct (Nat.ltb_spec (63 + S i) 64); [lia | reflexivity].
    + rewrite shl_u64_pow by lia.
      replace (Z.of_nat j + 1) with (Z.of_nat (S j)) by lia.
      rewrite IH by lia.
      replace (S j + i)%nat with (j + S i)%nat by lia. reflexivity.
Qed.

Lemma range_mask_bit (first : list Z) (q : Z) (i : nat) :
  Z.testbit (mask_of (range_ops first) q) (Z.of_nat i) = true <->
  (i < 64)%nat /\ first !! i = Some q.
Proof.
  unfold mask_of. rewrite upd_all_testbit. split.
  - intros [H | [op [Hop [Hq Hbit]]]]; [rewrite Z.bits_0 in H; discriminate |].
    apply list_elem_of_lookup_1 in Hop as [t Ht].
    apply lookup_zip_with_Some in Ht as [k [mask [-> [Hk Hmask]]]].
    cbn [fst snd] in Hq, Hbit. subst k.
    rewrite (masks_from_lookup _ 0 t) in Hmask
      by (first [lia | apply lookup_lt_Some in Hk; exact Hk]).
    injection Hmask as <-. cbn [Nat.add] in Hbit.
    destruct (Nat.ltb_spec t 64) as [Ht | Ht];
      [| rewrite Z.bits_0 in Hbit; discriminate].
    rewrite Z.pow2_bits_eqb in Hbit by lia.
    apply Z.eqb_eq in Hbit. apply Nat2Z.inj in Hbit. subst t. auto.
  - intros [Hi Hq]. right. exists (q, 2 ^ Z.of_nat i).
    split; [| split; [reflexivity |]].
    + apply (range_ops_member first 0 i q); [lia | exact Hq].
    + cbn [snd]. apply Z.pow2_bits_true. lia.
Qed.

(** A pattern of probe-safe characters is inserted, whatever its length,
    and [get] returns the OR of the masks given with the character. *)
Lemma make_get_mask (first : list Z) :
  Forall probe_safe first ->
  exists s, PMV.make first = Ok s /\
            forall q, probe_safe q -> PMV.get s q = Ok (mask_of (range_ops first) q).
Proof.
  intros Hsup.
  destruct (over_length_probe_safe first Hsup) as [s [s64 [Hs [Hs64 Hget]]]].
  exists s. split; [exact Hs |]. intros q Hq.
  rewrite Hget by exact Hq. rewrite mask_of_truncate.
  unfold PMV.make in Hs64. rewrite insert_range_apply in Hs64.
  apply build_get; [exact Hs64 | | exact Hq].
  assert (Hm : pmv_models s64 (mask_of (range_ops (take 64 first)))).
  { apply (apply_masks_models _ _ _ _ pmv_models_new Hs64). }
  apply Nat.le_lt_trans with (length (remove_dups (filter wide (take 64 first)))).
  - apply (occupied_pmv s64 _ Hm); [apply NoDup_remove_dups |].
    intros r Hr HA. rewrite <- (range_ops_keys (take 64 first)).
    apply wide_keys_cover; assumption.
  - pose proof (distinct_wide_le (take 64 first)) as H.
    unfold distinct_wide in H. rewrite length_take in H. lia.
Qed.

(** X1. The mask of a pattern, exactly. A pattern of probe-safe characters,
    of any length, is inserted by the constructor, and for every probe-safe
    character [q] bit [i] of [get(q)] is set exactly when [i < 64] and the
    pattern has [q] at position [i]. *)
Theorem pattern_mask_exact (first : list Z) :
  Forall probe_safe first ->
  exists s, PMV.make first = Ok s /\
    forall q, probe_safe q ->
      exists v, PMV.get s q = Ok v /\
        forall i : nat, Z.testbit v (Z.of_nat i) = true <->
                        (i < 64)%nat /\ first !! i = Some q.
Proof.
  intros Hsup. destruct (make_get_mask first Hsup) as [s [Hs Hget]].
  exists s. split; [exact Hs |]. intros q Hq.
  exists (mask_of (range_ops first) q).
  split; [apply Hget, Hq | intros i; apply range_mask_bit].
Qed.

(** X1 at the pattern "H", U+20AC, "H". *)
Lemma pattern_mask_exact_witness :
  exists s, PMV.make [72; 8364; 72] = Ok s /\
    forall q, probe_safe q ->
      exists v, PMV.get s q = Ok v /\
        forall i : nat, Z.testbit v (Z.of_nat i) = true <->
                        (i < 64)%nat /\ [72; 8364; 72] !! i = Some q.
Proof.
  apply (pattern_mask_exact [72; 8364; 72]).
  repeat constructor; unfold probe_safe; lia.
Defined.

(** ** The order of the insertions *)

Lemma keys_of_perm (l1 l2 : list action) :
  l1 ≡ₚ l2 -> keys_of l1 ≡ₚ keys_of l2.
Proof.
  induction 1 as [|a l1 l2 _ IH|a b l|l1 l2 l3 _ IH1 _ IH2]; cbn [keys_of].
  - reflexivity.
  - rewrite IH. reflexivity.
  - rewrite !app_assoc. f_equiv. apply Permutation_app_comm.
  - etransitivity; eauto.
Qed.

Lemma ops_of_perm (l1 l2 : list action) :
  l1 ≡ₚ l2 -> ops_of l1 ≡ₚ ops_of l2.
Proof.
  induction 1 as [|a l1 l2 _ IH|a b l|l1 l2 l3 _ IH1 _ IH2]; cbn [ops_of].
  - reflexivity.
  - rewrite IH. reflexivity.
  - rewrite !app_assoc. f_equiv. apply Permutation_app_comm.
  - etransitivity; eauto.
Qed.

Lemma mask_of_perm (ops1 ops2 : list (Z * Z)) (q : Z) :
  ops1 ≡ₚ ops2 -> mask_of ops1 q = mask_of ops2 q.
Proof.
  intros Hp. apply Z.bits_inj'. intros b _.
  apply eq_true_iff_eq. unfold mask_of. rewrite !upd_all_testbit.
  split; (intros [H | [op [Hop H]]]; [left; exact H | right; exists op; split; [| exact H]]).
  - rewrite <- Hp. exact Hop.
  - rewrite Hp. exact Hop.
Qed.

Lemma distinct_wide_perm (ks1 ks2 : list Z) :
  ks1 ≡ₚ ks2 -> distinct_wide ks1 = distinct_wide ks2.
Proof.
  intros Hp. unfold distinct_wide. apply Permutation_length.
  apply NoDup_Permutation; [apply NoDup_remove_dups.. |].
  intros x. rewrite !elem_of_remove_dups, !list_elem_of_filter, Hp. reflexivity.
Qed.

(** X2. The order of the insertions does not matter. Two lists of insertions
    (bulk, or at a position in [[0, 64)]) of probe-safe characters that are
    permutations of each other, with fewer than 128 distinct wide
    characters, build vectors in which [get(q)] returns the same mask for
    every probe-safe [q]. *)
Theorem insert_order_irrelevant (l1 l2 : list action) (q : Z) :
  l1 ≡ₚ l2 ->
  Forall valid_action l1 ->
  Forall probe_safe (keys_of l1) ->
  probe_safe q ->
  (distinct_wide (keys_of l1) < 128)%nat ->
  exists s1 s2 v, run l1 PMV.new = Ok s1 /\ run l2 PMV.new = Ok s2 /\
                  PMV.get s1 q = Ok v /\ PMV.get s2 q = Ok v.
Proof.
  intros Hp Hl Hkeys Hq Hd.
  pose proof (keys_of_perm _ _ Hp) as Hkp.
  destruct (run_total l1 Hl Hkeys) as [s1 [Hs1 Hm1]]; [lia |].
  destruct (run_total l2) as [s2 [Hs2 Hm2]].
  { rewrite <- Hp. exact Hl. }
  { rewrite <- Hkp. exact Hkeys. }
  { rewrite <- (distinct_wide_perm _ _ Hkp). lia. }
  exists s1, s2, (mask_of (ops_of l1) q).
  split; [exact Hs1 |]. split; [exact Hs2 |]. split.
  - apply (run_get l1 s1 q Hm1 Hq). right. right. exact Hd.
  - rewrite (mask_of_perm _ _ q (ops_of_perm _ _ Hp)).
    apply (run_get l2 s2 q Hm2 Hq). right. right.
    rewrite <- (distinct_wide_perm _ _ Hkp). exact Hd.
Qed.

(** X2 at [insert(U+012C, 1)] and the bulk insertion of "A", U+01AC, in both
    orders; the two wide characters collide in slot 44. *)
Lemma insert_order_irrelevant_witness :
  exists s1 s2 v,
    run [Insert 300 1; InsertRange [65; 428]] PMV.new = Ok s1 /\
    run [InsertRange [65; 428]; Insert 300 1] PMV.new = Ok s2 /\
    PMV.get s1 428 = Ok v /\ PMV.get s2 428 = Ok v.
Proof.
  apply (insert_order_irrelevant [Insert 300 1; InsertRange [65; 428]]
           [InsertRange [65; 428]; Insert 300 1] 428).
  - apply perm_swap.
  - repeat constructor; cbn; lia.
  - repeat constructor; unfold probe_safe; lia.
  - unfold probe_safe. lia.
  - apply Nat.ltb_lt. vm_compute. reflexivity.
Defined.

(** ** Reading back what was inserted *)

(** X3. Reading back an insertion. In a vector built by insertions (bulk, or
    at a position in [[0, 64)]) of probe-safe characters that holds at most
    128 distinct wide characters once [key] is counted, [get(key)] returns a
    mask [v], [insert(key, pos)] returns, and [get(key)] then returns [v | 1
    << pos]. *)
Theorem insert_get_same (l : list action) (k pos : Z) :
  Forall valid_action l ->
  Forall probe_safe (keys_of l) ->
  probe_safe k -> 0 <= pos < 64 ->
  (distinct_wide (keys_of l ++ [k]) <= 128)%nat ->
  exists s s' v, run l PMV.new = Ok s /\
                 PMV.get s k = Ok v /\
                 PMV.insert s k pos = Ok s' /\
                 PMV.get s' k = Ok (Z.lor v (2 ^ pos)).
Proof.
  intros Hl Hkeys Hk Hpos Hd.
  pose proof (distinct_wide_app (keys_of l) [k]) as Hmono.
  assert (Hkeys1 : keys_of (l ++ [Insert k pos]) = keys_of l ++ [k]).
  { rewrite keys_of_app. reflexivity. }
  assert (Hmask : mask_of (ops_of (l ++ [Insert k pos])) k =
                  Z.lor (mask_of (ops_of l) k) (2 ^ pos)).
  { unfold mask_of. rewrite ops_of_app, upd_all_app.
    cbn [ops_of action_ops app upd_all fold_left fst snd]. apply upd_same. }
  destruct (run_total l Hl Hkeys) as [s [Hs Hm]]; [lia |].
  destruct (run_total (l ++ [Insert k pos])) as [s' [Hs' Hm']].
  { apply Forall_app. split; [exact Hl |]. apply Forall_singleton. exact Hpos. }
  { rewrite Hkeys1. apply Forall_app. split; [exact Hkeys |].
    apply Forall_singleton. exact Hk. }
  { rewrite Hkeys1. lia. }
  assert (Hstep : PMV.insert s k pos = Ok s').
  { rewrite run_app, Hs in Hs'. cbn [bind run run_action] in Hs'.
    destruct (PMV.insert s k pos); cbn [bind] in Hs'; congruence. }
  assert (Hbit : mask_of (ops_of (l ++ [Insert k pos])) k <> 0).
  { rewrite Hmask. intros H0. apply Z.lor_eq_0_iff in H0 as [_ H0].
    pose proof (Z.pow_pos_nonneg 2 pos ltac:(lia) ltac:(lia)). lia. }
  exists s, s', (mask_of (ops_of l) k).
  split; [exact Hs |]. split; [| split; [exact Hstep |]].
  - apply (get_total_pmv s _ Hm).
    destruct (is_ascii k) eqn:Ha; [left; reflexivity | right].
    destruct (decide (mask_of (ops_of l) k = 0)) as [H0 | H0]; [right | left; exact H0].
    split; [exact Hk |].
    destruct (NoDup_remove_one (remove_dups (filter wide (keys_of l ++ [k]))) k)
      as [K' [HK' [Hlen Hsub]]].
    { apply NoDup_remove_dups. }
    { apply elem_of_remove_dups, list_elem_of_filter. split.
      - unfold wide. rewrite Ha. exact I.
      - apply elem_of_app. right. apply list_elem_of_singleton. reflexivity. }
    apply Nat.le_lt_trans with (length K').
    + apply (occupied_pmv s _ Hm K' HK'). intros r Hr HA.
      apply Hsub; [| congruence].
      apply elem_of_remove_dups, list_elem_of_filter. split.
      * rewrite Hr. exact I.
      * apply elem_of_app. left. rewrite <- ops_of_keys.
        apply mask_of_key, HA.
    + unfold distinct_wide in Hd. lia.
  - rewrite <- Hmask. apply (run_get _ s' k Hm' Hk). right. left. exact Hbit.
Qed.

(** X3 at the vector built from "A", U+012C and [insert(U+012C, 7)]. *)
Lemma insert_get_same_witness :
  exists s s' v, run [InsertRange [65; 300]] PMV.new = Ok s /\
                 PMV.get s 300 = Ok v /\
                 PMV.insert s 300 7 = Ok s' /\
                 PMV.get s' 300 = Ok (Z.lor v (2 ^ 7)).
Proof.
  apply (insert_get_same [InsertRange [65; 300]] 300 7).
  - repeat constructor; cbn; lia.
  - repeat constructor; unfold probe_safe; lia.
  - unfold probe_safe. lia.
  - lia.
  - apply Nat.leb_le. vm_compute. reflexivity.
Defined.

(** ** Termination of the probe, exactly *)

Lemma lookup_fuel_safe_defined (n : nat) (m : list MapElem) (k : Z) :
  length m = 128%nat -> probe_safe k ->
  BH.lookup_fuel n m k = Diverges \/ exists j, BH.lookup_fuel n m k = Ok j.
Proof.
  intros Hlen Hk. unfold BH.lookup_fuel.
  pose proof (Z.mod_pos_bound k 128 ltac:(lia)) as Hi0.
  destruct (at_index_total m (k mod 128)) as [e0 He0]; [lia |].
  rewrite He0. cbn [bind]. destruct (BH.stops e0 k); [right; eauto |].
  rewrite (to_int64_safe k Hk). destruct Hk as [Hk0 Hk1].
  apply probe_safe_defined; assumption.
Qed.

(** X4. When [lookup] returns. On a table of 128 slots and a probe-safe key:
    if some slot is empty or holds the key, [lookup] returns a slot in [[0,
    128)] that is empty or holds the key; if no slot is, the loop never
    exits, however many passes it is given. *)
Theorem lookup_returns_iff (m : list MapElem) (k : Z) :
  length m = 128%nat -> probe_safe k ->
  ((exists (x : nat) e, m !! x = Some e /\ BH.stops e k = true) ->
   exists j e, BH.lookup m k = Ok j /\ 0 <= j < 128 /\
               m !! Z.to_nat j = Some e /\ BH.stops e k = true) /\
  ((forall (x : nat) e, m !! x = Some e -> BH.stops e k = false) ->
   forall n, BH.lookup_fuel n m k = Diverges).
Proof.
  intros Hlen Hk. split.
  - intros [x [e [Hx He]]].
    destruct (lookup_safe_terminates k m x e Hlen Hk Hx He) as [j Hj].
    destruct (lookup_Ok_inv k m j Hj) as [Hr [e' [He' Hs']]].
    exists j, e'. auto.
  - intros Hfull n.
    destruct (lookup_fuel_safe_defined n m k Hlen Hk) as [H | [j Hj]]; [exact H |].
    destruct (lookup_fuel_Ok_inv k m n j Hj) as [_ [e [He Hs]]].
    rewrite (Hfull _ _ He) in Hs. discriminate.
Qed.

(** X4 at [three_slots] and the key 466, whose home slot 82 is taken by 338. *)
Lemma lookup_returns_iff_witness :
  exists j e, BH.lookup three_slots 466 = Ok j /\ 0 <= j < 128 /\
              three_slots !! Z.to_nat j = Some e /\ BH.stops e 466 = true.
Proof.
  apply (lookup_returns_iff three_slots 466).
  - reflexivity.
  - unfold probe_safe. lia.
  - exists 0%nat, (mkElem 0 0). split; reflexivity.
Defined.

(** ** A block of the blocked vector is the vector of its chunk *)

Lemma block_count_lt (b len : nat) :
  (b < spec_block_count len)%nat <-> (64 * b < len)%nat.
Proof.
  unfold spec_block_count.
  pose proof (Nat.div_mod_eq (len + 63) 64) as Hdm.
  pose proof (Nat.mod_upper_bound (len + 63) 64 ltac:(lia)). lia.
Qed.

Lemma chunk_lookup (first : list Z) (b j : nat) :
  (j < 64)%nat -> take 64 (drop (64 * b) first) !! j = first !! (64 * b + j)%nat.
Proof. intros Hj. rewrite lookup_take_lt by lia. apply lookup_drop. Qed.

Lemma block_chunk_keys (first : list Z) (b : nat) (q : Z) :
  updb_all (spec_calls first) (fun _ _ => 0) (Z.of_nat b) q <> 0 ->
  q ∈ remove_dups (take 64 (drop (64 * b) first)).
Proof.
  intros HA. apply elem_of_remove_dups.
  apply updb_all_key in HA as [HA | [c [Hc [Hcb Hck]]]]; [contradiction |].
  apply spec_calls_member in Hc as [t [Hk [Hbt _]]].
  rewrite Hck in Hk. rewrite Hbt in Hcb. apply Nat2Z.inj in Hcb. subst b.
  apply chunk_member, Hk.
Qed.

Lemma chunk_short (first : list Z) (b : nat) :
  (length (remove_dups (take 64 (drop (64 * b) first))) <= 64)%nat.
Proof.
  pose proof (length_remove_dups_le (take 64 (drop (64 * b) first))) as H.
  rewrite length_take in H. lia.
Qed.

(** After the bulk insertion [get(block, key)] returns the mask of every
    probe-safe character in every block. *)
Lemma block_make_get (first : list Z) (s : BPMV.t) (b : nat) (q : Z) :
  BPMV.make first = Ok s -> (64 * b < length first)%nat -> probe_safe q ->
  BPMV.get s (Z.of_nat b) q =
  Ok (updb_all (spec_calls first) (fun _ _ => 0) (Z.of_nat b) q).
Proof.
  intros Hs Hb Hq. pose proof (block_make_models first s Hs) as Hm.
  apply block_count_lt in Hb.
  apply (block_get_total s _ _ Hm b q Hb). right. right.
  split; [exact Hq |]. intros m Hmb.
  apply Nat.le_lt_trans with (length (remove_dups (take 64 (drop (64 * b) first)))).
  - apply (block_occupied s _ _ Hm b m _ Hb Hmb); [apply NoDup_remove_dups |].
    intros r _ HA. apply block_chunk_keys, HA.
  - pose proof (chunk_short first b). lia.
Qed.

(** X5. A block is the vector of its chunk. For a pattern of probe-safe
    characters, a block [b] below the block count and a probe-safe
    character [q], [get(b, q)] on the blocked vector of the pattern and
    [get(q)] on the [PatternMatchVector] of the pattern's characters
    [64 b .. 64 b + 63] both return, and return the same mask. *)
Theorem block_is_chunk (first : list Z) (b : nat) (q : Z) :
  Forall probe_safe first -> probe_safe q ->
  (64 * b < length first)%nat ->
  exists sb s v, BPMV.make first = Ok sb /\
                 PMV.make (take 64 (drop (64 * b) first)) = Ok s /\
                 BPMV.get sb (Z.of_nat b) q = Ok v /\
                 PMV.get s q = Ok v.
Proof.
  intros Hsup Hq Hb.
  destruct (block_make_total first Hsup) as [sb Hsb].
  destruct (make_get_mask (take 64 (drop (64 * b) first))) as [s [Hs Hget]].
  { apply Forall_take, Forall_drop, Hsup. }
  exists sb, s, (mask_of (range_ops (take 64 (drop (64 * b) first))) q).
  split; [exact Hsb |]. split; [exact Hs |]. split; [| apply Hget, Hq].
  rewrite (block_make_get first sb b q Hsb Hb Hq). f_equal.
  apply Z.bits_inj'. intros i Hi. apply eq_true_iff_eq.
  rewrite <- (Z2Nat.id i Hi). rewrite block_mask_bit, range_mask_bit. split.
  - intros [t [Ht [Hbt Hj]]]. apply Nat2Z.inj in Hbt.
    pose proof (Nat.mod_upper_bound t 64 ltac:(lia)) as Hlt.
    split; [lia |]. rewrite chunk_lookup by lia.
    rewrite Hbt, Hj, <- Nat.div_mod_eq. exact Ht.
  - intros [Hj Hc]. rewrite chunk_lookup in Hc by exact Hj.
    exists (64 * b + Z.to_nat i)%nat. split; [exact Hc |].
    split; [f_equal |].
    + rewrite Nat.mul_comm, Nat.div_add_l by lia. rewrite Nat.div_small; lia.
    + rewrite Nat.add_comm, Nat.mul_comm, Nat.Div0.mod_add. rewrite Nat.mod_small; lia.
Qed.

(** X5 at [alphabet5], block 2 and "Z". *)
Lemma block_is_chunk_witness :
  exists sb s v, BPMV.make alphabet5 = Ok sb /\
                 PMV.make (take 64 (drop (64 * 2) alphabet5)) = Ok s /\
                 BPMV.get sb (Z.of_nat 2) 90 = Ok v /\
                 PMV.get s 90 = Ok v.
Proof.
  apply (block_is_chunk alphabet5 2 90).
  - exact alphabet5_probe_safe.
  - unfold probe_safe. lia.
  - apply Nat.ltb_lt. vm_compute. reflexivity.
Defined.

(** ** One more insertion into a blocked vector *)

(** X6. One more insertion into a blocked vector. After the bulk insertion
    of a pattern of probe-safe characters, [insert(b, key, pos)] of a
    probe-safe [key] at a position in [[0, 64)] on a block [b] below the
    block count returns; [get(b, key)] then has bit [pos] added, and
    [get(b', q)] is unchanged for every other block below the block count or
    probe-safe character. *)
Theorem block_insert_get (first : list Z) (b b' : nat) (k pos q : Z) :
  Forall probe_safe first -> probe_safe k -> probe_safe q ->
  0 <= pos < 64 ->
  (64 * b < length first)%nat -> (64 * b' < length first)%nat ->
  exists s s' v, BPMV.make first = Ok s /\
                 BPMV.insert s (Z.of_nat b) k pos = Ok s' /\
                 BPMV.get s (Z.of_nat b') q = Ok v /\
                 BPMV.get s' (Z.of_nat b') q =
                 Ok (if decide (b' = b /\ q = k) then Z.lor v (2 ^ pos) else v).
Proof.
  intros Hsup Hk Hq Hpos Hb Hb'.
  destruct (block_make_total first Hsup) as [s Hs].
  pose proof (block_make_models first s Hs) as Hm.
  pose proof (proj2 (block_count_lt b (length first)) Hb) as Hbn.
  pose proof (proj2 (block_count_lt b' (length first)) Hb') as Hbn'.
  set (A := updb_all (spec_calls first) (fun _ _ => 0)) in *.
  assert (Hroom : forall c m, (c < spec_block_count (length first))%nat ->
            BPMV.m_map s !! c = Some m -> (occupied m <= 64)%nat).
  { intros c m Hc Hmc.
    apply Nat.le_trans with (length (remove_dups (take 64 (drop (64 * c) first))));
      [| apply chunk_short].
    apply (block_occupied s _ _ Hm c m _ Hc Hmc); [apply NoDup_remove_dups |].
    intros r _ HA. apply block_chunk_keys, HA. }
  destruct (block_insert_total s _ _ Hm b k pos Hbn Hpos) as [s' Hs'].
  { right. right. split; [exact Hk |]. intros m Hmb.
    pose proof (Hroom b m Hbn Hmb). lia. }
  pose proof (block_insert_models s _ _ Hm b k pos s' Hs') as Hm'.
  exists s, s', (A (Z.of_nat b') q).
  split; [exact Hs |]. split; [exact Hs' |]. split.
  - apply (block_make_get first s b' q Hs Hb' Hq).
  - assert (Hval : updb A (Z.of_nat b) k (2 ^ pos) (Z.of_nat b') q =
                   if decide (b' = b /\ q = k) then Z.lor (A (Z.of_nat b') q) (2 ^ pos)
                   else A (Z.of_nat b') q).
    { rewrite updb_cases.
      destruct (Z.eqb_spec (Z.of_nat b') (Z.of_nat b)) as [E1 | E1],
               (Z.eqb_spec q k) as [E2 | E2]; cbn [andb];
        destruct (decide (b' = b /\ q = k)) as [[D1 D2] | D]; try reflexivity;
        try (exfalso; lia); try contradiction. }
    rewrite <- Hval.
    apply (block_get_total s' _ _ Hm' b' q Hbn'). right. right.
    split; [exact Hq |]. intros m Hmb.
    apply Nat.le_lt_trans
      with (length (remove_dups (k :: take 64 (drop (64 * b') first)))).
    + apply (block_occupied s' _ _ Hm' b' m _ Hbn' Hmb); [apply NoDup_remove_dups |].
      intros r _ HA. apply elem_of_remove_dups.
      rewrite updb_cases in HA.
      destruct (Z.eqb_spec r k) as [E | Hne]; [rewrite E; left |].
      right. rewrite andb_false_r in HA.
      apply elem_of_remove_dups. apply block_chunk_keys. exact HA.
    + pose proof (length_remove_dups_le (k :: take 64 (drop (64 * b') first))) as H.
      cbn [length] in H. rewrite length_take in H. lia.
Qed.

(** X6 at [alphabet5]: U+012C is inserted in block 1 at position 5. *)
Lemma block_insert_get_witness :
  exists s s' v, BPMV.make alphabet5 = Ok s /\
                 BPMV.insert s (Z.of_nat 1) 300 5 = Ok s' /\
                 BPMV.get s (Z.of_nat 1) 300 = Ok v /\
                 BPMV.get s' (Z.of_nat 1) 300 =
                 Ok (if decide (1%nat = 1%nat /\ 300 = 300) then Z.lor v (2 ^ 5) else v).
Proof.
  apply (block_insert_get alphabet5 1 1 300 5 300).
  - exact alphabet5_probe_safe.
  - unfold probe_safe. lia.
  - unfold probe_safe. lia.
  - lia.
  - apply Nat.ltb_lt. vm_compute. reflexivity.
  - apply Nat.ltb_lt. vm_compute. reflexivity.
Defined.

(** ** The hashmap on its own *)

Lemma bit_ops_keys (ops : list (Z * Z)) : (bit_ops ops).*1 = ops.*1.
Proof.
  induction ops as [|op ops IH]; [reflexivity |].
  cbn [bit_ops map fmap list_fmap fst]. f_equal. exact IH.
Qed.

Lemma bh_insert_each_models (ops : list (Z * Z)) (m : list MapElem)
      (A : Z -> Z) (K : list Z) :
  table_models m A ->
  (forall op, op ∈ ops -> probe_safe op.1 /\ 0 <= op.2 < 64) ->
  NoDup K -> (length K < 128)%nat ->
  (forall q, upd_all (bit_ops ops) A q <> 0 -> q ∈ K) ->
  exists m', bh_insert_each ops m = Ok m' /\
             table_models m' (upd_all (bit_ops ops) A).
Proof.
  revert m A. induction ops as [|op ops IH]; intros m A Hm Hops HK Hlen Hcover;
    [exists m; auto |].
  destruct (Hops op ltac:(left)) as [Hk Hpos].
  cbn [bh_insert_each bit_ops map]. rewrite upd_all_cons. cbn [fst snd].
  unfold BH.insert. rewrite shl1_pow by exact Hpos. cbn [bind].
  destruct (lookup_room m op.1) as [j Hj]; [apply (tm_length m A Hm) | | exact Hk |].
  { apply Nat.le_lt_trans with (length K); [| exact Hlen].
    apply (occupied_bound m A K Hm HK). intros q Hq. apply Hcover.
    cbn [bit_ops map]. rewrite upd_all_cons. apply upd_all_mono.
    unfold upd. destruct (q =? (op.1, 2 ^ op.2).1); [| exact Hq].
    rewrite Z.lor_eq_0_iff. tauto. }
  destruct (insert_mask_total m op.1 (2 ^ op.2) j Hj) as [m1 Hm1].
  rewrite Hm1. cbn [bind].
  apply IH.
  - apply (insert_mask_models m A Hm _ _ _ Hm1).
  - intros op' Hop'. apply Hops. right. exact Hop'.
  - exact HK.
  - exact Hlen.
  - intros q Hq. apply Hcover. cbn [bit_ops map]. rewrite upd_all_cons. exact Hq.
Qed.

(** X7. The hashmap on its own. For a list of [insert(key, pos)] calls on an
    empty [BitvectorHashmap], with probe-safe keys (keys in [[0, 255]]
    included: the hashmap has no direct table), positions in [[0, 64)] and
    fewer than 128 distinct keys: all calls return, and for every probe-safe
    [q], [get(q)] returns a mask whose bit [i] is set exactly when
    [insert(q, i)] is one of the calls. *)
Theorem hashmap_insert_get (ops : list (Z * Z)) (q : Z) :
  (forall op, op ∈ ops -> probe_safe op.1 /\ 0 <= op.2 < 64) ->
  (length (remove_dups ops.*1) < 128)%nat ->
  probe_safe q ->
  exists m v, bh_insert_each ops BH.new = Ok m /\
              BH.get m q = Ok v /\
              forall i, 0 <= i -> Z.testbit v i = true <-> (q, i) ∈ ops.
Proof.
  intros Hops Hlen Hq.
  destruct (bh_insert_each_models ops BH.new (fun _ => 0) (remove_dups ops.*1)
              table_models_new Hops) as [m [Hm HM]].
  { apply NoDup_remove_dups. }
  { exact Hlen. }
  { intros r Hr. apply elem_of_remove_dups. rewrite <- bit_ops_keys.
    apply (mask_of_key _ _ Hr). }
  assert (Hocc : (occupied m < 128)%nat).
  { apply Nat.le_lt_trans with (length (remove_dups ops.*1)); [| exact Hlen].
    apply (occupied_bound m _ _ HM); [apply NoDup_remove_dups |].
    intros r Hr. apply elem_of_remove_dups. rewrite <- bit_ops_keys.
    apply (mask_of_key _ _ Hr). }
  destruct (lookup_room m q (tm_length _ _ HM) Hocc Hq) as [j Hj].
  exists m, (upd_all (bit_ops ops) (fun _ => 0) q).
  split; [exact Hm |]. split; [apply (get_of_lookup m _ HM q j Hj) |].
  intros i Hi. rewrite upd_all_testbit. split.
  - intros [H | [op' [Hop' [Hk Hbit]]]]; [rewrite Z.bits_0 in H; discriminate |].
    unfold bit_ops in Hop'. apply list_elem_of_fmap in Hop' as [op [-> Hop]].
    cbn [fst snd] in Hk, Hbit. destruct (Hops op Hop) as [_ Hpos].
    rewrite Z.pow2_bits_eqb in Hbit by lia. apply Z.eqb_eq in Hbit.
    destruct op as [k pos]. cbn [fst snd] in *. subst. exact Hop.
  - intros Hop. right. exists (q, 2 ^ i). split; [| split; [reflexivity |]].
    + unfold bit_ops. apply list_elem_of_fmap. exists (q, i). auto.
    + cbn [snd]. apply Z.pow2_bits_true. exact Hi.
Qed.

(** X7 at the keys 65 and 193, which collide in slot 65 (the hashmap itself
    has no direct table), and 300. *)
Lemma hashmap_insert_get_witness :
  exists m v, bh_insert_each [(65, 0); (193, 1); (300, 2); (65, 3)] BH.new = Ok m /\
              BH.get m 65 = Ok v /\
              forall i, 0 <= i -> Z.testbit v i = true <->
                                  (65, i) ∈ [(65, 0); (193, 1); (300, 2); (65, 3)].
Proof.
  apply (hashmap_insert_get [(65, 0); (193, 1); (300, 2); (65, 3)] 65).
  - intros op Hop. rewrite !elem_of_cons, elem_of_nil in Hop.
    destruct Hop as [-> | [-> | [-> | [-> | []]]]]; unfold probe_safe; cbn; lia.
  - apply Nat.ltb_lt. vm_compute. reflexivity.
  - unfold probe_safe. lia.
Defined.

(** ** Characters with the top bit set *)

(** For such a key [perturb] is negative and [i * 5 + perturb + 1] is
    congruent to [6 * key + 1] modulo 128, an odd number: the index of
    the first probe is negative. *)
Lemma top_bit_first_probe (k : Z) :
  2 ^ 63 <= k -> k + 636 < 2 ^ 64 ->
  fits_int64 (k mod 128 * 5 + to_int64 k + 1) = true /\
  -127 <= Z.rem (k mod 128 * 5 + to_int64 k + 1) 128 <= -1.
Proof.
  intros Hlo Hhi.
  pose proof (Z.mod_pos_bound k 128 ltac:(lia)) as Hi.
  assert (Hp : to_int64 k = k - 2 ^ 64).
  { unfold to_int64. destruct (Z.ltb_spec k (2 ^ 63)); [lia | reflexivity]. }
  rewrite Hp. set (sum := k mod 128 * 5 + (k - 2 ^ 64) + 1).
  assert (Hneg : - 2 ^ 63 <= sum < 0) by (unfold sum; lia).
  split.
  - unfold fits_int64. apply andb_true_iff.
    split; [apply Z.leb_le | apply Z.ltb_lt]; lia.
  - assert (Hodd : (- sum) mod 2 = 1).
    { unfold sum. pose proof (Z.div_mod k 128 ltac:(lia)) as Hk.
      replace (- (k mod 128 * 5 + (k - 2 ^ 64) + 1))
        with (1 + (2 ^ 63 - 64 * (k / 128) - 3 * (k mod 128) - 1) * 2) by lia.
      rewrite Z.mod_add by lia. reflexivity. }
    replace sum with (- (- sum)) by lia. rewrite Z.rem_opp_l by lia.
    rewrite Z.rem_mod_nonneg by lia.
    pose proof (Z.mod_pos_bound (- sum) 128 ltac:(lia)) as Hr.
    assert ((- sum) mod 128 <> 0).
    { intros H0. pose proof (Z.div_mod (- sum) 128 ltac:(lia)) as Hd.
      rewrite H0 in Hd.
      assert ((- sum) mod 2 = 0).
      { rewrite Hd. replace (128 * (- sum / 128) + 0) with (0 + (64 * (- sum / 128)) * 2) by lia.
        rewrite Z.mod_add by lia. reflexivity. }
      lia. }
    lia.
Qed.

(** X8. Characters with the top bit set. For a key in [[2^63, 2^64 - 636)]
    and any table of 128 slots, [lookup] and [get] are decided at the home
    slot [key % 128]: if that slot is empty or holds the key, [lookup]
    returns it and [get] returns its value; if it holds another key, the
    index of the first probe is in [[-127, -1]] and [m_map] is indexed
    outside the array, which is undefined behaviour: no second slot is
    ever tried. *)
Theorem lookup_top_bit (m : list MapElem) (k : Z) :
  length m = 128%nat -> 2 ^ 63 <= k -> k + 636 < 2 ^ 64 ->
  exists e, m !! Z.to_nat (k mod 128) = Some e /\
            BH.lookup m k = (if BH.stops e k then Ok (k mod 128) else Undefined) /\
            BH.get m k = (if BH.stops e k then Ok (value e) else Undefined) /\
            -127 <= Z.rem (k mod 128 * 5 + to_int64 k + 1) 128 <= -1.
Proof.
  intros Hlen Hlo Hhi.
  pose proof (Z.mod_pos_bound k 128 ltac:(lia)) as Hi.
  destruct (top_bit_first_probe k Hlo Hhi) as [Hfit Hrem].
  destruct (at_index_total m (k mod 128)) as [e He]; [lia |].
  assert (Hl : BH.lookup m k = if BH.stops e k then Ok (k mod 128) else Undefined).
  { unfold BH.lookup, BH.lookup_fuel. rewrite He. cbn [bind].
    destruct (BH.stops e k); [reflexivity |].
    rewrite budget_split. change (13 + 128)%nat with (S (12 + 128)).
    rewrite probe_S, Hfit. cbn [step fst snd].
    unfold at_index. destruct (Z.ltb_spec (Z.rem (k mod 128 * 5 + to_int64 k + 1) 128) 0);
      [reflexivity | lia]. }
  exists e. split; [apply at_index_Ok in He as [_ He]; exact He |].
  split; [exact Hl |]. split; [| exact Hrem].
  unfold BH.get. rewrite Hl. destruct (BH.stops e k); [| reflexivity].
  cbn [bind]. rewrite He. reflexivity.
Qed.

(** X8 at the table that holds [2^63] in slot 0 and the key [2^63 + 128],
    whose home slot is 0 too. *)
Lemma lookup_top_bit_witness :
  exists e, <[0%nat := mkElem high_key 1]> BH.new !! Z.to_nat ((high_key + 128) mod 128)
            = Some e /\
            BH.lookup (<[0%nat := mkElem high_key 1]> BH.new) (high_key + 128) =
            (if BH.stops e (high_key + 128) then Ok ((high_key + 128) mod 128)
             else Undefined) /\
            BH.get (<[0%nat := mkElem high_key 1]> BH.new) (high_key + 128) =
            (if BH.stops e (high_key + 128) then Ok (value e) else Undefined) /\
            -127 <= Z.rem ((high_key + 128) mod 128 * 5 + to_int64 (high_key + 128) + 1) 128
            <= -1.
Proof.
  apply (lookup_top_bit (<[0%nat := mkElem high_key 1]> BH.new) (high_key + 128)).
  - reflexivity.
  - unfold high_key. lia.
  - unfold high_key. lia.
Defined.

(** ** Characters that do not collide *)

Lemma lookup_home (m : list MapElem) (K : list Z) (k : Z) :
  home_table m K -> (forall k', k' ∈ K -> k' mod 128 = k mod 128 -> k' = k) ->
  exists e, BH.lookup m k = Ok (k mod 128) /\
            at_index m (k mod 128) = Ok e /\ BH.stops e k = true.
Proof.
  intros [Hlen Hhome] Hk.
  pose proof (Z.mod_pos_bound k 128 ltac:(lia)) as Hi.
  destruct (at_index_total m (k mod 128)) as [e He]; [lia |].
  assert (Hs : BH.stops e k = true).
  { apply stops_true. destruct (Z.eq_dec (value e) 0) as [Hv | Hv]; [left; exact Hv |].
    right. apply at_index_Ok in He as [_ He].
    destruct (Hhome _ _ He Hv) as [Hr HK]. apply Hk; [exact HK | lia]. }
  exists e. split; [| split; [exact He | exact Hs]].
  unfold BH.lookup, BH.lookup_fuel. rewrite He. cbn [bind]. rewrite Hs. reflexivity.
Qed.

Lemma insert_mask_home (m : list MapElem) (K : list Z) (k mask : Z) :
  home_table m K -> k ∈ K ->
  (forall k', k' ∈ K -> k' mod 128 = k mod 128 -> k' = k) ->
  exists m', BH.insert_mask m k mask = Ok m' /\ home_table m' K.
Proof.
  intros Hm HkK Hk. destruct (lookup_home m K k Hm Hk) as [e [Hl [He _]]].
  unfold BH.insert_mask. rewrite Hl. cbn [bind]. rewrite He. cbn [bind].
  eexists. split; [reflexivity |].
  destruct Hm as [Hlen Hhome]. apply at_index_Ok in He as [Hi He].
  split; [rewrite length_insert; exact Hlen |].
  intros j ej Hej Hv.
  destruct (decide (j = Z.to_nat (k mod 128))) as [-> | Hne].
  - rewrite list_lookup_insert_eq in Hej by (eapply lookup_lt_Some; eauto).
    injection Hej as <-. cbn [key]. split; [lia | exact HkK].
  - rewrite list_lookup_insert_ne in Hej by congruence. apply Hhome; assumption.
Qed.

Lemma or_mask_home (s : PMV.t) (K : list Z) (k mask : Z) :
  home_vector s K ->
  (wide k = true -> k ∈ K /\ forall k', k' ∈ K -> k' mod 128 = k mod 128 -> k' = k) ->
  exists s', or_mask s k mask = Ok s' /\ home_vector s' K.
Proof.
  intros [Hm Hlen] Hk. unfold or_mask, wide in *.
  destruct (is_ascii k) eqn:Ha.
  - apply is_ascii_range in Ha.
    destruct (at_index_total (PMV.m_extendedAscii s) k) as [v Hv]; [lia |].
    rewrite Hv. cbn [bind]. eexists. split; [reflexivity |].
    split; cbn [PMV.m_map PMV.m_extendedAscii]; [exact Hm |].
    rewrite length_insert. exact Hlen.
  - destruct (Hk eq_refl) as [HkK Hone].
    destruct (insert_mask_home _ K k mask Hm HkK Hone) as [m' [Hi Hm']].
    rewrite Hi. cbn [bind]. eexists. split; [reflexivity |].
    split; cbn [PMV.m_map PMV.m_extendedAscii]; assumption.
Qed.

Lemma apply_masks_home (ops : list (Z * Z)) (s : PMV.t) (K : list Z) :
  home_vector s K ->
  (forall op, op ∈ ops -> wide op.1 = true ->
     op.1 ∈ K /\ forall k', k' ∈ K -> k' mod 128 = op.1 mod 128 -> k' = op.1) ->
  exists s', apply_masks ops s = Ok s' /\ home_vector s' K.
Proof.
  revert s. induction ops as [|op ops IH]; intros s Hs Hops; [exists s; auto |].
  cbn [apply_masks].
  destruct (or_mask_home s K op.1 op.2 Hs) as [s1 [H1 Hs1]].
  { apply Hops. left. }
  rewrite H1. cbn [bind]. apply IH; [exact Hs1 |].
  intros op' Hop'. apply Hops. right. exact Hop'.
Qed.

Lemma home_vector_new (K : list Z) : home_vector PMV.new K.
Proof.
  split; [split |].
  - apply length_replicate.
  - intros j e He Hv. apply lookup_replicate in He as [-> _]. contradiction.
  - apply length_replicate.
Qed.

Lemma get_home (s : PMV.t) (K : list Z) (q : Z) :
  home_vector s K ->
  (wide q = true -> forall k', k' ∈ K -> k' mod 128 = q mod 128 -> k' = q) ->
  exists v, PMV.get s q = Ok v.
Proof.
  intros [Hm Hlen] Hq. unfold PMV.get, wide in *. destruct (is_ascii q) eqn:Ha.
  - apply is_ascii_range in Ha. apply at_index_total. lia.
  - destruct (lookup_home _ K q Hm (Hq eq_refl)) as [e [Hl [He _]]].
    unfold BH.get. rewrite Hl. cbn [bind]. rewrite He. cbn [bind]. eauto.
Qed.

(** X9. Characters that do not collide. If no two different wide characters
    of a pattern have the same residue modulo 128, the constructor returns,
    whatever the character values and the length; and [get(q)] returns the
    mask with exactly the bits [i < 64] of the positions of [q], for every
    [q] in the direct table and every wide [q] that shares its home slot
    with no other wide character of the pattern. *)
Theorem round_trip_apart (first : list Z) :
  home_slots_apart first ->
  exists s, PMV.make first = Ok s /\
    forall q, (wide q = true -> alone_at_home first q) ->
      exists v, PMV.get s q = Ok v /\
        forall i : nat, Z.testbit v (Z.of_nat i) = true <->
                        (i < 64)%nat /\ first !! i = Some q.
Proof.
  intros Hapart. unfold PMV.make. rewrite insert_range_apply.
  destruct (apply_masks_home (range_ops first) PMV.new (filter wide first)
              (home_vector_new _)) as [s [Hs Hhome]].
  { intros op Hop Hw.
    assert (Hin : op.1 ∈ first).
    { rewrite <- (range_ops_keys first). apply list_elem_of_fmap. exists op. auto. }
    split; [apply list_elem_of_filter; split; [rewrite Hw; exact I | exact Hin] |].
    intros k' Hk' Hr. apply list_elem_of_filter in Hk' as [Hw' Hk'].
    apply Hapart; try assumption. destruct (wide k'); [reflexivity | contradiction]. }
  exists s. split; [exact Hs |]. intros q Hq.
  destruct (get_home s (filter wide first) q Hhome) as [v Hv].
  { intros Hw k' Hk' Hr. apply list_elem_of_filter in Hk' as [Hw' Hk'].
    apply (Hq Hw); try assumption. destruct (wide k'); [reflexivity | contradiction]. }
  exists v. split; [exact Hv |].
  pose proof (apply_masks_models _ _ _ _ pmv_models_new Hs) as Hm.
  rewrite (get_sound_pmv s _ Hm q v Hv). intros i. apply range_mask_bit.
Qed.

(** X9 at the [uint64_t] pattern [2^63], "A", [2^64 - 1]. *)
Lemma round_trip_apart_witness :
  exists s, PMV.make [2 ^ 63; 65; 2 ^ 64 - 1] = Ok s /\
    forall q, (wide q = true -> alone_at_home [2 ^ 63; 65; 2 ^ 64 - 1] q) ->
      exists v, PMV.get s q = Ok v /\
        forall i : nat, Z.testbit v (Z.of_nat i) = true <->
                        (i < 64)%nat /\ [2 ^ 63; 65; 2 ^ 64 - 1] !! i = Some q.
Proof.
  apply (round_trip_apart [2 ^ 63; 65; 2 ^ 64 - 1]).
  intros k k' Hk Hk' _ _ Hr.
  rewrite !elem_of_cons, elem_of_nil in Hk, Hk'.
  destruct Hk as [-> | [-> | [-> | []]]], Hk' as [-> | [-> | [-> | []]]];
    first [reflexivity | exfalso; vm_compute in Hr; discriminate].
Defined.

(** * ceildiv *)

(** X10. [ceildiv(a, d)] for a positive divisor: for [a >= 0] it is the
    least [n] with [a <= d * n]; for [a < 0] it is the ceiling of [a / d]
    when [d] divides [a], and one more than the ceiling otherwise. *)
Theorem ceildiv_ceiling (a d : Z) :
  0 < d ->
  (0 <= a -> d * (ceildiv a d - 1) < a <= d * ceildiv a d) /\
  (a < 0 -> ceildiv a d = - (- a / d) + (if a mod d =? 0 then 0 else 1)).
Proof.
  intros Hd. unfold ceildiv. split; intros Ha.
  - rewrite Z.quot_div_nonneg, Z.rem_mod_nonneg by lia.
    pose proof (Z.div_mod a d ltac:(lia)) as Hdm.
    pose proof (Z.mod_pos_bound a d Hd) as Hr.
    destruct (Z.eqb_spec (a mod d) 0); nia.
  - replace a with (- (- a)) at 1 2 by lia.
    rewrite Z.quot_opp_l, Z.rem_opp_l by lia.
    rewrite Z.quot_div_nonneg, Z.rem_mod_nonneg by lia.
    assert (H : (- a) mod d = 0 <-> a mod d = 0).
    { rewrite !Z.mod_divide by lia. apply Z.divide_opp_r. }
    f_equal.
    destruct (Z.eqb_spec (- ((- a) mod d)) 0) as [E | E],
             (Z.eqb_spec (a mod d) 0) as [F | F]; try reflexivity; exfalso; lia.
Qed.

(** X10 at [ceildiv(130, 64)], which is 3, and [ceildiv(-1, 64)], which is
    1. *)
Lemma ceildiv_ceiling_witness :
  64 * (ceildiv 130 64 - 1) < 130 <= 64 * ceildiv 130 64 /\
  ceildiv (-1) 64 = - (- (-1) / 64) + (if (-1) mod 64 =? 0 then 0 else 1).
Proof.
  split.
  - apply (ceildiv_ceiling 130 64); lia.
  - apply (ceildiv_ceiling (-1) 64); lia.
Defined.

(** * Common prefix of two ranges *)

Lemma mismatch_split (r1 r2 : list Z) :
  exists c, r1 = c ++ (mismatch r1 r2).1 /\ r2 = c ++ (mismatch r1 r2).2.
Proof.
  revert r2. induction r1 as [|x r1 IH]; intros r2; [exists []; auto |].
  destruct r2 as [|y r2]; [exists []; auto |]. cbn [mismatch].
  destruct (Z.eqb_spec x y) as [-> | Hne]; [| exists []; auto].
  destruct (IH r2) as [c [H1 H2]]. exists (y :: c). cbn [app].
  split; f_equal; assumption.
Qed.

Lemma mismatch_heads (r1 r2 : list Z) (x y : Z) (t1 t2 : list Z) :
  mismatch r1 r2 = (x :: t1, y :: t2) -> x <> y.
Proof.
  revert r2. induction r1 as [|a r1 IH]; intros r2; [discriminate |].
  destruct r2 as [|b r2]; [discriminate |]. cbn [mismatch].
  destruct (Z.eqb_spec a b) as [-> | Hne]; [apply IH |].
  intros [= -> _ -> _]. exact Hne.
Qed.

Lemma advance_app (c r : list Z) :
  advance (c ++ r) (Z.of_nat (length c)) = Ok r.
Proof.
  unfold advance. rewrite length_app.
  destruct (Z.leb_spec 0 (Z.of_nat (length c))); [| lia].
  destruct (Z.leb_spec (Z.of_nat (length c)) (Z.of_nat (length c + length r)));
    [| lia].
  cbn [andb]. rewrite Nat2Z.id, drop_app_length. reflexivity.
Qed.

(** The function in terms of the split of [mismatch]. *)
Lemma remove_common_prefix_split (c t1 t2 : list Z) :
  mismatch (c ++ t1) (c ++ t2) = (t1, t2) ->
  remove_common_prefix (c ++ t1) (c ++ t2) = Ok (Z.of_nat (length c), (t1, t2)).
Proof.
  intros Hm. unfold remove_common_prefix, distance. rewrite Hm. cbn [fst].
  rewrite length_app.
  replace (Z.of_nat (length c + length t1) - Z.of_nat (length t1))
    with (Z.of_nat (length c)) by lia.
  rewrite !advance_app. reflexivity.
Qed.

Lemma mismatch_app (c t1 t2 : list Z) :
  mismatch (c ++ t1) (c ++ t2) = mismatch t1 t2.
Proof.
  induction c as [|x c IH]; [reflexivity |].
  cbn [app mismatch]. rewrite Z.eqb_refl. exact IH.
Qed.

Lemma mismatch_stable (r1 r2 : list Z) :
  mismatch (mismatch r1 r2).1 (mismatch r1 r2).2 = mismatch r1 r2.
Proof.
  revert r2. induction r1 as [|x r1 IH]; intros r2; [reflexivity |].
  destruct r2 as [|y r2]; [reflexivity |]. cbn [mismatch].
  destruct (Z.eqb_spec x y) as [-> | Hne]; [apply IH |].
  cbn [fst snd mismatch]. destruct (Z.eqb_spec x y); [contradiction | reflexivity].
Qed.

Lemma mismatch_swap (r1 r2 : list Z) :
  mismatch r2 r1 = ((mismatch r1 r2).2, (mismatch r1 r2).1).
Proof.
  revert r2. induction r1 as [|x r1 IH]; intros r2; [destruct r2; reflexivity |].
  destruct r2 as [|y r2]; [reflexivity |]. cbn [mismatch].
  rewrite (Z.eqb_sym y x). destruct (x =? y); [apply IH | reflexivity].
Qed.

(** The call never moves an iterator out of its range: it returns the
    length of the part [mismatch] skipped and the two iterators
    [mismatch] stopped at. *)
Lemma remove_common_prefix_eq (r1 r2 : list Z) :
  exists c, r1 = c ++ (mismatch r1 r2).1 /\ r2 = c ++ (mismatch r1 r2).2 /\
            remove_common_prefix r1 r2 = Ok (Z.of_nat (length c), mismatch r1 r2).
Proof.
  destruct (mismatch_split r1 r2) as [c [H1 H2]]. exists c.
  split; [exact H1 |]. split; [exact H2 |].
  pose proof (mismatch_stable r1 r2) as Hs.
  destruct (mismatch r1 r2) as [t1 t2]. cbn [fst snd] in *. subst r1 r2.
  apply remove_common_prefix_split. rewrite mismatch_app. exact Hs.
Qed.

(** X11. [remove_common_prefix] removes the longest common prefix. The call
    returns on any two ranges, never moving an iterator out of its range: it
    returns the length of a list [c] such that the ranges are [c ++ r1'] and
    [c ++ r2'], where [r1'] and [r2'] are the ranges left by the two
    iterators (the ones [mismatch] returns); [r1'] and [r2'] do not start
    with the same element, and every common prefix of the ranges is a prefix
    of [c]. *)
Theorem remove_common_prefix_longest (r1 r2 : list Z) :
  exists c r1' r2',
    remove_common_prefix r1 r2 = Ok (Z.of_nat (length c), (r1', r2')) /\
    mismatch r1 r2 = (r1', r2') /\
    r1 = c ++ r1' /\ r2 = c ++ r2' /\
    (forall x y t1 t2, r1' = x :: t1 -> r2' = y :: t2 -> x <> y) /\
    (forall c', c' `prefix_of` r1 -> c' `prefix_of` r2 -> c' `prefix_of` c).
Proof.
  destruct (remove_common_prefix_eq r1 r2) as [c [H1 [H2 Hr]]].
  pose proof (mismatch_stable r1 r2) as Hm'.
  destruct (mismatch r1 r2) as [t1 t2]. cbn [fst snd] in H1, H2, Hm'.
  exists c, t1, t2.
  assert (Hhead : forall x y u1 u2, t1 = x :: u1 -> t2 = y :: u2 -> x <> y).
  { intros x y u1 u2 -> ->. apply (mismatch_heads _ _ _ _ _ _ Hm'). }
  split; [exact Hr |].
  split; [reflexivity | split; [exact H1 | split; [exact H2 | split]]].
  - exact Hhead.
  - intros c' [u1 Hu1] [u2 Hu2].
    destruct (decide (length c' <= length c)%nat) as [Hle | Hgt].
    + exists (drop (length c') c).
      rewrite <- (take_drop (length c') c) at 1. f_equal.
      assert (H : take (length c') r1 = c') by (rewrite Hu1; apply take_app_length).
      rewrite H1, take_app_le in H by exact Hle. exact H.
    + exfalso.
      assert (E1 : r1 !! length c = c' !! length c).
      { rewrite Hu1. apply lookup_app_l. lia. }
      assert (E2 : r2 !! length c = c' !! length c).
      { rewrite Hu2. apply lookup_app_l. lia. }
      destruct (lookup_lt_is_Some_2 c' (length c) ltac:(lia)) as [z Hz].
      rewrite Hz in E1, E2.
      rewrite H1, lookup_app_r, Nat.sub_diag in E1 by lia.
      rewrite H2, lookup_app_r, Nat.sub_diag in E2 by lia.
      destruct t1 as [|x u1']; [discriminate |].
      destruct t2 as [|y u2']; [discriminate |].
      cbn in E1, E2. apply (Hhead x y u1' u2' eq_refl eq_refl). congruence.
Qed.

(** X12. A second call removes nothing: on the ranges a call leaves,
    [remove_common_prefix] returns 0 and leaves them as they are. *)
Theorem remove_common_prefix_twice (r1 r2 : list Z) :
  (let* res := remove_common_prefix r1 r2 in
   remove_common_prefix res.2.1 res.2.2) =
  (let* res := remove_common_prefix r1 r2 in Ok (0, res.2)).
Proof.
  destruct (remove_common_prefix_eq r1 r2) as [c [_ [_ ->]]]. cbn [bind fst snd].
  destruct (remove_common_prefix_eq (mismatch r1 r2).1 (mismatch r1 r2).2)
    as [c' [H1 [_ ->]]].
  rewrite mismatch_stable in H1 |- *.
  assert (length c' = 0%nat) as ->; [| reflexivity].
  apply (f_equal length) in H1. rewrite length_app in H1. lia.
Qed.

(** X13. The two ranges can be exchanged: the call on [(r2, r1)] returns the
    same length and the same two ranges, exchanged. *)
Theorem remove_common_prefix_sym (r1 r2 : list Z) :
  remove_common_prefix r2 r1 =
  (let* res := remove_common_prefix r1 r2 in Ok (res.1, (res.2.2, res.2.1))).
Proof.
  destruct (remove_common_prefix_eq r1 r2) as [c [_ [H1 ->]]].
  destruct (remove_common_prefix_eq r2 r1) as [c' [H2 [_ ->]]].
  cbn [bind fst snd]. rewrite mismatch_swap in H2 |- *. cbn [fst snd] in H2.
  replace (length c') with (length c); [reflexivity |].
  apply (f_equal length) in H1, H2.
  rewrite length_app in H1, H2. lia.
Qed.

(** X14. A shared part in front adds its length: the call on [c ++ r1] and
    [c ++ r2] returns [length c] more than the call on [r1] and [r2], and
    leaves the same ranges. *)
Theorem remove_common_prefix_app (c r1 r2 : list Z) :
  remove_common_prefix (c ++ r1) (c ++ r2) =
  (let* res := remove_common_prefix r1 r2 in
   Ok (Z.of_nat (length c) + res.1, res.2)).
Proof.
  destruct (remove_common_prefix_eq r1 r2) as [c1 [H1 [_ ->]]].
  destruct (remove_common_prefix_eq (c ++ r1) (c ++ r2)) as [c2 [H2 [_ ->]]].
  cbn [bind fst snd]. rewrite mismatch_app in H2 |- *.
  replace (length c2) with (length c + length c1)%nat;
    [rewrite Nat2Z.inj_add; reflexivity |].
  apply (f_equal length) in H1, H2.
  rewrite !length_app in H2. rewrite length_app in H1. lia.
Qed.

(** * result_cutoff *)

Lemma SFcompare_refl (x : SpecFloat.spec_float) :
  x <> SpecFloat.S754_nan -> SpecFloat.SFcompare x x = Some Eq.
Proof.
  destruct x as [s | s | | s m e]; intros H; try reflexivity; try congruence.
  - destruct s; reflexivity.
  - cbn. destruct s; rewrite Z.compare_refl.
    + unfold CompOpp. rewrite Pos.compare_cont_refl. reflexivity.
    + rewrite Pos.compare_cont_refl. reflexivity.
Qed.

(** [a <= b] is false when [b] is a NaN. *)
Lemma leb_not_nan (x y : PrimFloat.float) :
  PrimFloat.leb x y = true -> PrimFloat.is_nan y = false.
Proof.
  rewrite FloatAxioms.leb_spec. unfold PrimFloat.is_nan.
  rewrite FloatAxioms.eqb_spec. unfold SpecFloat.SFleb, SpecFloat.SFeqb.
  intros H. rewrite SFcompare_refl; [reflexivity |].
  intros E. rewrite E in H.
  destruct (FloatOps.Prim2SF x) as [s | s | | s m e]; try destruct s; discriminate.
Qed.

(** X15. [result_cutoff] never returns a NaN: when [result] or
    [score_cutoff] is a NaN it returns 0; and applying it again with the
    same cutoff changes nothing. *)
Theorem result_cutoff_number (result score_cutoff : PrimFloat.float) :
  PrimFloat.is_nan (result_cutoff result score_cutoff) = false /\
  (PrimFloat.is_nan result = true \/ PrimFloat.is_nan score_cutoff = true ->
   result_cutoff result score_cutoff = PrimFloat.zero) /\
  result_cutoff (result_cutoff result score_cutoff) score_cutoff =
  result_cutoff result score_cutoff.
Proof.
  unfold result_cutoff. split; [| split].
  - destruct (PrimFloat.leb score_cutoff result) eqn:E.
    + apply (leb_not_nan _ _ E).
    + reflexivity.
  - intros H. destruct (PrimFloat.leb score_cutoff result) eqn:E; [| reflexivity].
    exfalso. destruct H as [H | H].
    + rewrite (leb_not_nan _ _ E) in H. discriminate.
    + revert E H. rewrite FloatAxioms.leb_spec. unfold PrimFloat.is_nan.
      rewrite FloatAxioms.eqb_spec. unfold SpecFloat.SFleb, SpecFloat.SFeqb.
      intros E H. destruct (FloatOps.Prim2SF score_cutoff) as [s | s | | s m e].
      * destruct s; discriminate.
      * destruct s; discriminate.
      * discriminate.
      * rewrite SFcompare_refl in H; [discriminate | discriminate].
  - destruct (PrimFloat.leb score_cutoff result) eqn:E.
    + rewrite E. reflexivity.
    + destruct (PrimFloat.leb score_cutoff PrimFloat.zero); reflexivity.
Qed.

(** * vector_slice *)

Lemma fits_int_true (z : Z) : - 2 ^ 31 <= z < 2 ^ 31 -> int_op z = Ok z.
Proof.
  intros H. unfold int_op, fits_int.
  destruct (Z.leb_spec (- 2 ^ 31) z), (Z.ltb_spec z (2 ^ 31)); cbn [andb];
    first [reflexivity | lia].
Qed.

Lemma to_int_small (z : Z) : - 2 ^ 31 <= z < 2 ^ 31 -> to_int z = z.
Proof.
  intros H. unfold to_int. destruct (Z.ltb_spec z 0) as [Hn | Hp].
  - replace (z mod 2 ^ 32) with (z + 2 ^ 32).
    + destruct (Z.ltb_spec (z + 2 ^ 32) (2 ^ 31)); lia.
    + apply Z.mod_unique with (-1); lia.
  - rewrite Z.mod_small by lia. destruct (Z.ltb_spec z (2 ^ 31)); lia.
Qed.

Lemma clamp_index (size z : Z) :
  0 <= size < 2 ^ 31 -> - 2 ^ 31 <= z < 2 ^ 31 ->
  clamp size z = slice_index size z.
Proof.
  intros Hs Hz. unfold clamp, slice_index, to_size_t.
  destruct (Z.ltb_spec z 0) as [Hn | Hp].
  - replace (z mod 2 ^ 64) with (z + 2 ^ 64)
      by (apply Z.mod_unique with (-1); lia).
    replace ((z + 2 ^ 64 + size) mod 2 ^ 64) with ((z + size) mod 2 ^ 64)
      by (replace (z + 2 ^ 64 + size) with (z + size + 1 * 2 ^ 64) by lia;
          symmetry; apply Z.mod_add; lia).
    unfold to_int. rewrite Z.mod_mod_divide by (exists (2 ^ 32); reflexivity).
    apply (to_int_small (z + size)). lia.
  - rewrite Z.mod_small by lia. destruct (Z.gtb_spec z size) as [Hgt | Hle].
    + rewrite to_int_small by lia. lia.
    + lia.
Qed.

Section SliceLoops.

Context {T : Type}.
Implicit Types (vec new_vec r : list T).

(** The forward loop: the elements at [i], [i + step], ... below [stop]. *)
Lemma slice_up_spec (fuel : nat) vec (i stop step : Z) new_vec :
  0 < step -> 0 <= i -> stop <= Z.of_nat (length vec) ->
  stop - i <= Z.of_nat fuel -> stop + step <= 2 ^ 31 ->
  exists r, slice_up fuel vec i stop step new_vec = Ok (new_vec ++ r) /\
            forall j : nat,
              r !! j = if i + Z.of_nat j * step <? stop
                       then vec !! Z.to_nat (i + Z.of_nat j * step) else None.
Proof.
  intros Hstep. revert i new_vec.
  induction fuel as [|fuel IH]; intros i new_vec Hi Hstop Hfuel Hov.
  - exists []. cbn [slice_up]. destruct (Z.ltb_spec i stop); [lia |].
    rewrite app_nil_r. split; [reflexivity |]. intros j.
    destruct (Z.ltb_spec (i + Z.of_nat j * step) stop); [nia | reflexivity].
  - cbn [slice_up]. destruct (Z.ltb_spec i stop) as [Hlt | Hge].
    + destruct (at_index_total vec i) as [x Hx]; [lia |].
      rewrite Hx. cbn [bind]. rewrite fits_int_true by lia. cbn [bind].
      destruct (IH (i + step) (new_vec ++ [x])) as [r [Hr Hj]]; try lia.
      exists (x :: r). split.
      * rewrite Hr, <- app_assoc. reflexivity.
      * intros [|j].
        -- rewrite Z.add_0_r. destruct (Z.ltb_spec i stop); [| lia].
           apply at_index_Ok in Hx as [_ Hx]. cbn. symmetry. exact Hx.
        -- rewrite lookup_cons. rewrite Hj.
           replace (i + step + Z.of_nat j * step)
             with (i + Z.of_nat (S j) * step) by lia.
           reflexivity.
    + exists []. rewrite app_nil_r. split; [reflexivity |]. intros j.
      destruct (Z.ltb_spec (i + Z.of_nat j * step) stop); [nia | reflexivity].
Qed.

(** The backward loop: the elements at [i], [i + step], ... above [stop]. *)
Lemma slice_down_spec (fuel : nat) vec (i stop step : Z) new_vec :
  - 2 ^ 31 <= step < 0 -> -1 <= stop -> i < Z.of_nat (length vec) ->
  i - stop <= Z.of_nat fuel -> i < 2 ^ 31 ->
  exists r, slice_down fuel vec i stop step new_vec = Ok (new_vec ++ r) /\
            forall j : nat,
              r !! j = if i + Z.of_nat j * step >? stop
                       then vec !! Z.to_nat (i + Z.of_nat j * step) else None.
Proof.
  intros Hstep Hstop. revert i new_vec.
  induction fuel as [|fuel IH]; intros i new_vec Hi Hfuel Hov.
  - exists []. cbn [slice_down]. destruct (Z.gtb_spec i stop); [lia |].
    rewrite app_nil_r. split; [reflexivity |]. intros j.
    destruct (Z.gtb_spec (i + Z.of_nat j * step) stop); [nia | reflexivity].
  - cbn [slice_down]. destruct (Z.gtb_spec i stop) as [Hgt | Hle].
    + destruct (at_index_total vec i) as [x Hx]; [lia |].
      rewrite Hx. cbn [bind]. rewrite fits_int_true by lia. cbn [bind].
      destruct (IH (i + step) (new_vec ++ [x])) as [r [Hr Hj]]; try lia.
      exists (x :: r). split.
      * rewrite Hr, <- app_assoc. reflexivity.
      * intros [|j].
        -- rewrite Z.add_0_r. destruct (Z.gtb_spec i stop); [| lia].
           apply at_index_Ok in Hx as [_ Hx]. cbn. symmetry. exact Hx.
        -- rewrite lookup_cons. rewrite Hj.
           replace (i + step + Z.of_nat j * step)
             with (i + Z.of_nat (S j) * step) by lia.
           reflexivity.
    + exists []. rewrite app_nil_r. split; [reflexivity |]. intros j.
      destruct (Z.gtb_spec (i + Z.of_nat j * step) stop); [nia | reflexivity].
Qed.

End SliceLoops.

Lemma slice_index_range (size z : Z) :
  0 <= size -> - 2 ^ 31 <= z -> - 2 ^ 31 <= slice_index size z <= size.
Proof.
  intros Hs Hz. unfold slice_index. destruct (Z.ltb_spec z 0); lia.
Qed.

Lemma quot_count (d step : Z) : 0 <= d -> 0 < step -> 0 <= Z.quot d step <= d.
Proof.
  intros Hd Hs. rewrite Z.quot_div_nonneg by lia. split.
  - apply Z.div_pos; lia.
  - apply Z.div_le_upper_bound; nia.
Qed.

Section SliceCalls.

Context {T : Type}.
Implicit Types (vec r : list T).

(** With a positive step the call runs the forward loop between the
    clamped indices. *)
Lemma vector_slice_forward_loop vec (start stop step : Z) :
  Z.of_nat (length vec) < 2 ^ 31 - 1 ->
  - 2 ^ 31 <= start < 2 ^ 31 -> - 2 ^ 31 <= stop < 2 ^ 31 ->
  0 < step < 2 ^ 31 ->
  vector_slice vec start stop step =
  let lo := Z.max (slice_index (Z.of_nat (length vec)) start) 0 in
  let hi := slice_index (Z.of_nat (length vec)) stop in
  if lo <? hi then
    let* r := slice_up (slice_budget vec) vec lo hi step [] in Ok (Returns r)
  else Ok (Returns []).
Proof.
  intros Hsize Hstart Hstop Hstep. unfold vector_slice.
  destruct (Z.eqb_spec step 0); [lia |].
  rewrite !clamp_index by lia.
  pose proof (slice_index_range (Z.of_nat (length vec)) start ltac:(lia) ltac:(lia))
    as Hr1.
  pose proof (slice_index_range (Z.of_nat (length vec)) stop ltac:(lia) ltac:(lia))
    as Hr2.
  set (lo0 := slice_index (Z.of_nat (length vec)) start) in *.
  set (hi := slice_index (Z.of_nat (length vec)) stop) in *.
  cbv zeta.
  destruct (Z.gtb_spec lo0 hi) as [Hgt | Hle].
  - destruct (Z.ltb_spec step 0); [lia |]. rewrite andb_false_r.
    destruct (Z.ltb_spec (Z.max lo0 0) hi); [lia | reflexivity].
  - destruct (Z.ltb_spec lo0 hi) as [Hlt | Hge].
    + destruct (Z.eqb_spec (Z.max lo0 0) hi) as [He | Hne]; cbn [negb andb].
      { destruct (Z.ltb_spec (Z.max lo0 0) hi); [lia | reflexivity]. }
      destruct (Z.leb_spec 0 hi) as [H0 | H0]; cbn [andb].
      * destruct (Z.ltb_spec 0 step); [| lia].
        destruct (Z.ltb_spec (Z.max lo0 0) hi); [| lia].
        pose proof (quot_count (hi - Z.max lo0 0 - 1) step ltac:(lia) ltac:(lia)).
        rewrite (fits_int_true (hi - Z.max lo0 0)) by lia. cbn [bind].
        rewrite (fits_int_true (hi - Z.max lo0 0 - 1)) by lia. cbn [bind].
        unfold int_quot. destruct (Z.eqb_spec step 0); [lia |].
        rewrite fits_int_true by lia. cbn [bind].
        rewrite fits_int_true by lia. cbn [bind].
        destruct (Z.ltb_spec (1 + Z.quot (hi - Z.max lo0 0 - 1) step) 0); [lia |].
        reflexivity.
      * destruct (Z.ltb_spec (Z.max lo0 0) hi); [lia | reflexivity].
    + destruct (Z.ltb_spec (Z.max lo0 0) hi); [lia | reflexivity].
Qed.

(** With a negative step it runs the backward loop from the index below
    the clamped [start] down to the clamped [stop]. *)
Lemma vector_slice_backward_loop vec (start stop step : Z) :
  Z.of_nat (length vec) < 2 ^ 31 - 1 ->
  - 2 ^ 31 <= start < 2 ^ 31 -> - 2 ^ 31 <= stop < 2 ^ 31 ->
  - 2 ^ 31 <= step < 0 ->
  vector_slice vec start stop step =
  let hi := slice_index (Z.of_nat (length vec)) start in
  let lo := Z.max (slice_index (Z.of_nat (length vec)) stop) (-1) in
  if lo <? hi - 1 then
    let* r := slice_down (slice_budget vec) vec (hi - 1) lo step [] in Ok (Returns r)
  else Ok (Returns []).
Proof.
  intros Hsize Hstart Hstop Hstep. unfold vector_slice.
  destruct (Z.eqb_spec step 0); [lia |].
  rewrite !clamp_index by lia.
  pose proof (slice_index_range (Z.of_nat (length vec)) start ltac:(lia) ltac:(lia))
    as Hr1.
  pose proof (slice_index_range (Z.of_nat (length vec)) stop ltac:(lia) ltac:(lia))
    as Hr2.
  set (hi := slice_index (Z.of_nat (length vec)) start) in *.
  set (lo0 := slice_index (Z.of_nat (length vec)) stop) in *.
  cbv zeta.
  destruct (Z.gtb_spec hi lo0) as [Hgt | Hle].
  - destruct (Z.eqb_spec hi (Z.max lo0 (-1))) as [He | Hne]; cbn [negb andb].
    { destruct (Z.ltb_spec (Z.max lo0 (-1)) (hi - 1)); [lia | reflexivity]. }
    destruct (Z.leb_spec 0 hi) as [H0 | H0]; cbn [andb].
    + destruct (Z.ltb_spec step 0); [| lia].
      rewrite (fits_int_true (Z.max lo0 (-1) - hi)) by lia. cbn [bind].
      rewrite (fits_int_true (Z.max lo0 (-1) - hi + 1)) by lia. cbn [bind].
      assert (Hq : 0 <= Z.quot (Z.max lo0 (-1) - hi + 1) step <= hi).
      { rewrite <- Z.quot_opp_opp by lia.
        pose proof (quot_count (- (Z.max lo0 (-1) - hi + 1)) (- step) ltac:(lia) ltac:(lia)).
        lia. }
      unfold int_quot. destruct (Z.eqb_spec step 0); [lia |].
      rewrite fits_int_true by lia. cbn [bind].
      rewrite fits_int_true by lia. cbn [bind].
      destruct (Z.ltb_spec (1 + Z.quot (Z.max lo0 (-1) - hi + 1) step) 0); [lia |].
      rewrite fits_int_true by lia. cbn [bind].
      destruct (Z.ltb_spec (Z.max lo0 (-1)) (hi - 1)) as [Hl | Hl]; [reflexivity |].
      assert (hi - 1 = Z.max lo0 (-1)) as -> by lia.
      destruct (slice_budget vec); cbn [slice_down];
        (destruct (Z.gtb_spec (Z.max lo0 (-1)) (Z.max lo0 (-1))); [lia | reflexivity]).
    + destruct (Z.ltb_spec (Z.max lo0 (-1)) (hi - 1)); [lia | reflexivity].
  - destruct (Z.ltb_spec hi lo0).
    + destruct (Z.eqb_spec (Z.max hi 0) lo0); cbn [negb andb].
      { destruct (Z.ltb_spec (Z.max lo0 (-1)) (hi - 1)); [lia | reflexivity]. }
      destruct (Z.ltb_spec 0 step); [lia |]. rewrite andb_false_r.
      destruct (Z.ltb_spec (Z.max lo0 (-1)) (hi - 1)); [lia | reflexivity].
    + destruct (Z.ltb_spec (Z.max lo0 (-1)) (hi - 1)); [lia | reflexivity].
Qed.

End SliceCalls.

(** X16. A slice with a positive step. For a vector of fewer than [2^31 - 1]
    elements, [int] arguments and [0 < step] with [step + size < 2^31], the
    call returns the elements at the indices [lo], [lo + step], [lo + 2
    step], ... below [hi], where [lo] and [hi] are the clamped [start] (at
    least 0) and [stop]. *)
Theorem vector_slice_forward {T : Type} (vec : list T) (start stop step : Z) :
  Z.of_nat (length vec) < 2 ^ 31 - 1 ->
  - 2 ^ 31 <= start < 2 ^ 31 -> - 2 ^ 31 <= stop < 2 ^ 31 ->
  0 < step -> step + Z.of_nat (length vec) < 2 ^ 31 ->
  exists r, vector_slice vec start stop step = Ok (Returns r) /\
    forall j : nat,
      r !! j =
      let i := Z.max (slice_index (Z.of_nat (length vec)) start) 0 + Z.of_nat j * step in
      if i <? slice_index (Z.of_nat (length vec)) stop then vec !! Z.to_nat i else None.
Proof.
  intros Hsize Hstart Hstop Hstep Hov.
  rewrite vector_slice_forward_loop by lia. cbv zeta.
  pose proof (slice_index_range (Z.of_nat (length vec)) stop ltac:(lia) ltac:(lia))
    as Hhi.
  set (lo := Z.max (slice_index (Z.of_nat (length vec)) start) 0).
  set (hi := slice_index (Z.of_nat (length vec)) stop) in *.
  assert (Hb : Z.of_nat (slice_budget vec) = Z.of_nat (length vec) + 1)
    by (unfold slice_budget; lia).
  destruct (Z.ltb_spec lo hi) as [Hlt | Hge].
  - destruct (slice_up_spec (slice_budget vec) vec lo hi step [])
      as [r [Hr Hj]]; try lia.
    rewrite Hr. cbn [bind app]. exists r. split; [reflexivity | exact Hj].
  - exists []. split; [reflexivity |]. intros j.
    destruct (Z.ltb_spec (lo + Z.of_nat j * step) hi); [nia | reflexivity].
Qed.

(** X16 at the vector 10 .. 50 sliced from 1 to -1 (that is, 4) in steps of
    2: the elements 20 and 40. *)
Lemma vector_slice_forward_witness :
  exists r, vector_slice [10; 20; 30; 40; 50] 1 (-1) 2 = Ok (Returns r) /\
    forall j : nat,
      r !! j =
      let i := Z.max (slice_index 5 1) 0 + Z.of_nat j * 2 in
      if i <? slice_index 5 (-1) then [10; 20; 30; 40; 50] !! Z.to_nat i else None.
Proof.
  apply (vector_slice_forward [10; 20; 30; 40; 50] 1 (-1) 2); cbn [length]; lia.
Defined.

(** X17. A slice with a negative step. For a vector of fewer than [2^31 - 1]
    elements and [int] arguments with [step < 0], the call returns the
    elements at the indices [hi - 1], [hi - 1 + step], [hi - 1 + 2 step],
    ... above [lo], where [hi] is the clamped [start] and [lo] the clamped
    [stop] (at least -1): the element at the clamped [start] itself is not
    part of the slice. *)
Theorem vector_slice_backward {T : Type} (vec : list T) (start stop step : Z) :
  Z.of_nat (length vec) < 2 ^ 31 - 1 ->
  - 2 ^ 31 <= start < 2 ^ 31 -> - 2 ^ 31 <= stop < 2 ^ 31 ->
  - 2 ^ 31 <= step < 0 ->
  exists r, vector_slice vec start stop step = Ok (Returns r) /\
    forall j : nat,
      r !! j =
      let i := slice_index (Z.of_nat (length vec)) start - 1 + Z.of_nat j * step in
      if i >? Z.max (slice_index (Z.of_nat (length vec)) stop) (-1)
      then vec !! Z.to_nat i else None.
Proof.
  intros Hsize Hstart Hstop Hstep.
  rewrite vector_slice_backward_loop by lia. cbv zeta.
  pose proof (slice_index_range (Z.of_nat (length vec)) start ltac:(lia) ltac:(lia))
    as Hhi.
  set (hi := slice_index (Z.of_nat (length vec)) start) in *.
  set (lo := Z.max (slice_index (Z.of_nat (length vec)) stop) (-1)).
  assert (Hlo : -1 <= lo) by (unfold lo; lia).
  assert (Hb : Z.of_nat (slice_budget vec) = Z.of_nat (length vec) + 1)
    by (unfold slice_budget; lia).
  destruct (Z.ltb_spec lo (hi - 1)) as [Hlt | Hge].
  - destruct (slice_down_spec (slice_budget vec) vec (hi - 1) lo step [])
      as [r [Hr Hj]]; try lia.
    rewrite Hr. cbn [bind app]. exists r. split; [reflexivity | exact Hj].
  - exists []. split; [reflexivity |]. intros j.
    destruct (Z.gtb_spec (hi - 1 + Z.of_nat j * step) lo); [nia | reflexivity].
Qed.

(** X17 at the vector 10 .. 50 sliced from 5 down to 0 in steps of -2: the
    indices 4 and 2. *)
Lemma vector_slice_backward_witness :
  exists r, vector_slice [10; 20; 30; 40; 50] 5 0 (-2) = Ok (Returns r) /\
    forall j : nat,
      r !! j =
      let i := slice_index 5 5 - 1 + Z.of_nat j * (-2) in
      if i >? Z.max (slice_index 5 0) (-1)
      then [10; 20; 30; 40; 50] !! Z.to_nat i else None.
Proof.
  apply (vector_slice_backward [10; 20; 30; 40; 50] 5 0 (-2)); cbn [length]; lia.
Defined.

(** X18. With step 1 the slice is the part of the vector from the clamped
    [start] (at least 0) up to the clamped [stop], the latter excluded; it
    is empty when [stop] is not above [start]. *)
Theorem vector_slice_contiguous {T : Type} (vec : list T) (start stop : Z) :
  Z.of_nat (length vec) < 2 ^ 31 - 1 ->
  - 2 ^ 31 <= start < 2 ^ 31 -> - 2 ^ 31 <= stop < 2 ^ 31 ->
  let lo := Z.max (slice_index (Z.of_nat (length vec)) start) 0 in
  let hi := slice_index (Z.of_nat (length vec)) stop in
  vector_slice vec start stop 1 =
  Ok (Returns (take (Z.to_nat (hi - lo)) (drop (Z.to_nat lo) vec))).
Proof.
  intros Hsize Hstart Hstop lo hi.
  rewrite vector_slice_forward_loop by lia. cbv zeta. fold lo hi.
  pose proof (slice_index_range (Z.of_nat (length vec)) stop ltac:(lia) ltac:(lia))
    as Hhi. fold hi in Hhi.
  assert (Hlo : 0 <= lo) by (unfold lo; lia).
  assert (Hb : Z.of_nat (slice_budget vec) = Z.of_nat (length vec) + 1)
    by (unfold slice_budget; lia).
  destruct (Z.ltb_spec lo hi) as [Hlt | Hge].
  - destruct (slice_up_spec (slice_budget vec) vec lo hi 1 [])
      as [r [Hr Hj]]; try lia.
    rewrite Hr. cbn [bind app]. do 2 f_equal.
    apply list_eq. intros j. rewrite Hj.
    destruct (Z.ltb_spec (lo + Z.of_nat j * 1) hi) as [Hin | Hout].
    + rewrite lookup_take_lt by lia. rewrite lookup_drop. f_equal. lia.
    + symmetry. apply lookup_take_ge. lia.
  - replace (Z.to_nat (hi - lo)) with 0%nat by lia. reflexivity.
Qed.

(** X18 at [start = -4] (that is, 1) and [stop = 9] (clamped to 5). *)
Lemma vector_slice_contiguous_witness :
  vector_slice [10; 20; 30; 40; 50] (-4) 9 1 = Ok (Returns [20; 30; 40; 50]).
Proof.
  apply (vector_slice_contiguous [10; 20; 30; 40; 50] (-4) 9); cbn [length]; lia.
Defined.

(** X19. With step -1 the slice is the part of the vector strictly between
    the clamped [stop] (at least -1) and the clamped [start], in reverse
    order. *)
Theorem vector_slice_reversed {T : Type} (vec : list T) (start stop : Z) :
  Z.of_nat (length vec) < 2 ^ 31 - 1 ->
  - 2 ^ 31 <= start < 2 ^ 31 -> - 2 ^ 31 <= stop < 2 ^ 31 ->
  let hi := slice_index (Z.of_nat (length vec)) start in
  let lo := Z.max (slice_index (Z.of_nat (length vec)) stop) (-1) in
  vector_slice vec start stop (-1) =
  Ok (Returns (reverse (take (Z.to_nat (hi - 1 - lo)) (drop (Z.to_nat (lo + 1)) vec)))).
Proof.
  intros Hsize Hstart Hstop hi lo.
  rewrite vector_slice_backward_loop by lia. cbv zeta. fold hi lo.
  pose proof (slice_index_range (Z.of_nat (length vec)) start ltac:(lia) ltac:(lia))
    as Hhi. fold hi in Hhi.
  assert (Hlo : -1 <= lo) by (unfold lo; lia).
  assert (Hb : Z.of_nat (slice_budget vec) = Z.of_nat (length vec) + 1)
    by (unfold slice_budget; lia).
  destruct (Z.ltb_spec lo (hi - 1)) as [Hlt | Hge].
  - destruct (slice_down_spec (slice_budget vec) vec (hi - 1) lo (-1) [])
      as [r [Hr Hj]]; try lia.
    rewrite Hr. cbn [bind app]. do 2 f_equal.
    set (piece := take (Z.to_nat (hi - 1 - lo)) (drop (Z.to_nat (lo + 1)) vec)).
    assert (Hlen : length piece = Z.to_nat (hi - 1 - lo)).
    { unfold piece. rewrite length_take, length_drop. lia. }
    apply list_eq. intros j. rewrite Hj.
    destruct (Z.gtb_spec (hi - 1 + Z.of_nat j * -1) lo) as [Hin | Hout].
    + rewrite reverse_lookup by lia. rewrite Hlen. unfold piece.
      rewrite lookup_take_lt by lia. rewrite lookup_drop. f_equal. lia.
    + symmetry. apply lookup_ge_None. rewrite length_reverse. lia.
  - replace (Z.to_nat (hi - 1 - lo)) with 0%nat by lia. reflexivity.
Qed.

(** X19 at [start = 5] and [stop = -6] (that is, -1): the whole vector,
    reversed. *)
Lemma vector_slice_reversed_witness :
  vector_slice [10; 20; 30; 40; 50] 5 (-6) (-1) = Ok (Returns [50; 40; 30; 20; 10]).
Proof.
  apply (vector_slice_reversed [10; 20; 30; 40; 50] 5 (-6)); cbn [length]; lia.
Defined.

Lemma clamp_negative (size z : Z) :
  0 <= size < 2 ^ 31 -> - size <= z < 0 -> clamp size z = clamp size (z + size).
Proof.
  intros Hs Hz. rewrite !clamp_index by lia. unfold slice_index.
  destruct (Z.ltb_spec z 0); [| lia].
  destruct (Z.ltb_spec (z + size) 0); lia.
Qed.

Lemma clamp_beyond (size z : Z) :
  0 <= size < 2 ^ 31 -> size <= z < 2 ^ 31 -> clamp size z = clamp size size.
Proof.
  intros Hs Hz. rewrite !clamp_index by lia. unfold slice_index.
  destruct (Z.ltb_spec z 0), (Z.ltb_spec size 0); lia.
Qed.

(** X20. Indices are normalised. For a vector of fewer than [2^31] elements
    and any step: a [start] or [stop] in [[-size, 0)] gives the same outcome
    as that index plus [size], and one in [[size, 2^31)] the same outcome as
    [size]. *)
Theorem vector_slice_index_normalised {T : Type} (vec : list T) (start stop step : Z) :
  Z.of_nat (length vec) < 2 ^ 31 ->
  let size := Z.of_nat (length vec) in
  (- size <= start < 0 ->
   vector_slice vec start stop step = vector_slice vec (start + size) stop step) /\
  (- size <= stop < 0 ->
   vector_slice vec start stop step = vector_slice vec start (stop + size) step) /\
  (size <= start < 2 ^ 31 ->
   vector_slice vec start stop step = vector_slice vec size stop step) /\
  (size <= stop < 2 ^ 31 ->
   vector_slice vec start stop step = vector_slice vec start size step).
Proof.
  intros Hsize size. unfold vector_slice. fold size.
  repeat split; intros H.
  - rewrite (clamp_negative size start) by lia. reflexivity.
  - rewrite (clamp_negative size stop) by lia. reflexivity.
  - rewrite (clamp_beyond size start) by lia. reflexivity.
  - rewrite (clamp_beyond size stop) by lia. reflexivity.
Qed.

(** X20 at a vector of three elements. *)
Lemma vector_slice_index_normalised_witness :
  (vector_slice [10; 20; 30] (-2) 3 1 = vector_slice [10; 20; 30] 1 3 1) /\
  (vector_slice [10; 20; 30] 0 (-1) 1 = vector_slice [10; 20; 30] 0 2 1) /\
  (vector_slice [10; 20; 30] 7 0 (-1) = vector_slice [10; 20; 30] 3 0 (-1)) /\
  (vector_slice [10; 20; 30] 0 7 1 = vector_slice [10; 20; 30] 0 3 1).
Proof.
  split; [| split; [| split]].
  - apply (vector_slice_index_normalised [10; 20; 30] (-2) 3 1); cbn [length]; lia.
  - apply (vector_slice_index_normalised [10; 20; 30] 0 (-1) 1); cbn [length]; lia.
  - apply (vector_slice_index_normalised [10; 20; 30] 7 0 (-1)); cbn [length]; lia.
  - apply (vector_slice_index_normalised [10; 20; 30] 0 7 1); cbn [length]; lia.
Defined.

(** X21. [vector_slice] throws for step 0 and for nothing else. For a vector
    of fewer than [2^31 - 1] elements and [int] arguments with [step + size
    < 2^31]: with [step == 0] the call throws [std::invalid_argument("slice
    step cannot be zero")]; with any other step it returns, without
    undefined behaviour, a vector of at most [size] elements, each an
    element of [vec]. *)
Theorem vector_slice_throws_iff {T : Type} (vec : list T) (start stop step : Z) :
  Z.of_nat (length vec) < 2 ^ 31 - 1 ->
  - 2 ^ 31 <= start < 2 ^ 31 -> - 2 ^ 31 <= stop < 2 ^ 31 ->
  - 2 ^ 31 <= step -> step + Z.of_nat (length vec) < 2 ^ 31 ->
  (step = 0 ->
   vector_slice vec start stop step =
   Ok (Throws (invalid_argument "slice step cannot be zero"))) /\
  (step <> 0 ->
   exists r, vector_slice vec start stop step = Ok (Returns r) /\
             (length r <= length vec)%nat /\ forall x, x ∈ r -> x ∈ vec).
Proof.
  intros Hsize Hstart Hstop Hstep Hov. split.
  - intros ->. reflexivity.
  - intros Hne.
    pose proof (slice_index_range (Z.of_nat (length vec)) start ltac:(lia) ltac:(lia))
      as Hr1.
    pose proof (slice_index_range (Z.of_nat (length vec)) stop ltac:(lia) ltac:(lia))
      as Hr2.
    assert (Hb : Z.of_nat (slice_budget vec) = Z.of_nat (length vec) + 1)
      by (unfold slice_budget; lia).
    assert (Hmem : forall (r : list T) (f : nat -> option Z),
              (forall j, r !! j = match f j with Some i => vec !! Z.to_nat i | None => None end) ->
              (forall j i, f j = Some i -> Z.of_nat j < Z.of_nat (length vec)) ->
              (length r <= length vec)%nat /\ forall x, x ∈ r -> x ∈ vec).
    { intros r f Hj Hf. split.
      - destruct (le_lt_dec (length r) (length vec)) as [Hle | Hgt]; [exact Hle |].
        destruct (lookup_lt_is_Some_2 r (length vec) Hgt) as [x Hx].
        rewrite Hj in Hx. destruct (f (length vec)) as [i|] eqn:Hi; [| discriminate].
        specialize (Hf _ _ Hi). lia.
      - intros x Hx. apply list_elem_of_lookup_1 in Hx as [j Hx].
        rewrite Hj in Hx. destruct (f j); [| discriminate].
        eapply list_elem_of_lookup_2; eauto. }
    destruct (Z.ltb_spec 0 step) as [Hpos | Hneg].
    + rewrite vector_slice_forward_loop by lia. cbv zeta.
      set (lo := Z.max (slice_index (Z.of_nat (length vec)) start) 0).
      set (hi := slice_index (Z.of_nat (length vec)) stop) in *.
      destruct (Z.ltb_spec lo hi) as [Hlt | Hge].
      * destruct (slice_up_spec (slice_budget vec) vec lo hi step [])
          as [r [Hr Hj]]; try lia.
        rewrite Hr. cbn [bind app]. exists r. split; [reflexivity |].
        apply (Hmem r (fun j => if lo + Z.of_nat j * step <? hi
                                then Some (lo + Z.of_nat j * step) else None)).
        -- intros j. rewrite Hj.
           destruct (lo + Z.of_nat j * step <? hi); reflexivity.
        -- intros j i. destruct (Z.ltb_spec (lo + Z.of_nat j * step) hi);
             [| discriminate]. intros _. nia.
      * exists []. split; [reflexivity |]. split; [cbn; lia |].
        intros x Hx. apply elem_of_nil in Hx. contradiction.
    + rewrite vector_slice_backward_loop by lia. cbv zeta.
      set (hi := slice_index (Z.of_nat (length vec)) start) in *.
      set (lo := Z.max (slice_index (Z.of_nat (length vec)) stop) (-1)).
      assert (Hlo : -1 <= lo) by (unfold lo; lia).
      destruct (Z.ltb_spec lo (hi - 1)) as [Hlt | Hge].
      * destruct (slice_down_spec (slice_budget vec) vec (hi - 1) lo step [])
          as [r [Hr Hj]]; try lia.
        rewrite Hr. cbn [bind app]. exists r. split; [reflexivity |].
        apply (Hmem r (fun j => if hi - 1 + Z.of_nat j * step >? lo
                                then Some (hi - 1 + Z.of_nat j * step) else None)).
        -- intros j. rewrite Hj.
           destruct (hi - 1 + Z.of_nat j * step >? lo); reflexivity.
        -- intros j i. destruct (Z.gtb_spec (hi - 1 + Z.of_nat j * step) lo);
             [| discriminate]. intros _. nia.
      * exists []. split; [reflexivity |]. split; [cbn; lia |].
        intros x Hx. apply elem_of_nil in Hx. contradiction.
Qed.

(** X21 at step 0, and at step 3 with both indices out of range. *)
Lemma vector_slice_throws_iff_witness :
  vector_slice [10; 20; 30] 0 3 0 =
  Ok (Throws (invalid_argument "slice step cannot be zero")) /\
  exists r, vector_slice [10; 20; 30; 40] (-9) 9 3 = Ok (Returns r) /\
            (length r <= 4)%nat /\ forall x, x ∈ r -> x ∈ [10; 20; 30; 40].
Proof.
  split.
  - apply (vector_slice_throws_iff [10; 20; 30] 0 3 0); cbn [length]; lia.
  - apply (vector_slice_throws_iff [10; 20; 30; 40] (-9) 9 3); cbn [length]; lia.
Defined.

(** X22. A large step overflows. For a vector of fewer than [2^31 - 1]
    elements and [int] arguments with a positive step: when the slice is not
    empty (the clamped [start] is below the clamped [stop]) and the clamped
    [start] plus [step] is [2^31] or more, the statement [i += step] after
    the first element overflows [int], and the call has undefined behaviour
    instead of returning the one-element slice. *)
Theorem vector_slice_step_overflow {T : Type} (vec : list T) (start stop step : Z) :
  Z.of_nat (length vec) < 2 ^ 31 - 1 ->
  - 2 ^ 31 <= start < 2 ^ 31 -> - 2 ^ 31 <= stop < 2 ^ 31 ->
  0 < step < 2 ^ 31 ->
  let lo := Z.max (slice_index (Z.of_nat (length vec)) start) 0 in
  let hi := slice_index (Z.of_nat (length vec)) stop in
  lo < hi -> 2 ^ 31 <= lo + step ->
  vector_slice vec start stop step = Undefined.
Proof.
  intros Hsize Hstart Hstop Hstep lo hi Hlt Hov.
  rewrite vector_slice_forward_loop by lia. cbv zeta. fold lo hi.
  pose proof (slice_index_range (Z.of_nat (length vec)) stop ltac:(lia) ltac:(lia))
    as Hhi. fold hi in Hhi.
  destruct (Z.ltb_spec lo hi); [| lia].
  unfold slice_budget. cbn [slice_up].
  destruct (Z.ltb_spec lo hi); [| lia].
  destruct (at_index_total vec lo) as [x Hx]; [unfold lo in *; lia |].
  rewrite Hx. cbn [bind]. unfold int_op, fits_int.
  destruct (Z.ltb_spec (lo + step) (2 ^ 31)); [lia |].
  rewrite andb_false_r. reflexivity.
Qed.

(** X22 at a vector of three elements sliced from 1 to 3 with the step
    [INT_MAX]: after [vec[1]] is read, [i += step] leaves [int]. *)
Lemma vector_slice_step_overflow_witness :
  vector_slice [10; 20; 30] 1 3 (2 ^ 31 - 1) = Undefined.
Proof.
  apply (vector_slice_step_overflow [10; 20; 30] 1 3 (2 ^ 31 - 1));
    cbn [length]; unfold slice_index; cbn; lia.
Defined.

(** ** The loops of vector_slice end *)

Section SliceBudget.

Context {T : Type}.
Implicit Types (vec new_vec : list T).

Lemma int_op_cases (z : Z) : int_op z = Ok z \/ int_op z = Undefined.
Proof. unfold int_op. destruct (fits_int z); auto. Qed.

Lemma slice_up_ends (fuel : nat) vec (i stop step : Z) new_vec :
  0 < step -> 0 <= i -> (1 <= fuel)%nat ->
  Z.of_nat (length vec) < Z.of_nat fuel + i ->
  slice_up fuel vec i stop step new_vec <> Diverges.
Proof.
  intros Hstep. revert i new_vec.
  induction fuel as [|fuel IH]; intros i new_vec Hi Hf Hlen; [lia |].
  cbn [slice_up]. destruct (i <? stop); [| discriminate].
  destruct (at_index_cases vec i) as [[x Hx] | Hx]; rewrite Hx; cbn [bind];
    [| discriminate].
  apply at_index_Ok in Hx as [_ Hx]. apply lookup_lt_Some in Hx.
  destruct (int_op_cases (i + step)) as [Hz | Hz]; rewrite Hz; cbn [bind];
    [| discriminate].
  apply IH; lia.
Qed.

Lemma slice_down_ends (fuel : nat) vec (i stop step : Z) new_vec :
  step < 0 -> -1 <= stop ->
  i < Z.of_nat fuel \/ ((1 <= fuel)%nat /\ Z.of_nat (length vec) <= i) ->
  slice_down fuel vec i stop step new_vec <> Diverges.
Proof.
  intros Hstep Hstop. revert i new_vec.
  induction fuel as [|fuel IH]; intros i new_vec Hf.
  - cbn [slice_down]. destruct (Z.gtb_spec i stop); [lia | discriminate].
  - cbn [slice_down]. destruct (i >? stop); [| discriminate].
    destruct (at_index_cases vec i) as [[x Hx] | Hx]; rewrite Hx; cbn [bind];
      [| discriminate].
    apply at_index_Ok in Hx as [Hi Hx]. apply lookup_lt_Some in Hx.
    destruct (int_op_cases (i + step)) as [Hz | Hz]; rewrite Hz; cbn [bind];
      [| discriminate].
    apply IH. left. lia.
Qed.

(** Whatever its arguments, the budget of the model is never used up. *)
Lemma vector_slice_ends vec (start stop step : Z) :
  vector_slice vec start stop step <> Diverges.
Proof.
  unfold vector_slice. destruct (step =? 0); [discriminate |].
  set (a := clamp (Z.of_nat (length vec)) start).
  set (b := clamp (Z.of_nat (length vec)) stop).
  destruct (a >? b).
  - destruct (Z.eqb_spec a (Z.max b (-1))); cbn [negb andb]; [discriminate |].
    destruct (Z.leb_spec 0 a); cbn [andb]; [| discriminate].
    destruct (Z.ltb_spec step 0); [| discriminate].
    destruct (int_op_cases (Z.max b (-1) - a)) as [H1 | H1]; rewrite H1; cbn [bind];
      [| discriminate].
    destruct (int_op_cases (Z.max b (-1) - a + 1)) as [H2 | H2]; rewrite H2;
      cbn [bind]; [| discriminate].
    unfold int_quot. destruct (step =? 0); cbn [bind]; [discriminate |].
    destruct (int_op_cases (Z.quot (Z.max b (-1) - a + 1) step)) as [H3 | H3];
      rewrite H3; cbn [bind]; [| discriminate].
    destruct (int_op_cases (1 + Z.quot (Z.max b (-1) - a + 1) step)) as [H4 | H4];
      rewrite H4; cbn [bind]; [| discriminate].
    destruct (_ <? 0); [discriminate |].
    destruct (int_op_cases (a - 1)) as [H5 | H5]; rewrite H5; cbn [bind];
      [| discriminate].
    pose proof (slice_down_ends (slice_budget vec) vec (a - 1) (Z.max b (-1)) step [])
      as Hd.
    destruct (slice_down _ _ _ _ _ _); cbn [bind]; try discriminate.
    exfalso. apply Hd; try lia; [| reflexivity]. unfold slice_budget.
    destruct (Z.lt_ge_cases (a - 1) (Z.of_nat (S (length vec)))); [left; lia |].
    right. split; lia.
  - destruct (a <? b); [| discriminate].
    destruct (Z.eqb_spec (Z.max a 0) b); cbn [negb andb]; [discriminate |].
    destruct (Z.leb_spec 0 b); cbn [andb]; [| discriminate].
    destruct (Z.ltb_spec 0 step); [| discriminate].
    destruct (int_op_cases (b - Z.max a 0)) as [H1 | H1]; rewrite H1; cbn [bind];
      [| discriminate].
    destruct (int_op_cases (b - Z.max a 0 - 1)) as [H2 | H2]; rewrite H2;
      cbn [bind]; [| discriminate].
    unfold int_quot. destruct (step =? 0); cbn [bind]; [discriminate |].
    destruct (int_op_cases (Z.quot (b - Z.max a 0 - 1) step)) as [H3 | H3];
      rewrite H3; cbn [bind]; [| discriminate].
    destruct (int_op_cases (1 + Z.quot (b - Z.max a 0 - 1) step)) as [H4 | H4];
      rewrite H4; cbn [bind]; [| discriminate].
    destruct (_ <? 0); [discriminate |].
    pose proof (slice_up_ends (slice_budget vec) vec (Z.max a 0) b step []) as Hu.
    destruct (slice_up _ _ _ _ _ _); cbn [bind]; try discriminate.
    exfalso. apply Hu; unfold slice_budget; try lia. reflexivity.
Qed.

End SliceBudget.

(** * PYTHON_VERSION *)

Lemma lor_low_bits (x n y : Z) :
  0 <= n -> 0 <= y < 2 ^ n -> Z.lor (x * 2 ^ n) y = x * 2 ^ n + y.
Proof.
  intros Hn Hy. rewrite <- Z.add_lor_land.
  replace (Z.land (x * 2 ^ n) y) with 0; [lia |].
  symmetry. apply Z.bits_inj'. intros i Hi.
  rewrite Z.land_spec, Z.bits_0.
  destruct (Z.lt_ge_cases i n) as [Hlt | Hge].
  - rewrite Z.mul_pow2_bits_low by lia. reflexivity.
  - destruct (Z.eq_dec y 0) as [-> | Hy0]; [rewrite Z.bits_0; apply andb_false_r |].
    rewrite (Z.bits_above_log2 y i), andb_false_r; [reflexivity | lia |].
    apply Z.log2_lt_pow2; [lia |].
    apply Z.lt_le_trans with (2 ^ n); [lia |]. apply Z.pow_le_mono_r; lia.
Qed.

Lemma PYTHON_VERSION_value (major minor micro low : Z) :
  0 <= minor < 256 -> 0 <= micro < 256 -> 0 <= low < 256 ->
  Z.lor (PYTHON_VERSION major minor micro) low =
  major * 2 ^ 24 + minor * 2 ^ 16 + micro * 2 ^ 8 + low.
Proof.
  intros Hminor Hmicro Hlow. unfold PYTHON_VERSION.
  rewrite !Z.shiftl_mul_pow2 by lia.
  rewrite (lor_low_bits major 24 (minor * 2 ^ 16)) by lia.
  replace (major * 2 ^ 24 + minor * 2 ^ 16)
    with ((major * 2 ^ 8 + minor) * 2 ^ 16) by lia.
  rewrite (lor_low_bits _ 16 (micro * 2 ^ 8)) by lia.
  replace ((major * 2 ^ 8 + minor) * 2 ^ 16 + micro * 2 ^ 8)
    with (((major * 2 ^ 8 + minor) * 2 ^ 8 + micro) * 2 ^ 8) by lia.
  rewrite (lor_low_bits _ 8 low) by lia. lia.
Qed.

(** X23. [PYTHON_VERSION] orders versions. For [minor] and [micro] below 256
    (and [major] below [2^39], so that [intmax_t] holds the result), a
    version word [PYTHON_VERSION(major, minor, micro) | low] with any low
    byte (as [PY_VERSION_HEX] has) is below [PYTHON_VERSION(major', minor',
    micro')] exactly when [(major, minor, micro)] is below [(major', minor',
    micro')] in lexicographic order. *)
Theorem PYTHON_VERSION_order (major minor micro low major' minor' micro' : Z) :
  0 <= major < 2 ^ 39 -> 0 <= major' < 2 ^ 39 ->
  0 <= minor < 256 -> 0 <= micro < 256 -> 0 <= low < 256 ->
  0 <= minor' < 256 -> 0 <= micro' < 256 ->
  Z.lor (PYTHON_VERSION major minor micro) low < PYTHON_VERSION major' minor' micro' <->
  major < major' \/
  (major = major' /\ (minor < minor' \/ (minor = minor' /\ micro < micro'))).
Proof.
  intros _ _ Hminor Hmicro Hlow Hminor' Hmicro'.
  rewrite (PYTHON_VERSION_value major minor micro low) by lia.
  rewrite <- (Z.lor_0_r (PYTHON_VERSION major' minor' micro')).
  rewrite (PYTHON_VERSION_value major' minor' micro' 0) by lia.
  lia.
Qed.

(** X23 at Python 3.9.18 final (low byte [0xf0]) against 3.10.0. *)
Lemma PYTHON_VERSION_order_witness :
  Z.lor (PYTHON_VERSION 3 9 18) 240 < PYTHON_VERSION 3 10 0 <->
  3 < 3 \/ (3 = 3 /\ (9 < 10 \/ (9 = 10 /\ 18 < 0))).
Proof. apply (PYTHON_VERSION_order 3 9 18 240 3 10 0); lia. Defined.
